(** * filesystem.CopyDirectory: counting and copying directory trees

    A shallow embedding of the Go package [filesystem] (type
    [CopyDirectory] with its methods [CountFiles], [CopyFilesAndDirectory],
    [Copy] and [CopyMultipleSources]) and the properties of its
    specification.

    Modelling conventions.
    - A path is the list of its components; [filepath.Join dir name] for an
      entry name returned by [os.ReadDir] is [dir ++ [name]].
    - The source side is a tree value [node]; it is only read.  This is
      the situation of a source and a destination that do not lie inside
      each other: a copy then changes nothing at or below its source
      ([CopyFilesAndDirectory_keeps_source]).  Every node carries the
      outcome the operating system gives to the calls the program makes on
      it ([None]: the call succeeds).
    - The destination side is a finite map from paths to entries, changed
      by [os.MkdirAll], [os.Create], the writes of [io.CopyBuffer] and
      [Close].
    - [io.CopyBuffer] is library code.  Between two files it moves the
      bytes without the buffer it is given, so a transfer that fails can
      leave any number of bytes behind; what the copier decides is the
      length of the buffer that it hands over.
    - Memory allocation ([make], new goroutines) always succeeds.
    - Go's [int] is taken as 64 bits wide; additions wrap around.
    - Goroutines are modelled by an interleaving semantics: a
      configuration is the tree of activations of [CopyFilesAndDirectory]
      with the goroutines each one has started, and a schedule is the list
      of the threads that move, one after the other.  A step is one
      statement, or one group of statements that no other thread can
      observe in part: a critical section of a mutex, the calls that copy
      one file (no two threads of one copy write the same path).
    - The goroutine that drains the progress channel (lines 152-156 and
      193-197) is always ready to receive, so a send on the open channel
      is one step; a send on the closed channel panics. *)

From stdpp Require Import gmap strings list fin_maps.
From Stdlib Require Import ZArith Lia.
From Stdlib.Strings Require Import Byte.

Local Open Scope Z_scope.

(** ** Paths, errors, machine integers *)

Abbreviation path := (list string) (only parsing).

Inductive errno := ENOENT | ENOTDIR | EISDIR | EACCES | EIO | ENOSPC.

#[global] Instance errno_eq_dec : EqDecision errno.
Proof. solve_decision. Defined.

(** [*fs.PathError]: the operation, the path it was applied to, the cause. *)
Record error := PathError { Op : string; Path : path; Err : errno }.

#[global] Instance error_eq_dec : EqDecision error.
Proof. solve_decision. Defined.

Definition int_min : Z := - 2 ^ 63.
Definition int_max : Z := 2 ^ 63 - 1.

(** Two's complement wrap-around of Go's [int] arithmetic. *)
Definition wrap (z : Z) : Z := (z + 2 ^ 63) mod 2 ^ 64 - 2 ^ 63.

(** ** The source tree *)

(** The side of a transfer on which it fails. *)
Inductive copy_side := Reading | Writing.

#[global] Instance copy_side_eq_dec : EqDecision copy_side.
Proof. solve_decision. Defined.

(** Outcomes of the calls made on a source file and on its destination:
    [os.Open], [os.Create], [io.CopyBuffer] ([Some (k, side, e)]: the
    transfer fails with [e] when [k] bytes have been written) and
    [destinationFile.Close()] ([Some (k, e)]: it fails with [e], and of the
    bytes written only the first [k] have reached the file). *)
Record file_fault := FileFault {
  open_err : option errno;
  create_err : option errno;
  copy_err : option (nat * copy_side * errno);
  close_err : option (nat * errno)
}.

(** Outcomes of the calls made on a source directory and on its
    destination: [os.ReadDir] during the counting pass, [os.MkdirAll] of the
    destination ([Some (k, e)]: the [os.Mkdir] that follows [k] successful
    ones fails with [e]), [os.ReadDir] during the copying pass. *)
Record dir_fault := DirFault {
  count_err : option errno;
  mkdir_err : option (nat * errno);
  list_err : option errno
}.

Definition no_file_fault : file_fault := FileFault None None None None.
Definition no_dir_fault : dir_fault := DirFault None None None.

#[warnings="-register-all"]
Inductive node :=
| File (data : list byte) (flt : file_fault)
| Dir (flt : dir_fault) (entries : list (string * node)).

(** [entry.IsDir()] *)
Definition IsDir (n : node) : bool :=
  match n with Dir _ _ => true | File _ _ => false end.

(** [os.ReadDir] as the counting pass sees it. *)
Definition ReadDir_count (directory : path) (n : node)
  : list (string * node) + error :=
  match n with
  | File _ _ => inr (PathError "open" directory ENOTDIR)
  | Dir flt entries =>
      match count_err flt with
      | Some e => inr (PathError "open" directory e)
      | None => inl entries
      end
  end.

(** [os.ReadDir] as the copying pass sees it. *)
Definition ReadDir_copy (directory : path) (n : node)
  : list (string * node) + error :=
  match n with
  | File _ _ => inr (PathError "open" directory ENOTDIR)
  | Dir flt entries =>
      match list_err flt with
      | Some e => inr (PathError "open" directory e)
      | None => inl entries
      end
  end.

(** ** CountFiles *)

(** [func (cd *CopyDirectory) CountFiles(directory string) (int, error)].
    The inner [loop] is the [for _, entry := range entries] with the
    running [count]. *)
Fixpoint CountFiles (directory : path) (n : node) {struct n}
  : Z * option error :=
  match n with
  | File _ _ => (0, Some (PathError "open" directory ENOTDIR))
  | Dir flt entries =>
      match count_err flt with
      | Some e => (0, Some (PathError "open" directory e))
      | None =>
          (fix loop (es : list (string * node)) (count : Z) {struct es}
             : Z * option error :=
             match es with
             | [] => (count, None)
             | (name, child) :: es' =>
                 if IsDir child then
                   match CountFiles (directory ++ [name]) child with
                   | (_, Some err) => (0, Some err)
                   | (subCount, None) => loop es' (wrap (count + subCount))
                   end
                 else loop es' (wrap (count + 1))
             end) entries 0
      end
  end.

(** The loop of [CountFiles], named, for stating lemmas about it. *)
Fixpoint CountFiles_loop (directory : path) (es : list (string * node))
  (count : Z) : Z * option error :=
  match es with
  | [] => (count, None)
  | (name, child) :: es' =>
      if IsDir child then
        match CountFiles (directory ++ [name]) child with
        | (_, Some err) => (0, Some err)
        | (subCount, None) =>
            CountFiles_loop directory es' (wrap (count + subCount))
        end
      else CountFiles_loop directory es' (wrap (count + 1))
  end.

(** The number of non-directory entries reachable from a node. *)
Fixpoint leaves (n : node) : nat :=
  match n with
  | File _ _ => 1%nat
  | Dir _ entries =>
      (fix sum (es : list (string * node)) : nat :=
         match es with
         | [] => 0%nat
         | (_, child) :: es' => (leaves child + sum es')%nat
         end) entries
  end.

Fixpoint leaves_list (es : list (string * node)) : nat :=
  match es with
  | [] => 0%nat
  | (_, child) :: es' => (leaves child + leaves_list es')%nat
  end.

(** Every directory of the tree can be listed by the counting pass. *)
Fixpoint listable (n : node) : Prop :=
  match n with
  | File _ _ => True
  | Dir flt entries =>
      count_err flt = None ∧
      (fix all (es : list (string * node)) : Prop :=
         match es with
         | [] => True
         | (_, child) :: es' => listable child ∧ all es'
         end) entries
  end.

Fixpoint listable_list (es : list (string * node)) : Prop :=
  match es with
  | [] => True
  | (_, child) :: es' => listable child ∧ listable_list es'
  end.

(** ** The copier's buffer *)

Record CopyDirectory := { BufferSize : Z }.

(** Lines 107-110: [bufSize := 1024 * 1024; if cd.BufferSize > 0 { bufSize =
    cd.BufferSize }]. *)
Definition bufSize (cd : CopyDirectory) : Z :=
  if 0 <? BufferSize cd then BufferSize cd else 1024 * 1024.

(** A byte slice that serves as scratch space, given by its length. *)
Record slice := Slice { len : Z }.

(** [make([]byte, n)] *)
Definition make (n : Z) : slice := Slice n.

(** What [io.CopyBuffer(dst, src, buf)] gets and gives: the buffer, the
    bytes of the source and the outcome of the transfer; the bytes written
    and the error. *)
Abbreviation CopyBuffer_type :=
  (slice → list byte → option (nat * copy_side * errno)
   → list byte * option (copy_side * errno)) (only parsing).

(** [io.CopyBuffer] between two files: all the bytes of the source are
    written, or the first [k] of them when the transfer fails.  The buffer
    plays no part in what is written. *)
Definition io_CopyBuffer : CopyBuffer_type :=
  λ buf src flt,
    match flt with
    | Some (k, side, e) => (take k src, Some (side, e))
    | None => (src, None)
    end.

(** [destinationFile.Close()]: the bytes that have reached the file, and the
    error. *)
Definition Close (flt : option (nat * errno)) (written : list byte)
  : list byte * option errno :=
  match flt with
  | Some (k, e) => (take k written, Some e)
  | None => (written, None)
  end.

(** ** The destination *)

Inductive dentry := DirE | FileE (data : list byte).

#[global] Instance byte_eq_dec : EqDecision byte := Byte.byte_eq_dec.

#[global] Instance dentry_eq_dec : EqDecision dentry.
Proof. solve_decision. Defined.

Abbreviation store := (gmap (list string) dentry) (only parsing).

(** What [os.Stat] finds at a path. *)
Inductive stat_result := IsDirectory | IsRegular | NotExist | NotADirectory.

(** Path resolution, component by component from [cur]. *)
Fixpoint resolve (st : store) (cur : path) (rest : list string)
  : stat_result :=
  match st !! cur with
  | None => NotExist
  | Some (FileE _) =>
      match rest with [] => IsRegular | _ :: _ => NotADirectory end
  | Some DirE =>
      match rest with
      | [] => IsDirectory
      | x :: r => resolve st (cur ++ [x]) r
      end
  end.

Definition Stat (st : store) (p : path) : stat_result := resolve st [] p.

(** One directory on the way of [os.MkdirAll]: one that exists is entered,
    one that is missing is made with [os.Mkdir], a file in its place is an
    error.  [flt = Some (k, e)]: the [os.Mkdir] that follows [k] successful
    ones fails with [e].  The result is the store and the outcomes of the
    calls to come, or the error, which names this directory. *)
Definition mkdir_one (flt : option (nat * errno)) (st : store) (cur : path)
  : store * option (nat * errno) + error :=
  match st !! cur with
  | Some (FileE _) => inr (PathError "mkdir" cur ENOTDIR)
  | Some DirE => inl (st, flt)
  | None =>
      match flt with
      | Some (0%nat, e) => inr (PathError "mkdir" cur e)
      | Some (S k, e) => inl (<[cur := DirE]> st, Some (k, e))
      | None => inl (<[cur := DirE]> st, None)
      end
  end.

(** The directories from [cur] down, one after the other; those made before
    a failure remain. *)
Fixpoint mkdir_chain (flt : option (nat * errno)) (st : store) (cur : path)
  (rest : list string) : store * option error :=
  match mkdir_one flt st cur with
  | inr err => (st, Some err)
  | inl (st', flt') =>
      match rest with
      | [] => (st', None)
      | x :: r => mkdir_chain flt' st' (cur ++ [x]) r
      end
  end.

(** [os.MkdirAll p]: the store afterwards and the error, if any. *)
Definition MkdirAll (flt : option (nat * errno)) (st : store) (p : path)
  : store * option error :=
  mkdir_chain flt st [] p.

(** Lines 45-50 and 200-206: [if _, err := os.Stat(d); os.IsNotExist(err)
    { err = os.MkdirAll(d, 0755); ... }]. *)
Definition ensure_destination (flt : option (nat * errno)) (st : store)
  (d : path) : store * option error :=
  match Stat st d with
  | NotExist => MkdirAll flt st d
  | _ => (st, None)
  end.

(** [os.Create (filepath.Join dir name)]: the file is created or truncated. *)
Definition Create (flt : option errno) (st : store) (dir : path)
  (name : string) : store + error :=
  let p := dir ++ [name] in
  match flt with
  | Some e => inr (PathError "open" p e)
  | None =>
      match Stat st dir with
      | IsDirectory =>
          match st !! p with
          | Some DirE => inr (PathError "open" p EISDIR)
          | _ => inl (<[p := FileE []]> st)
          end
      | NotExist => inr (PathError "open" p ENOENT)
      | _ => inr (PathError "open" p ENOTDIR)
      end
  end.

(** The error of a failed transfer: a [*fs.PathError] on the file of the
    side that failed. *)
Definition transfer_error (sourcePath destinationPath : path)
  (failure : copy_side * errno) : error :=
  match failure with
  | (Reading, e) => PathError "read" sourcePath e
  | (Writing, e) => PathError "write" destinationPath e
  end.

(** Lines 94-119: the copy of one file entry, with the library's
    [io.CopyBuffer] as [CopyBuffer].  The file holds [data]; the result is
    the store afterwards and the error of the step, if any.  The errors of
    the two calls of [Close] (lines 114-115) are discarded. *)
Definition copy_file_with (CopyBuffer : CopyBuffer_type)
  (cd : CopyDirectory) (data : list byte)
  (flt : file_fault) (st : store) (sourceDirectory destinationDirectory : path)
  (name : string) : store * option error :=
  let sourcePath := sourceDirectory ++ [name] in
  let destinationPath := destinationDirectory ++ [name] in
  match open_err flt with
  | Some e => (st, Some (PathError "open" sourcePath e))
  | None =>
      match Create (create_err flt) st destinationDirectory name with
      | inr err => (st, Some err)
      | inl st1 =>
          let buf := make (bufSize cd) in
          match CopyBuffer buf data (copy_err flt) with
          | (written, err) =>
              let kept := (Close (close_err flt) written).1 in
              (<[destinationPath := FileE kept]> st1,
               transfer_error sourcePath destinationPath <$> err)
          end
      end
  end.

Definition copy_file : CopyDirectory → list byte → file_fault → store
  → path → path → string → store * option error :=
  copy_file_with io_CopyBuffer.

(** ** CopyFilesAndDirectory: activations, goroutines, steps *)

(** What the threads share: the destination, the progress channel (whether
    it was closed, how many signals the consumer received), and whether a
    goroutine panicked (a send on the closed channel), which ends the
    process. *)
Record world := World {
  fs : store;
  closed : bool;
  signals : nat;
  panicked : bool
}.

Definition set_fs (w : world) (st : store) : world :=
  World st (closed w) (signals w) (panicked w).

(** The program point of one activation of [CopyFilesAndDirectory]. *)
Inductive pc :=
| Entry                                 (* line 45 *)
| Listing                               (* line 53 *)
| Loop (rest : list (string * node))    (* line 70, entries still to do *)
| Send (rest : list (string * node))    (* line 122 *)
| Incr (rest : list (string * node))    (* lines 123-125 *)
| Wait                                  (* line 130 *)
| Ret (count : Z) (err : option error). (* returned *)

(** The arguments and the local variables of one activation; [fileCount],
    [firstErr] and [waitGroup] are the ones its goroutines share with it. *)
Record frame := Frame {
  sourceDirectory : path;
  sourceNode : node;
  destinationDirectory : path;
  at_pc : pc;
  fileCount : Z;
  firstErr : option error;
  waitGroup : Z
}.

Definition goto (f : frame) (p : pc) : frame :=
  Frame (sourceDirectory f) (sourceNode f) (destinationDirectory f) p
        (fileCount f) (firstErr f) (waitGroup f).

Definition set_fileCount (f : frame) (c : Z) : frame :=
  Frame (sourceDirectory f) (sourceNode f) (destinationDirectory f) (at_pc f)
        c (firstErr f) (waitGroup f).

Definition set_firstErr (f : frame) (e : option error) : frame :=
  Frame (sourceDirectory f) (sourceNode f) (destinationDirectory f) (at_pc f)
        (fileCount f) e (waitGroup f).

Definition set_waitGroup (f : frame) (n : Z) : frame :=
  Frame (sourceDirectory f) (sourceNode f) (destinationDirectory f) (at_pc f)
        (fileCount f) (firstErr f) n.

Definition call (src : path) (n : node) (dst : path) : frame :=
  Frame src n dst Entry 0 None 0.

(** The program point of a goroutine started at line 77. *)
Inductive gstage :=
| GCall    (* line 79, the recursive call *)
| GErr     (* line 84, after the count was added *)
| GDone    (* the deferred waitGroup.Done() *)
| GExit.   (* finished *)

#[global] Instance gstage_eq_dec : EqDecision gstage.
Proof. solve_decision. Defined.

(** An activation together with the goroutines it started, each with the
    activation it runs. *)
#[warnings="-register-all"]
Inductive task := Task (f : frame) (kids : list (gstage * task)).

Definition frame_of (t : task) : frame := match t with Task f _ => f end.
Definition kids_of (t : task) : list (gstage * task) :=
  match t with Task _ kids => kids end.

(** A call [cd.CopyFilesAndDirectory(src, dst, progressChan)] at its first
    line, where [n] is the tree that [src] names. *)
Definition CopyFilesAndDirectory (src : path) (n : node) (dst : path)
  : task :=
  Task (call src n dst) [].

(** What a returned activation gave its caller. *)
Definition result (t : task) : option (Z * option error) :=
  match at_pc (frame_of t) with
  | Ret c e => Some (c, e)
  | _ => None
  end.

(** Which thread moves: the activation itself, the goroutine body around
    the call of kid [i], or a thread inside the activation of kid [i]. *)
Inductive thread :=
| Here
| Around (i : nat)
| Inside (i : nat) (th : thread).

Definition mkdir_fault (n : node) : option (nat * errno) :=
  match n with Dir flt _ => mkdir_err flt | File _ _ => None end.

(** One step of the activation's own thread. *)
Definition step_here (cd : CopyDirectory) (w : world) (f : frame)
  (kids : list (gstage * task)) : option (world * task) :=
  match at_pc f with
  | Entry =>
      match ensure_destination (mkdir_fault (sourceNode f)) (fs w)
              (destinationDirectory f) with
      | (st, Some err) =>
          Some (set_fs w st, Task (goto f (Ret 0 (Some err))) kids)
      | (st, None) => Some (set_fs w st, Task (goto f Listing) kids)
      end
  | Listing =>
      match ReadDir_copy (sourceDirectory f) (sourceNode f) with
      | inr err => Some (w, Task (goto f (Ret 0 (Some err))) kids)
      | inl entries => Some (w, Task (goto f (Loop entries)) kids)
      end
  | Loop [] => Some (w, Task (goto f Wait) kids)
  | Loop ((name, Dir flt entries) :: rest) =>
      let sourcePath := sourceDirectory f ++ [name] in
      let destinationPath := destinationDirectory f ++ [name] in
      Some (w, Task (set_waitGroup (goto f (Loop rest)) (waitGroup f + 1))
                    (kids ++ [(GCall,
                               CopyFilesAndDirectory sourcePath
                                 (Dir flt entries) destinationPath)]))
  | Loop ((name, File data flt) :: rest) =>
      match copy_file cd data flt (fs w) (sourceDirectory f)
              (destinationDirectory f) name with
      | (st, Some err) =>
          Some (set_fs w st, Task (goto f (Ret (fileCount f) (Some err))) kids)
      | (st, None) => Some (set_fs w st, Task (goto f (Send rest)) kids)
      end
  | Send rest =>
      if closed w
      then Some (World (fs w) (closed w) (signals w) true, Task f kids)
      else Some (World (fs w) (closed w) (S (signals w)) (panicked w),
                 Task (goto f (Incr rest)) kids)
  | Incr rest =>
      Some (w, Task (goto (set_fileCount f (wrap (fileCount f + 1)))
                          (Loop rest)) kids)
  | Wait =>
      if decide (waitGroup f = 0)
      then Some (w, Task (goto f (Ret (fileCount f) (firstErr f))) kids)
      else None
  | Ret _ _ => None
  end.

(** One step of the goroutine body around kid [i] (lines 77-91), on the
    variables of the activation [f] that started it. *)
Definition step_around (f : frame) (g : gstage) (callee : task)
  : option (frame * gstage) :=
  match g with
  | GCall =>
      match result callee with
      | Some (count, _) =>
          Some (set_fileCount f (wrap (fileCount f + count)), GErr)
      | None => None
      end
  | GErr =>
      match result callee with
      | Some (_, Some err) =>
          match firstErr f with
          | None => Some (set_firstErr f (Some err), GDone)
          | Some _ => Some (f, GDone)
          end
      | Some (_, None) => Some (f, GDone)
      | None => None
      end
  | GDone => Some (set_waitGroup f (waitGroup f - 1), GExit)
  | GExit => None
  end.

(** One step of the thread [th] of a call of [CopyFilesAndDirectory];
    [None] when that thread cannot move. *)
Fixpoint step (cd : CopyDirectory) (th : thread) (w : world) (t : task)
  {struct th} : option (world * task) :=
  match th with
  | Here => step_here cd w (frame_of t) (kids_of t)
  | Around i =>
      match kids_of t !! i with
      | Some (g, callee) =>
          match step_around (frame_of t) g callee with
          | Some (f', g') =>
              Some (w, Task f' (<[i := (g', callee)]> (kids_of t)))
          | None => None
          end
      | None => None
      end
  | Inside i th' =>
      match kids_of t !! i with
      | Some (g, callee) =>
          match step cd th' w callee with
          | Some (w', callee') =>
              Some (w', Task (frame_of t) (<[i := (g, callee')]> (kids_of t)))
          | None => None
          end
      | None => None
      end
  end.

(** A step of the process: nothing moves once a goroutine has panicked. *)
Definition sched (cd : CopyDirectory) (th : thread) (c : world * task)
  : option (world * task) :=
  if panicked c.1 then None else step cd th c.1 c.2.

(** A run along a schedule. *)
Fixpoint run (cd : CopyDirectory) (ths : list thread) (c : world * task)
  : option (world * task) :=
  match ths with
  | [] => Some c
  | th :: ths' =>
      match sched cd th c with
      | Some c' => run cd ths' c'
      | None => None
      end
  end.

(** No thread of the configuration can move. *)
Definition quiescent (cd : CopyDirectory) (c : world * task) : Prop :=
  ∀ th, sched cd th c = None.

(** ** Copy: one source *)

Inductive copy_pc :=
| CopyCount                                     (* line 137 *)
| CopyCall (totalFiles : Z)                     (* line 159 *)
| CopyClosed (count : Z) (err : option error)   (* lines 162-168 *)
| CopyRet (count : Z) (err : option error).     (* returned *)

Record copy_state := CopyState {
  cpc : copy_pc;
  cworld : world;
  ctask : option task
}.

Inductive copy_thread :=
| Main
| Worker (th : thread).

Definition close_progress (w : world) : world :=
  World (fs w) true (signals w) (panicked w).

Definition Copy_init (st : store) : copy_state :=
  CopyState CopyCount (World st false 0 false) None.

(** One step of [cd.Copy(source, destination)]: of its own thread or of a
    thread of the copier it called. *)
Definition Copy_step (cd : CopyDirectory) (source : path) (n : node)
  (destination : path) (who : copy_thread) (s : copy_state)
  : option copy_state :=
  if panicked (cworld s) then None else
  match who with
  | Main =>
      match cpc s with
      | CopyCount =>
          match CountFiles source n with
          | (_, Some err) =>
              Some (CopyState (CopyRet 0 (Some err)) (cworld s) None)
          | (totalFiles, None) =>
              Some (CopyState (CopyCall totalFiles) (cworld s)
                              (Some (CopyFilesAndDirectory source n
                                       destination)))
          end
      | CopyCall _ =>
          match ctask s with
          | Some t =>
              match result t with
              | Some (count, err) =>
                  Some (CopyState (CopyClosed count err)
                                  (close_progress (cworld s)) (ctask s))
              | None => None
              end
          | None => None
          end
      | CopyClosed count err =>
          Some (CopyState (CopyRet count err) (cworld s) (ctask s))
      | CopyRet _ _ => None
      end
  | Worker th =>
      match ctask s with
      | Some t =>
          match step cd th (cworld s) t with
          | Some (w', t') => Some (CopyState (cpc s) w' (Some t'))
          | None => None
          end
      | None => None
      end
  end.

Fixpoint Copy_run (cd : CopyDirectory) (source : path) (n : node)
  (destination : path) (who : list copy_thread) (s : copy_state)
  : option copy_state :=
  match who with
  | [] => Some s
  | x :: who' =>
      match Copy_step cd source n destination x s with
      | Some s' => Copy_run cd source n destination who' s'
      | None => None
      end
  end.

(** ** CopyMultipleSources *)

(** Lines 174-181: the counting loop with its running [totalFiles]. *)
Fixpoint count_sources (sources : list (path * node)) (totalFiles : Z)
  : Z * option error :=
  match sources with
  | [] => (totalFiles, None)
  | (source, n) :: rest =>
      match CountFiles source n with
      | (_, Some err) => (0, Some err)
      | (count, None) => count_sources rest (wrap (totalFiles + count))
      end
  end.

Inductive multi_pc :=
| MCount                                   (* line 174 *)
| MEnsure (totalFiles : Z)                 (* line 200 *)
| MSpawn (rest : list (path * node))       (* line 213 *)
| MWait                                    (* line 227 *)
| MClosed                                  (* lines 229-244 *)
| MRet (count : Z) (err : option error).   (* returned *)

(** The program point of a goroutine started at line 215. *)
Inductive sstage :=
| SCall    (* line 218 *)
| SErr     (* line 220, after the count was sent *)
| SDone    (* the deferred waitGroup.Done() *)
| SExit.

#[global] Instance sstage_eq_dec : EqDecision sstage.
Proof. solve_decision. Defined.

(** [errChan] and [countChan] hold what was sent and not yet received, oldest
    first; each goroutine sends at most once on each, so the capacity
    [len(sources)] is never exceeded and no send blocks. *)
Record multi_state := MultiState {
  mpc : multi_pc;
  mworld : world;
  mwaitGroup : Z;
  mgos : list (sstage * task);
  errChan : list error;
  countChan : list Z
}.

Inductive multi_thread :=
| MMain
| MAround (i : nat)
| MInside (i : nat) (th : thread).

Definition CopyMultipleSources_init (st : store) : multi_state :=
  MultiState MCount (World st false 0 false) 0 [] [] [].

(** Lines 233-236: [for count := range countChan { totalFilesCopied +=
    count }]. *)
Definition sum_counts (counts : list Z) : Z :=
  fold_left (λ total count, wrap (total + count)) counts 0.

(** One step of [cd.CopyMultipleSources(sources, destination)]: of its own
    thread, of the goroutine body of source [i], or of a thread of the
    copier that goroutine called.  [dest_mkdir_err] is the outcome of
    [os.MkdirAll] at line 201. *)
Definition CopyMultipleSources_step (cd : CopyDirectory)
  (sources : list (path * node))
  (destination : path) (dest_mkdir_err : option (nat * errno))
  (who : multi_thread) (s : multi_state) : option multi_state :=
  if panicked (mworld s) then None else
  match who with
  | MMain =>
      match mpc s with
      | MCount =>
          match count_sources sources 0 with
          | (_, Some err) =>
              Some (MultiState (MRet 0 (Some err)) (mworld s) (mwaitGroup s)
                               (mgos s) (errChan s) (countChan s))
          | (totalFiles, None) =>
              Some (MultiState (MEnsure totalFiles) (mworld s) (mwaitGroup s)
                               (mgos s) (errChan s) (countChan s))
          end
      | MEnsure _ =>
          match ensure_destination dest_mkdir_err (fs (mworld s))
                  destination with
          | (st, Some err) =>
              Some (MultiState (MRet 0 (Some err))
                               (close_progress (set_fs (mworld s) st))
                               (mwaitGroup s) (mgos s) (errChan s)
                               (countChan s))
          | (st, None) =>
              Some (MultiState (MSpawn sources) (set_fs (mworld s) st)
                               (mwaitGroup s) (mgos s) (errChan s)
                               (countChan s))
          end
      | MSpawn [] =>
          Some (MultiState MWait (mworld s) (mwaitGroup s) (mgos s)
                           (errChan s) (countChan s))
      | MSpawn ((src, n) :: rest) =>
          Some (MultiState (MSpawn rest) (mworld s) (mwaitGroup s + 1)
                           (mgos s ++
                              [(SCall,
                                CopyFilesAndDirectory src n destination)])
                           (errChan s) (countChan s))
      | MWait =>
          if decide (mwaitGroup s = 0)
          then Some (MultiState MClosed (close_progress (mworld s))
                                (mwaitGroup s) (mgos s) (errChan s)
                                (countChan s))
          else None
      | MClosed =>
          Some (MultiState (MRet (sum_counts (countChan s)) (head (errChan s)))
                           (mworld s) (mwaitGroup s) (mgos s)
                           (tail (errChan s)) [])
      | MRet _ _ => None
      end
  | MAround i =>
      match mgos s !! i with
      | Some (SCall, callee) =>
          match result callee with
          | Some (count, _) =>
              Some (MultiState (mpc s) (mworld s) (mwaitGroup s)
                               (<[i := (SErr, callee)]> (mgos s))
                               (errChan s) (countChan s ++ [count]))
          | None => None
          end
      | Some (SErr, callee) =>
          match result callee with
          | Some (_, Some err) =>
              Some (MultiState (mpc s) (mworld s) (mwaitGroup s)
                               (<[i := (SDone, callee)]> (mgos s))
                               (errChan s ++ [err]) (countChan s))
          | Some (_, None) =>
              Some (MultiState (mpc s) (mworld s) (mwaitGroup s)
                               (<[i := (SDone, callee)]> (mgos s))
                               (errChan s) (countChan s))
          | None => None
          end
      | Some (SDone, callee) =>
          Some (MultiState (mpc s) (mworld s) (mwaitGroup s - 1)
                           (<[i := (SExit, callee)]> (mgos s))
                           (errChan s) (countChan s))
      | Some (SExit, _) => None
      | None => None
      end
  | MInside i th =>
      match mgos s !! i with
      | Some (g, callee) =>
          match step cd th (mworld s) callee with
          | Some (w', callee') =>
              Some (MultiState (mpc s) w' (mwaitGroup s)
                               (<[i := (g, callee')]> (mgos s))
                               (errChan s) (countChan s))
          | None => None
          end
      | None => None
      end
  end.

Fixpoint CopyMultipleSources_run (cd : CopyDirectory)
  (sources : list (path * node))
  (destination : path) (dest_mkdir_err : option (nat * errno))
  (who : list multi_thread) (s : multi_state) : option multi_state :=
  match who with
  | [] => Some s
  | x :: who' =>
      match CopyMultipleSources_step cd sources destination dest_mkdir_err
              x s with
      | Some s' =>
          CopyMultipleSources_run cd sources destination dest_mkdir_err
            who' s'
      | None => None
      end
  end.

Fixpoint sumZ {A : Type} (f : A → Z) (l : list A) : Z :=
  match l with
  | [] => 0
  | x :: l' => f x + sumZ f l'
  end.

(** ** The destination a copy is expected to produce *)

Definition entry_of (n : node) : dentry :=
  match n with File data _ => FileE data | Dir _ _ => DirE end.

Fixpoint find_entry (name : string) (entries : list (string * node))
  : option node :=
  match entries with
  | [] => None
  | (x, child) :: es => if decide (x = name) then Some child
                        else find_entry name es
  end.

(** What the source tree has at a relative path. *)
Fixpoint tree_lookup (n : node) (q : path) {struct q} : option dentry :=
  match q with
  | [] => Some (entry_of n)
  | x :: q' =>
      match n with
      | File _ _ => None
      | Dir _ entries =>
          match find_entry x entries with
          | Some child => tree_lookup child q'
          | None => None
          end
      end
  end.

(** [below d p = Some q] when [p] is [d ++ q]. *)
Fixpoint below (d p : path) : option path :=
  match d, p with
  | [], _ => Some p
  | x :: d', y :: p' => if decide (x = y) then below d' p' else None
  | _ :: _, [] => None
  end.

(** The directories [s] and [d] do not lie inside each other. *)
Definition apart (s d : path) : Prop :=
  ¬ s `prefix_of` d ∧ ¬ d `prefix_of` s.

(** The destination after the copy of the tree [n] to [dst], started on the
    store [st0]: the directories down to [dst], the tree below [dst], and
    everywhere else what [st0] had. *)
Definition final_at (st0 : store) (dst : path) (n : node) (p : path)
  : option dentry :=
  if decide (p `prefix_of` dst) then Some DirE
  else match below dst p with
       | Some q =>
           match tree_lookup n q with
           | Some e => Some e
           | None => st0 !! p
           end
       | None => st0 !! p
       end.

Definition not_file (o : option dentry) : Prop :=
  o = None ∨ o = Some DirE.

(** An existing entry does not have the other kind than the expected one. *)
Definition agree (have want : option dentry) : Prop :=
  match have, want with
  | Some DirE, Some (FileE _) => False
  | Some (FileE _), Some DirE => False
  | _, _ => True
  end.

Definition agrees (fin : path → option dentry) (st : store) : Prop :=
  ∀ p, agree (st !! p) (fin p).

(** The store [st0] has no file where the copy needs a directory and no
    directory where it needs a file. *)
Definition compatible (st0 : store) (dst : path) (n : node) : Prop :=
  agrees (final_at st0 dst n) st0.

(** No call of the operating system fails, on any node of the tree. *)
Fixpoint fault_free (n : node) : Prop :=
  match n with
  | File _ flt => flt = no_file_fault
  | Dir flt entries =>
      flt = no_dir_fault ∧
      (fix all (es : list (string * node)) : Prop :=
         match es with
         | [] => True
         | (_, child) :: es' => fault_free child ∧ all es'
         end) entries
  end.

(** A directory lists every name once. *)
Fixpoint names_unique (n : node) : Prop :=
  match n with
  | File _ _ => True
  | Dir _ entries =>
      NoDup entries.*1 ∧
      (fix all (es : list (string * node)) : Prop :=
         match es with
         | [] => True
         | (_, child) :: es' => names_unique child ∧ all es'
         end) entries
  end.

(** The tree [n] has its place at [d] in the expected destination [fin]. *)
Definition placed (fin : path → option dentry) (d : path) (n : node) : Prop :=
  (∀ p, p `prefix_of` d → fin p = Some DirE)
  ∧ (∀ q e, tree_lookup n q = Some e → fin (d ++ q) = Some e).

(** ** What holds of an activation when no call fails *)

Definition dir_entries (es : list (string * node)) : list (string * node) :=
  filter (λ e, IsDir e.2 = true) es.

Definition file_entries (es : list (string * node)) : list (string * node) :=
  filter (λ e, IsDir e.2 = false) es.

(** What the goroutine of a subdirectory has added to [fileCount]. *)
Definition merged (e : string * node) (k : gstage * task) : Z :=
  if decide (k.1 = GCall) then 0 else Z.of_nat (leaves e.2).

Fixpoint merged_sum (ds : list (string * node)) (kids : list (gstage * task))
  : Z :=
  match ds, kids with
  | e :: ds', k :: kids' => merged e k + merged_sum ds' kids'
  | _, _ => 0
  end.

Definition galive (k : gstage * task) : Z :=
  if decide (k.1 = GExit) then 0 else 1.

(** Files copied whose increment of [fileCount] is still to come. *)
Definition pending (p : pc) : Z :=
  match p with Send _ | Incr _ => 1 | _ => 0 end.

(** The activation [t] copies the directory [n] from [s] to [d], is in a
    state that a run without failures reaches, and the store [st] has what
    the activation has done so far: [done] are the entries handled, [rest]
    those to come. *)
#[warnings="-register-all"]
Inductive Good (fin : path → option dentry) (st : store)
  : node → path → path → task → Prop :=
| Good_task flt entries s d f kids done rest :
    sourceDirectory f = s →
    sourceNode f = Dir flt entries →
    destinationDirectory f = d →
    firstErr f = None →
    entries = done ++ rest →
    match at_pc f with
    | Entry => done = []
    | Listing => done = [] ∧ (∀ p, p `prefix_of` d → st !! p = fin p)
    | Loop r | Send r | Incr r =>
        r = rest ∧ (∀ p, p `prefix_of` d → st !! p = fin p)
    | Wait => rest = [] ∧ (∀ p, p `prefix_of` d → st !! p = fin p)
    | Ret c e =>
        rest = [] ∧ (∀ p, p `prefix_of` d → st !! p = fin p)
        ∧ c = fileCount f ∧ e = None ∧ waitGroup f = 0
    end →
    (∀ e, e ∈ file_entries done → st !! (d ++ [e.1]) = fin (d ++ [e.1])) →
    Forall2 (λ e k, Good fin st e.2 (s ++ [e.1]) (d ++ [e.1]) k.2
                    ∧ (k.1 ≠ GCall →
                       result k.2
                       = Some (wrap (Z.of_nat (leaves e.2)), None)))
            (dir_entries done) kids →
    fileCount f = wrap (Z.of_nat (length (file_entries done))
                        - pending (at_pc f)
                        + merged_sum (dir_entries done) kids) →
    waitGroup f = sumZ galive kids →
    Good fin st (Dir flt entries) s d (Task f kids).

(** ** What holds in every state of Copy when no call fails *)

Definition copy_inv (n : node) (source destination : path) (st0 : store)
  (s : copy_state) : Prop :=
  let fin := final_at st0 destination n in
  panicked (cworld s) = false
  ∧ (∀ p, fs (cworld s) !! p = st0 !! p ∨ fs (cworld s) !! p = fin p)
  ∧ match cpc s with
    | CopyCount => ctask s = None ∧ closed (cworld s) = false
    | CopyCall _ =>
        closed (cworld s) = false
        ∧ ∃ t, ctask s = Some t
               ∧ Good fin (fs (cworld s)) n source destination t
    | CopyClosed c e | CopyRet c e =>
        ∃ t, ctask s = Some t
             ∧ Good fin (fs (cworld s)) n source destination t
             ∧ result t = Some (c, e)
    end.

(** ** A bound on the length of runs *)

(** The steps that the copy of a node takes at most. *)
Fixpoint cost (n : node) : nat :=
  match n with
  | File _ _ => 3%nat
  | Dir _ entries =>
      (4 + (fix sum (es : list (string * node)) : nat :=
              match es with
              | [] => 0
              | (_, child) :: es' =>
                  (if IsDir child then 4 else 0) + cost child + sum es'
              end) entries)%nat
  end.

Fixpoint cost_list (es : list (string * node)) : nat :=
  match es with
  | [] => 0%nat
  | (_, child) :: es' =>
      ((if IsDir child then 4 else 0) + cost child + cost_list es')%nat
  end.

Definition entries_of (n : node) : list (string * node) :=
  match n with Dir _ entries => entries | File _ _ => [] end.

(** The steps that the thread of an activation has left at most, with those
    of the goroutines it will launch. *)
Definition own_cost (f : frame) : nat :=
  match at_pc f with
  | Entry => 4 + cost_list (entries_of (sourceNode f))
  | Listing => 3 + cost_list (entries_of (sourceNode f))
  | Loop rest => 2 + cost_list rest
  | Send rest => 4 + cost_list rest
  | Incr rest => 3 + cost_list rest
  | Wait => 1
  | Ret _ _ => 0
  end%nat.

Definition stage_cost (g : gstage) : nat :=
  match g with GCall => 3 | GErr => 2 | GDone => 1 | GExit => 0 end%nat.

Fixpoint task_cost (t : task) : nat :=
  match t with
  | Task f kids =>
      (own_cost f +
       (fix sum (ks : list (gstage * task)) : nat :=
          match ks with
          | [] => 0
          | (g, k) :: ks' => stage_cost g + task_cost k + sum ks'
          end) kids)%nat
  end.

Fixpoint kids_cost (ks : list (gstage * task)) : nat :=
  match ks with
  | [] => 0%nat
  | (g, k) :: ks' => (stage_cost g + task_cost k + kids_cost ks')%nat
  end.

(** The steps that a run of [Copy] has left at most. *)
Definition copy_cost (n : node) (s : copy_state) : nat :=
  match cpc s with
  | CopyCount => cost n + 3
  | CopyCall _ => 2 + from_option task_cost 0 (ctask s)
  | CopyClosed _ _ => 1
  | CopyRet _ _ => 0
  end%nat.

(** ** What holds of every activation, failures or not *)

(** The wait-group counter is the number of goroutines that have not
    finished, and a goroutine past its call has a call that returned. *)
#[warnings="-register-all"]
Inductive WF : task → Prop :=
| WF_task f kids :
    waitGroup f = sumZ galive kids →
    Forall (λ k, (k.1 ≠ GCall → is_Some (result k.2)) ∧ WF k.2) kids →
    WF (Task f kids).

(** ** What holds in every state of CopyMultipleSources *)

(** The count and the error that the call run by a goroutine returned. *)
Definition returned_count (gt : sstage * task) : Z :=
  match result gt.2 with Some (c, _) => c | None => 0 end.

Definition returned_error (gt : sstage * task) : option error :=
  match result gt.2 with Some (_, e) => e | None => None end.

(** The contribution of a goroutine to [countChan] and to [waitGroup]. *)
Definition sent_count (gt : sstage * task) : Z :=
  if decide (gt.1 = SCall) then 0 else returned_count gt.

Definition alive (gt : sstage * task) : Z :=
  if decide (gt.1 = SExit) then 0 else 1.

(** The goroutine [gt] runs the copier on source [s]. *)
Definition runs_source (destination : path) (s : path * node)
  (gt : sstage * task) : Prop :=
  sourceDirectory (frame_of gt.2) = s.1
  ∧ sourceNode (frame_of gt.2) = s.2
  ∧ destinationDirectory (frame_of gt.2) = destination.

Definition chans_inv (s : multi_state) : Prop :=
  sumZ id (countChan s) = sumZ sent_count (mgos s)
  ∧ (∀ e, e ∈ errChan s →
          ∃ i gt, mgos s !! i = Some gt ∧ returned_error gt = Some e)
  ∧ (errChan s = [] →
     ∀ i gt, mgos s !! i = Some gt → gt.1 = SDone ∨ gt.1 = SExit →
             returned_error gt = None).

Definition multi_inv (sources : list (path * node)) (destination : path)
  (s : multi_state) : Prop :=
  (∀ i gt, mgos s !! i = Some gt →
           ∃ src, sources !! i = Some src ∧ runs_source destination src gt)
  ∧ (∀ i gt, mgos s !! i = Some gt → gt.1 ≠ SCall → is_Some (result gt.2))
  ∧ mwaitGroup s = sumZ alive (mgos s)
  ∧ match mpc s with
    | MCount | MEnsure _ => mgos s = [] ∧ errChan s = [] ∧ countChan s = []
    | MSpawn rest =>
        sources = take (length (mgos s)) sources ++ rest ∧ chans_inv s
    | MWait => length (mgos s) = length sources ∧ chans_inv s
    | MClosed =>
        length (mgos s) = length sources ∧ chans_inv s ∧ mwaitGroup s = 0
    | MRet count err =>
        mgos s = [] ∨
        (length (mgos s) = length sources
         ∧ mwaitGroup s = 0
         ∧ count = wrap (sumZ returned_count (mgos s))
         ∧ match err with
           | Some e =>
               ∃ i gt, mgos s !! i = Some gt ∧ returned_error gt = Some e
           | None =>
               ∀ i gt, mgos s !! i = Some gt → returned_error gt = None
           end)
    end.

(** The steps that a run of [CopyMultipleSources] has left at most. *)
Definition sstage_cost (g : sstage) : nat :=
  match g with SCall => 3 | SErr => 2 | SDone => 1 | SExit => 0 end%nat.

Fixpoint gos_cost (gos : list (sstage * task)) : nat :=
  match gos with
  | [] => 0%nat
  | (g, t) :: gos' => (sstage_cost g + task_cost t + gos_cost gos')%nat
  end.

Fixpoint sources_cost (sources : list (path * node)) : nat :=
  match sources with
  | [] => 0%nat
  | (_, n) :: rest =>
      (8 + cost_list (entries_of n) + sources_cost rest)%nat
  end.

Definition multi_cost (sources : list (path * node)) (s : multi_state)
  : nat :=
  ((if panicked (mworld s) then 0 else 1)
   + gos_cost (mgos s)
   + match mpc s with
     | MCount => 5 + sources_cost sources
     | MEnsure _ => 4 + sources_cost sources
     | MSpawn rest => 3 + sources_cost rest
     | MWait => 2
     | MClosed => 1
     | MRet _ _ => 0
     end)%nat.

Definition multi_wf (s : multi_state) : Prop :=
  Forall (λ gt, WF gt.2) (mgos s).

(** ** Several sources without failures *)

(** The number of files of all the sources. *)
Definition leaves_sources (sources : list (path * node)) : Z :=
  sumZ (λ sn, Z.of_nat (leaves sn.2)) sources.

(** Every source is a directory on which no call fails, with its place in
    the expected destination [fin]. *)
Definition mergeable (fin : path → option dentry) (destination : path)
  (sources : list (path * node)) : Prop :=
  Forall (λ sn, IsDir sn.2 = true ∧ fault_free sn.2 ∧ names_unique sn.2
                ∧ placed fin destination sn.2) sources.

(** What the sources have at a relative path: the entry of the first source
    that has one. *)
Fixpoint lookup_sources (sources : list (path * node)) (q : path)
  : option dentry :=
  match sources with
  | [] => None
  | (_, n) :: rest =>
      match tree_lookup n q with
      | Some e => Some e
      | None => lookup_sources rest q
      end
  end.

(** The destination after the copy of all the sources to [dst], started on
    the store [st0]. *)
Definition merged_at (st0 : store) (dst : path) (sources : list (path * node))
  (p : path) : option dentry :=
  if decide (p `prefix_of` dst) then Some DirE
  else match below dst p with
       | Some q =>
           match lookup_sources sources q with
           | Some e => Some e
           | None => st0 !! p
           end
       | None => st0 !! p
       end.

(** Two sources that have the same relative path have the same entry
    there. *)
Definition consistent (sources : list (path * node)) : Prop :=
  ∀ i j sn sn' q e e',
    sources !! i = Some sn → sources !! j = Some sn' →
    tree_lookup sn.2 q = Some e → tree_lookup sn'.2 q = Some e' → e = e'.

Definition all_returned (gos : list (sstage * task)) : Prop :=
  ∀ i gt, gos !! i = Some gt → is_Some (result gt.2).

Definition merge_inv (fin : path → option dentry)
  (sources : list (path * node)) (destination : path) (st0 : store)
  (s : multi_state) : Prop :=
  panicked (mworld s) = false
  ∧ (∀ p, fs (mworld s) !! p = st0 !! p ∨ fs (mworld s) !! p = fin p)
  ∧ Forall2 (λ sn gt, Good fin (fs (mworld s)) sn.2 sn.1 destination gt.2)
            (take (length (mgos s)) sources) (mgos s)
  ∧ match mpc s with
    | MCount | MEnsure _ => closed (mworld s) = false
    | MSpawn _ | MWait =>
        closed (mworld s) = false
        ∧ ∀ p, p `prefix_of` destination → fs (mworld s) !! p = fin p
    | MClosed =>
        all_returned (mgos s)
        ∧ ∀ p, p `prefix_of` destination → fs (mworld s) !! p = fin p
    | MRet count err =>
        all_returned (mgos s)
        ∧ (∀ p, p `prefix_of` destination → fs (mworld s) !! p = fin p)
        ∧ count = wrap (leaves_sources sources) ∧ err = None
        ∧ length (mgos s) = length sources
    end.

(** ** What holds of every activation that has not failed *)

(** The count that the goroutine of a subdirectory has added to
    [fileCount], and the error that its call returned. *)
Definition added (k : gstage * task) : Z :=
  if decide (k.1 = GCall) then 0
  else match result k.2 with Some (c, _) => c | None => 0 end.

Definition kid_error (k : gstage * task) : option error :=
  match result k.2 with Some (_, e) => e | None => None end.

(** The activation [t] has returned an error, or it is at a point of the
    loop that accounts for what it has done: [done] are the entries handled
    and [rest] those to come, there is one goroutine for each directory of
    [done], [fileCount] is the number of the files of [done] plus the
    counts that the goroutines have added, and as long as [firstErr] is nil
    no goroutine past line 84 had an error to report. *)
#[warnings="-register-all"]
Inductive Acc : task → Prop :=
| Acc_failed f kids c e :
    at_pc f = Ret c (Some e) → Acc (Task f kids)
| Acc_task f kids done rest :
    entries_of (sourceNode f) = done ++ rest →
    match at_pc f with
    | Entry | Listing => done = []
    | Loop r | Send r | Incr r => r = rest ∧ IsDir (sourceNode f) = true
    | Wait => rest = [] ∧ IsDir (sourceNode f) = true
    | Ret c e =>
        rest = [] ∧ IsDir (sourceNode f) = true
        ∧ c = fileCount f ∧ e = None ∧ firstErr f = None ∧ waitGroup f = 0
    end →
    Forall2 (λ e k, sourceNode (frame_of k.2) = e.2 ∧ Acc k.2)
            (dir_entries done) kids →
    fileCount f = wrap (Z.of_nat (length (file_entries done))
                        - pending (at_pc f) + sumZ added kids) →
    (firstErr f = None →
     ∀ i k, kids !! i = Some k → k.1 = GDone ∨ k.1 = GExit →
            kid_error k = None) →
    Acc (Task f kids).

(** The progress signals that the activation itself has sent, read off its
    program point. *)
Definition own_sent (f : frame) : Z :=
  let files := Z.of_nat (length (file_entries (entries_of (sourceNode f)))) in
  match at_pc f with
  | Entry | Listing => 0
  | Loop r | Incr r => files - Z.of_nat (length (file_entries r))
  | Send r => files - Z.of_nat (length (file_entries r)) - 1
  | Wait => files
  | Ret _ None => files
  | Ret _ (Some _) => 0
  end.

Fixpoint sent (t : task) : Z :=
  match t with
  | Task f kids =>
      own_sent f +
      (fix sum (ks : list (gstage * task)) : Z :=
         match ks with
         | [] => 0
         | (_, k) :: ks' => sent k + sum ks'
         end) kids
  end.

(** No activation of the configuration has returned an error. *)
Fixpoint clean (t : task) : Prop :=
  match t with
  | Task f kids =>
      (∀ c e, at_pc f ≠ Ret c (Some e)) ∧
      (fix all (ks : list (gstage * task)) : Prop :=
         match ks with
         | [] => True
         | (_, k) :: ks' => clean k ∧ all ks'
         end) kids
  end.

(** Every activation of the configuration has returned without error and
    every goroutine has finished. *)
Fixpoint finished (t : task) : Prop :=
  match t with
  | Task f kids =>
      (∃ c, at_pc f = Ret c None) ∧
      (fix all (ks : list (gstage * task)) : Prop :=
         match ks with
         | [] => True
         | (g, k) :: ks' => g = GExit ∧ finished k ∧ all ks'
         end) kids
  end.

(** ** Nodes of the source tree *)

(** [node_at n q m]: following the names of [q] from the node [n] leads to
    the node [m]. *)
Fixpoint node_at (n : node) (q : path) (m : node) {struct q} : Prop :=
  match q with
  | [] => m = n
  | x :: q' =>
      match n with
      | File _ _ => False
      | Dir _ entries => ∃ child, (x, child) ∈ entries ∧ node_at child q' m
      end
  end.

(** ** Copy with failures *)

(** What holds in every state of [Copy], failures or not: counting failed
    and nothing else was done, or the copier was called and its activations
    are accounted for. *)
Definition copy_acc (source : path) (n : node) (st0 : store)
  (s : copy_state) : Prop :=
  match cpc s, ctask s with
  | CopyCount, None => cworld s = World st0 false 0 false
  | CopyCall totalFiles, Some t =>
      CountFiles source n = (totalFiles, None)
      ∧ closed (cworld s) = false ∧ panicked (cworld s) = false
      ∧ WF t ∧ Acc t ∧ sourceNode (frame_of t) = n
      ∧ (clean t → Z.of_nat (signals (cworld s)) = sent t)
  | CopyClosed c e, Some t | CopyRet c e, Some t =>
      (∃ totalFiles, CountFiles source n = (totalFiles, None))
      ∧ closed (cworld s) = true
      ∧ WF t ∧ Acc t ∧ sourceNode (frame_of t) = n
      ∧ result t = Some (c, e)
      ∧ (clean t → Z.of_nat (signals (cworld s)) = sent t)
      ∧ (e = None → panicked (cworld s) = false)
  | CopyRet c e, None =>
      (∃ c0 err, CountFiles source n = (c0, Some err) ∧ e = Some err)
      ∧ c = 0 ∧ cworld s = World st0 false 0 false
  | _, _ => False
  end.

(** The steps that a run of [Copy] has left at most, failures or not. *)
Definition copy_cost_all (n : node) (s : copy_state) : nat :=
  ((if panicked (cworld s) then 0 else 1)
   + from_option task_cost 0 (ctask s)
   + match cpc s with
     | CopyCount => 7 + cost_list (entries_of n)
     | CopyCall _ => 2
     | CopyClosed _ _ => 1
     | CopyRet _ _ => 0
     end)%nat.

(** ** CopyMultipleSources with failures *)

(** The call run by a goroutine has returned a nil error and the goroutine
    has finished. *)
Definition returned_nil (gt : sstage * task) : Prop :=
  gt.1 = SExit ∧ ∃ c, result gt.2 = Some (c, None).

(** What holds in every state of [CopyMultipleSources], failures or not:
    the activations of every source are accounted for, and so are the
    progress signals as long as no activation has failed. *)
Definition multi_acc (sources : list (path * node)) (s : multi_state)
  : Prop :=
  Forall (λ gt, Acc gt.2) (mgos s)
  ∧ (Forall (λ gt, clean gt.2) (mgos s) →
     Z.of_nat (signals (mworld s)) = sumZ (λ gt, sent gt.2) (mgos s))
  ∧ match mpc s with
    | MCount | MEnsure _ | MSpawn _ | MWait =>
        closed (mworld s) = false ∧ panicked (mworld s) = false
    | MClosed =>
        closed (mworld s) = true
        ∧ (errChan s = [] → panicked (mworld s) = false)
    | MRet count err =>
        err = None →
        closed (mworld s) = true ∧ panicked (mworld s) = false
        ∧ length (mgos s) = length sources
        ∧ count = wrap (sumZ returned_count (mgos s))
        ∧ ∀ i gt, mgos s !! i = Some gt → returned_nil gt
    end.

(** Past the counting loop, unless [CopyMultipleSources] has returned an
    error: the counts of all the sources succeeded. *)
Definition counted (sources : list (path * node)) (s : multi_state) : Prop :=
  match mpc s with
  | MCount | MRet _ (Some _) => True
  | MEnsure totalFiles => count_sources sources 0 = (totalFiles, None)
  | _ => ∃ totalFiles, count_sources sources 0 = (totalFiles, None)
  end.

(** ** What a copy may change *)

(** Nothing is removed and nothing changes its kind: a directory of [st] is
    a directory of [st'], a file of [st] is a file of [st']. *)
Definition kinds_kept (st st' : store) : Prop :=
  ∀ p, match st !! p with
       | Some DirE => st' !! p = Some DirE
       | Some (FileE _) => ∃ data, st' !! p = Some (FileE data)
       | None => True
       end.

(** [st'] differs from [st] at most by directories that did not exist, on
    the way to [d] or at a directory of the tree [n] below [d], and by
    files at the files of the tree below [d], each holding a prefix of the
    bytes of its source. *)
Definition touched (n : node) (d : path) (st st' : store) : Prop :=
  ∀ p, st' !! p = st !! p
       ∨ (st !! p = None ∧ st' !! p = Some DirE
          ∧ (p `prefix_of` d
             ∨ ∃ q m, p = d ++ q ∧ node_at n q m ∧ IsDir m = true))
       ∨ (∃ q data flt bytes,
            p = d ++ q ∧ node_at n q (File data flt)
            ∧ bytes `prefix_of` data ∧ st' !! p = Some (FileE bytes)).

(** A property of every activation of a configuration. *)
Fixpoint all_frames (P : frame → Prop) (t : task) : Prop :=
  match t with
  | Task f kids =>
      P f ∧
      (fix all (ks : list (gstage * task)) : Prop :=
         match ks with
         | [] => True
         | (_, k) :: ks' => all_frames P k ∧ all ks'
         end) kids
  end.

(** The activation [f] copies a node of the tree [n] to its place below
    [d], and the entries it still has to handle are entries of that
    node. *)
Definition in_tree (n : node) (d : path) (f : frame) : Prop :=
  ∃ q, destinationDirectory f = d ++ q
       ∧ node_at n q (sourceNode f)
       ∧ (q ≠ [] → IsDir (sourceNode f) = true)
       ∧ match at_pc f with
         | Loop r | Send r | Incr r =>
             ∀ e, e ∈ r → e ∈ entries_of (sourceNode f)
         | _ => True
         end.

(** ** The files that a copy has written *)

(** The activation [t] has returned an error, or the store has the files
    it has copied so far: [done] are the entries handled, each file of
    [done] whose destination was closed without error is at the
    destination with the bytes of its source, and each directory of [done]
    has its goroutine, whose activation copies it to its place below the
    destination. *)
#[warnings="-register-all"]
Inductive Wr (st : store) : task → Prop :=
| Wr_failed f kids c e :
    at_pc f = Ret c (Some e) → Wr st (Task f kids)
| Wr_task f kids done rest :
    entries_of (sourceNode f) = done ++ rest →
    match at_pc f with
    | Entry | Listing => done = []
    | Loop r | Send r | Incr r => r = rest
    | Wait | Ret _ _ => rest = []
    end →
    names_unique (sourceNode f) →
    (∀ name data flt,
       (name, File data flt) ∈ done → close_err flt = None →
       st !! (destinationDirectory f ++ [name]) = Some (FileE data)) →
    Forall2 (λ e k,
               sourceNode (frame_of k.2) = e.2
               ∧ destinationDirectory (frame_of k.2)
                 = destinationDirectory f ++ [e.1]
               ∧ all_frames (in_tree e.2 (destinationDirectory f ++ [e.1]))
                            k.2
               ∧ Wr st k.2)
            (dir_entries done) kids →
    Wr st (Task f kids).

(** ** The channels of CopyMultipleSources *)

(** Whether a goroutine of [CopyMultipleSources] has sent on [countChan],
    and whether it is past the point where it sends on [errChan]. *)
Definition past_count (gt : sstage * task) : Z :=
  if decide (gt.1 = SCall) then 0 else 1.

Definition past_error (gt : sstage * task) : Z :=
  if decide (gt.1 = SDone ∨ gt.1 = SExit) then 1 else 0.

(** No channel holds more values than goroutines have sent. *)
Definition chans_bounded (s : multi_state) : Prop :=
  Z.of_nat (length (countChan s)) ≤ sumZ past_count (mgos s)
  ∧ Z.of_nat (length (errChan s)) ≤ sumZ past_error (mgos s).

(** ** Scenarios used as concrete inputs *)

Definition cd_default : CopyDirectory := {| BufferSize := 0 |}.

Definition fresh : world := World ∅ false 0 false.

(** [src/a/x] (two bytes) and [src/b], which cannot be opened. *)
Definition tree_sub_then_bad_file : node :=
  Dir no_dir_fault
    [("a"%string,
      Dir no_dir_fault [("x"%string, File [x01; x02] no_file_fault)]);
     ("b"%string, File [x03] (FileFault (Some EACCES) None None None))].

(** [src/f] and [src/locked/], which the counting pass cannot list. *)
Definition tree_unlistable_sub : node :=
  Dir no_dir_fault
    [("f"%string, File [x01] no_file_fault);
     ("locked"%string, Dir (DirFault (Some EACCES) None None) [])].

(** [src/a/x], [src/a/y], [src/b] and the empty [src/c/]; no faults. *)
Definition tree_plain : node :=
  Dir no_dir_fault
    [("a"%string,
      Dir no_dir_fault [("x"%string, File [x01; x02] no_file_fault);
                        ("y"%string, File [] no_file_fault)]);
     ("b"%string, File [x03] no_file_fault);
     ("c"%string, Dir no_dir_fault [])].

(** Two sources that both fail: [A/f] cannot be opened; [B/g] is copied and
    [B/h] cannot be created at the destination. *)
Definition source_A : path * node :=
  (["A"%string],
   Dir no_dir_fault
     [("f"%string, File [x01] (FileFault (Some EACCES) None None None))]).

Definition source_B : path * node :=
  (["B"%string],
   Dir no_dir_fault
     [("g"%string, File [x02] no_file_fault);
      ("h"%string, File [x03] (FileFault None (Some ENOSPC) None None))]).

Definition error_A : error := PathError "open" ["A"%string; "f"%string] EACCES.
Definition error_B : error := PathError "open" ["D"%string; "h"%string] ENOSPC.

(** Both calls run to their return; then the goroutine of [B] sends its
    results before that of [A], or after it. *)
Definition both_calls : list multi_thread :=
  [MMain; MMain; MMain; MMain; MMain;
   MInside 0 Here; MInside 0 Here; MInside 0 Here;
   MInside 1 Here; MInside 1 Here; MInside 1 Here;
   MInside 1 Here; MInside 1 Here; MInside 1 Here].

Definition schedule_B_first : list multi_thread :=
  both_calls ++ [MAround 1; MAround 1; MAround 1;
                 MAround 0; MAround 0; MAround 0; MMain; MMain].

Definition schedule_A_first : list multi_thread :=
  both_calls ++ [MAround 0; MAround 0; MAround 0;
                 MAround 1; MAround 1; MAround 1; MMain; MMain].

(** [CopyMultipleSources] on the one source [tree_sub_then_bad_file]: the
    main thread up to its wait, the call for the source up to its return,
    the goroutine of the source to its end, and the main thread past the
    wait. *)
Definition schedule_straggler : list multi_thread :=
  replicate 4 MMain ++ replicate 4 (MInside 0 Here)
  ++ replicate 3 (MAround 0) ++ [MMain].

(** Two complete schedules for the copy of [tree_plain]: with the
    goroutines of [a/] and [c/] interleaved with their parent, and with each
    goroutine run when the parent waits. *)
Definition schedule_interleaved : list thread :=
  [Here; Here; Here; Inside 0 Here; Inside 0 Here; Here; Here;
   Inside 0 Here; Inside 0 Here; Inside 0 Here; Here; Here;
   Inside 1 Here; Inside 1 Here; Inside 1 Here; Inside 1 Here; Here;
   Around 1; Around 1;
   Inside 0 Here; Inside 0 Here; Inside 0 Here; Inside 0 Here; Inside 0 Here;
   Around 0; Around 1; Around 0; Around 0; Here].

Definition schedule_in_turn : list thread :=
  [Here; Here; Here; Here; Here; Here; Here; Here]
  ++ replicate 10 (Inside 0 Here) ++ [Around 0; Around 0; Around 0]
  ++ replicate 4 (Inside 1 Here) ++ [Around 1; Around 1; Around 1]
  ++ [Here].

Definition schedule_Copy : list copy_thread :=
  Main :: map Worker schedule_interleaved ++ [Main; Main].

(** A destination where [dst] is a regular file. *)
Definition store_with_file : gmap (list string) dentry :=
  <[["dst"%string] := FileE [x07]]> (<[[] := DirE]> ∅).

(** Two sources with the directory [a/] in common: [S/a/x], [S/b] and
    [T/a/y], [T/c/]. *)
Definition source_S : path * node :=
  (["S"%string],
   Dir no_dir_fault
     [("a"%string,
       Dir no_dir_fault [("x"%string, File [x01; x02] no_file_fault)]);
      ("b"%string, File [x03] no_file_fault)]).

Definition source_T : path * node :=
  (["T"%string],
   Dir no_dir_fault
     [("a"%string,
       Dir no_dir_fault [("y"%string, File [x04] no_file_fault)]);
      ("c"%string, Dir no_dir_fault [])]).

(** Both copiers run interleaved; both create [D/a]. *)
Definition schedule_merge : list multi_thread :=
  [MMain; MMain; MMain; MMain; MMain;
   MInside 0 Here; MInside 1 Here; MInside 0 Here; MInside 1 Here;
   MInside 0 Here; MInside 1 Here;
   MInside 1 (Inside 0 Here); MInside 0 (Inside 0 Here);
   MInside 0 (Inside 0 Here); MInside 1 (Inside 0 Here);
   MInside 0 (Inside 0 Here); MInside 1 (Inside 0 Here);
   MInside 0 (Inside 0 Here); MInside 1 (Inside 0 Here)]
  ++ replicate 3 (MInside 1 (Inside 0 Here))
  ++ replicate 3 (MInside 0 (Inside 0 Here))
  ++ replicate 3 (MInside 0 (Around 0)) ++ replicate 3 (MInside 1 (Around 0))
  ++ [MInside 1 Here] ++ replicate 4 (MInside 1 (Inside 1 Here))
  ++ replicate 3 (MInside 1 (Around 1)) ++ replicate 2 (MInside 1 Here)
  ++ replicate 5 (MInside 0 Here)
  ++ [MAround 1; MAround 1; MAround 1; MAround 0; MAround 0; MAround 0;
      MMain; MMain].

(** A complete schedule for the copy of [tree_unlistable_sub]. *)
Definition schedule_unlistable : list thread :=
  replicate 7 Here ++ replicate 4 (Inside 0 Here)
  ++ [Around 0; Around 0; Around 0; Here].

(** A copier with a buffer of two bytes. *)
Definition cd_two : CopyDirectory := {| BufferSize := 2 |}.

(** [src/big] (three bytes), whose transfer fails after the first byte. *)
Definition tree_partial : node :=
  Dir no_dir_fault
    [("big"%string,
      File [x01; x02; x03]
           (FileFault None None (Some (1%nat, Writing, EIO)) None))].

(** [src/f] (three bytes): the [Close] of its destination fails, and only
    the first byte has reached the file. *)
Definition tree_close_fails : node :=
  Dir no_dir_fault
    [("f"%string,
      File [x01; x02; x03] (FileFault None None None (Some (1%nat, EIO))))].

(** A store with the file [keep] and nothing at [dst]. *)
Definition store_keep : gmap (list string) dentry :=
  <[["keep"%string] := FileE [x09]]> (<[[] := DirE]> ∅).

(** A destination where [dst/a] is a directory with the file [x] (other
    bytes than in the source) and [dst/b] is missing. *)
Definition store_stale : gmap (list string) dentry :=
  <[["dst"%string; "a"%string; "x"%string] := FileE [x0a; x0b; x0c]]>
    (<[["dst"%string; "a"%string] := DirE]>
       (<[["dst"%string] := DirE]> (<[[] := DirE]> ∅))).

(** A file system that holds [tree_plain] at [src] and nothing at [dst]. *)
Definition store_with_source : gmap (list string) dentry :=
  <[["src"%string; "c"%string] := DirE]>
    (<[["src"%string; "b"%string] := FileE [x03]]>
       (<[["src"%string; "a"%string; "y"%string] := FileE []]>
          (<[["src"%string; "a"%string; "x"%string] := FileE [x01; x02]]>
             (<[["src"%string; "a"%string] := DirE]>
                (<[["src"%string] := DirE]> (<[[] := DirE]> ∅)))))).

(** A file system with nothing but its top directory. *)
Definition store_root : gmap (list string) dentry := <[[] := DirE]> ∅.

(** * Properties *)

(** ** Machine integers *)

Lemma wrap_small z : int_min ≤ z ≤ int_max → wrap z = z.
Proof.
  unfold wrap, int_min, int_max. intros H.
  rewrite Z.mod_small; lia.
Qed.

Lemma wrap_add_l a b : wrap (wrap a + b) = wrap (a + b).
Proof.
  unfold wrap.
  replace ((a + 2 ^ 63) mod 2 ^ 64 - 2 ^ 63 + b + 2 ^ 63)
    with ((a + 2 ^ 63) mod 2 ^ 64 + b) by lia.
  rewrite Zplus_mod_idemp_l. do 2 f_equal. lia.
Qed.

Lemma wrap_add_r a b : wrap (a + wrap b) = wrap (a + b).
Proof. rewrite (Z.add_comm a), wrap_add_l. f_equal. lia. Qed.

Lemma wrap_wrap a : wrap (wrap a) = wrap a.
Proof.
  replace (wrap a) with (wrap a + 0) at 1 by lia.
  rewrite wrap_add_l. f_equal. lia.
Qed.

(** ** Induction on source trees *)

Lemma node_induction (P : node → Prop) :
  (∀ data flt, P (File data flt)) →
  (∀ flt entries, Forall (λ e, P e.2) entries → P (Dir flt entries)) →
  ∀ n, P n.
Proof.
  intros HF HD. fix IH 1. intros [data flt | flt entries].
  - apply HF.
  - apply HD. induction entries as [| [name child] es IHes].
    + constructor.
    + constructor; [apply IH | apply IHes].
Qed.

(** ** CountFiles *)

Lemma CountFiles_Dir directory flt entries :
  CountFiles directory (Dir flt entries) =
  match count_err flt with
  | Some e => (0, Some (PathError "open" directory e))
  | None => CountFiles_loop directory entries 0
  end.
Proof.
  simpl. destruct (count_err flt); [done |].
  assert (∀ c,
    (fix loop (es : list (string * node)) (count : Z) {struct es}
       : Z * option error :=
       match es with
       | [] => (count, None)
       | (name, child) :: es' =>
           if IsDir child then
             match CountFiles (directory ++ [name]) child with
             | (_, Some err) => (0, Some err)
             | (subCount, None) => loop es' (wrap (count + subCount))
             end
           else loop es' (wrap (count + 1))
       end) entries c = CountFiles_loop directory entries c) as H; [| apply H].
  induction entries as [| [name child] es IH]; intros c.
  - done.
  - simpl. destruct (IsDir child).
    + destruct (CountFiles (directory ++ [name]) child) as [sub [err |]];
        [done | apply IH].
    + apply IH.
Qed.

Lemma leaves_Dir flt entries : leaves (Dir flt entries) = leaves_list entries.
Proof.
  simpl. induction entries as [| [name child] es IH]; [done |].
  simpl. by rewrite IH.
Qed.

Lemma listable_Dir flt entries :
  listable (Dir flt entries) ↔ count_err flt = None ∧ listable_list entries.
Proof.
  simpl. apply and_iff_compat_l.
  induction entries as [| [name child] es IH]; [done |].
  simpl. by rewrite IH.
Qed.

Lemma leaves_File_entry (n : node) : IsDir n = false → leaves n = 1%nat.
Proof. by destruct n. Qed.

(** The loop on a listable list of entries: no error, and the running count
    grows by the number of leaves, modulo the width of [int]. *)
Lemma CountFiles_loop_listable directory es :
  Forall (λ e, ∀ d, IsDir e.2 = true → listable e.2 →
               CountFiles d e.2 = (wrap (Z.of_nat (leaves e.2)), None)) es →
  listable_list es →
  ∀ c, CountFiles_loop directory es (wrap c)
       = (wrap (c + Z.of_nat (leaves_list es)), None).
Proof.
  induction 1 as [| [name child] es Hc _ IH]; simpl; intros Hl c.
  - by rewrite Z.add_0_r.
  - destruct Hl as [Hl1 Hl2]. destruct (IsDir child) eqn:Hd.
    + simpl in Hc. rewrite (Hc _ Hd Hl1). rewrite wrap_add_l, wrap_add_r.
      rewrite IH by done. f_equal. f_equal. lia.
    + rewrite wrap_add_l, IH by done. simpl in *.
      rewrite (leaves_File_entry child Hd). f_equal. f_equal. lia.
Qed.

Lemma CountFiles_listable n :
  ∀ d, IsDir n = true → listable n →
       CountFiles d n = (wrap (Z.of_nat (leaves n)), None).
Proof.
  induction n as [data flt | flt entries IH] using node_induction;
    intros d Hd Hl; [done |].
  apply listable_Dir in Hl as [Hc Hl].
  rewrite CountFiles_Dir, Hc, leaves_Dir.
  change 0 with (wrap 0) at 1.
  by rewrite (CountFiles_loop_listable d entries IH Hl 0).
Qed.

(** C5. For every directory tree that the counting pass can list (with
    fewer leaves than the largest [int]), [CountFiles] returns, without
    error, the number of non-directory entries reachable from its root,
    whatever the nesting depth. *)
Theorem C5_CountFiles_counts_leaves (directory : path) (n : node) :
  IsDir n = true → listable n → Z.of_nat (leaves n) ≤ int_max →
  CountFiles directory n = (Z.of_nat (leaves n), None).
Proof.
  intros Hd Hl Hb. rewrite CountFiles_listable by done.
  rewrite wrap_small; [done |]. unfold int_min. lia.
Qed.

Lemma CountFiles_loop_error directory es :
  ∀ count c e, CountFiles_loop directory es count = (c, Some e) → c = 0.
Proof.
  induction es as [| [name child] es IH]; simpl; intros count c e H.
  - congruence.
  - destruct (IsDir child).
    + destruct (CountFiles (directory ++ [name]) child) as [sub [err |]].
      * congruence.
      * eauto.
    + eauto.
Qed.

(** C10. Whenever [CountFiles] returns an error, from the listing of the
    directory itself or from the count of a subdirectory, the count it
    returns is 0. *)
Theorem C10_CountFiles_error_count_zero (directory : path) (n : node)
  (c : Z) (e : error) :
  CountFiles directory n = (c, Some e) → c = 0.
Proof.
  destruct n as [data flt | flt entries].
  - simpl. congruence.
  - rewrite CountFiles_Dir. destruct (count_err flt).
    + congruence.
    + apply CountFiles_loop_error.
Qed.

(** ** The buffer *)

Lemma bufSize_pos cd : 0 < bufSize cd.
Proof. unfold bufSize. destruct (0 <? BufferSize cd) eqn:H; lia. Qed.

Lemma bufSize_cases cd :
  bufSize cd = (if decide (0 < BufferSize cd) then BufferSize cd else 1048576).
Proof.
  unfold bufSize. case_decide as H.
  - by apply Z.ltb_lt in H as ->.
  - by apply Z.ltb_nlt in H as ->.
Qed.


Lemma C5_witness :
  CountFiles ["src"%string] tree_plain = (3, None).
Proof.
  apply (C5_CountFiles_counts_leaves ["src"%string] tree_plain).
  - reflexivity.
  - simpl. tauto.
  - vm_compute. discriminate.
Defined.

Lemma C10_witness :
  (CountFiles ["src"%string] tree_unlistable_sub).1 = 0.
Proof.
  apply (C10_CountFiles_error_count_zero ["src"%string] tree_unlistable_sub _
           (PathError "open" ["src"%string; "locked"%string] EACCES)).
  reflexivity.
Defined.

(** ** CopyMultipleSources: a failing count *)

Lemma count_sources_first_failure pre source n post c err :
  Forall (λ s : path * node, (CountFiles s.1 s.2).2 = None) pre →
  CountFiles source n = (c, Some err) →
  ∀ total, count_sources (pre ++ (source, n) :: post) total = (0, Some err).
Proof.
  intros Hpre Hfail. induction Hpre as [| [s m] pre Hs _ IH]; intros total.
  - simpl. by rewrite Hfail.
  - simpl in *. destruct (CountFiles s m) as [k [e |]]; [done | apply IH].
Qed.

(** C7. If the count of a source fails (and the counts of the sources before
    it succeed), [CopyMultipleSources] returns that error with count 0 in
    its first step; in no run is the destination changed, a goroutine
    started, or the progress channel used. *)
Theorem C7_count_failure_preempts_copy (cd : CopyDirectory)
  (pre post : list (path * node)) (source : path) (n : node)
  (destination : path) (dflt : option (nat * errno)) (st : store)
  (c : Z) (err : error) :
  Forall (λ s : path * node, (CountFiles s.1 s.2).2 = None) pre →
  CountFiles source n = (c, Some err) →
  let sources := pre ++ (source, n) :: post in
  let returned := MultiState (MRet 0 (Some err)) (World st false 0 false)
                             0 [] [] [] in
  CopyMultipleSources_run cd sources destination dflt [MMain]
    (CopyMultipleSources_init st) = Some returned
  ∧ ∀ who s, CopyMultipleSources_run cd sources destination dflt who
               (CopyMultipleSources_init st) = Some s →
             s = CopyMultipleSources_init st ∨ s = returned.
Proof.
  intros Hpre Hfail sources returned.
  assert (Hstep : CopyMultipleSources_step cd sources destination dflt MMain
                    (CopyMultipleSources_init st)
                  = Some returned).
  { unfold CopyMultipleSources_step, sources. simpl.
    by rewrite (count_sources_first_failure pre source n post c err). }
  split.
  - simpl CopyMultipleSources_run. by rewrite Hstep.
  - intros [| x who] s Hrun.
    + left. simpl in Hrun. congruence.
    + right. simpl in Hrun. destruct x as [| i | i th].
      * rewrite Hstep in Hrun. destruct who as [| y who].
        -- simpl in Hrun. congruence.
        -- simpl in Hrun. by destruct y as [| j | j th].
      * done.
      * done.
Qed.

Lemma C7_witness :
  CopyMultipleSources_run cd_default
    [(["one"%string], tree_plain); (["two"%string], tree_unlistable_sub)]
    ["dst"%string] None [MMain] (CopyMultipleSources_init ∅)
  = Some (MultiState
            (MRet 0 (Some (PathError "open" ["two"%string; "locked"%string]
                                     EACCES)))
            (World ∅ false 0 false) 0 [] [] []).
Proof.
  apply (C7_count_failure_preempts_copy cd_default
           [(["one"%string], tree_plain)] [] ["two"%string]
           tree_unlistable_sub ["dst"%string] None ∅ 0
           (PathError "open" ["two"%string; "locked"%string] EACCES)).
  - repeat constructor.
  - reflexivity.
Defined.

(** ** The early returns of the file branch

    Lines 96, 103 and 118 return from inside the loop; [waitGroup.Wait()] of
    line 130 is not reached on these paths.  The scenario: [src/a/] is
    dispatched to a goroutine, then [src/b] cannot be opened. *)

Definition bad_file_error : error :=
  PathError "open" ["src"%string; "b"%string] EACCES.

(** What does hold of the file branch: a failing file copy makes the call
    return at once, with the count so far, and a call that has returned
    handles no further entry. *)
Lemma file_failure_returns cd w f kids name data flt rest st err :
  at_pc f = Loop ((name, File data flt) :: rest) →
  copy_file cd data flt (fs w) (sourceDirectory f) (destinationDirectory f)
            name = (st, Some err) →
  step_here cd w f kids
  = Some (set_fs w st, Task (goto f (Ret (fileCount f) (Some err))) kids).
Proof. intros Hpc Hcopy. unfold step_here. by rewrite Hpc, Hcopy. Qed.

Lemma returned_thread_stops cd w t r :
  result t = Some r → step cd Here w t = None.
Proof.
  unfold result. simpl. unfold step_here.
  by destruct (at_pc (frame_of t)).
Qed.

(** C2. In the scenario, after four steps of its own thread the call has
    returned [0] and the error of [src/b], while the goroutine of [src/a/]
    has not started its work: its call is at its first line, the
    wait-group counter is still 1, and nothing below [dst/a] was written. *)
Theorem C2_early_return_skips_wait :
  ∃ w t callee,
    run cd_default [Here; Here; Here; Here]
        (fresh, CopyFilesAndDirectory ["src"%string] tree_sub_then_bad_file
                  ["dst"%string])
    = Some (w, t)
    ∧ result t = Some (0, Some bad_file_error)
    ∧ kids_of t = [(GCall, callee)]
    ∧ at_pc (frame_of callee) = Entry
    ∧ waitGroup (frame_of t) = 1
    ∧ fs w !! ["dst"%string; "a"%string] = None.
Proof.
  eexists _, _, _. split; [vm_compute; reflexivity |].
  repeat split; reflexivity.
Qed.

(** C4. In the scenario there is a complete run (no thread can move at its
    end) in which one file was copied, [dst/a/x], and its progress signal
    delivered, and the call has returned the count 0. *)
Theorem C4_successful_copy_not_counted :
  ∃ w t,
    run cd_default
        [Here; Here; Here; Here;
         Inside 0 Here; Inside 0 Here; Inside 0 Here; Inside 0 Here;
         Inside 0 Here; Inside 0 Here; Inside 0 Here;
         Around 0; Around 0; Around 0]
        (fresh, CopyFilesAndDirectory ["src"%string] tree_sub_then_bad_file
                  ["dst"%string])
    = Some (w, t)
    ∧ quiescent cd_default (w, t)
    ∧ result t = Some (0, Some bad_file_error)
    ∧ fs w !! ["dst"%string; "a"%string; "x"%string] = Some (FileE [x01; x02])
    ∧ signals w = 1%nat
    ∧ panicked w = false.
Proof.
  eexists _, _. split; [vm_compute; reflexivity |].
  split; [| repeat split; reflexivity].
  intros th. unfold sched. simpl panicked. cbv iota.
  destruct th as [| [| i] | [| i] th]; try reflexivity.
  destruct th as [| j | j th]; reflexivity.
Qed.

(** C3. In the scenario there is a run of [Copy] in which the main thread
    closes the progress channel (line 160) when the call has returned, and
    the goroutine of [src/a/] afterwards copies [src/a/x] and sends on the
    closed channel (line 122): the process panics. *)
Theorem C3_send_after_close :
  ∃ s1 s2 s3,
    Copy_run cd_default ["src"%string] tree_sub_then_bad_file ["dst"%string]
      [Main; Worker Here; Worker Here; Worker Here; Worker Here; Main]
      (Copy_init ∅) = Some s1
    ∧ cpc s1 = CopyClosed 0 (Some bad_file_error)
    ∧ closed (cworld s1) = true ∧ signals (cworld s1) = 0%nat
    ∧ panicked (cworld s1) = false
    ∧ Copy_run cd_default ["src"%string] tree_sub_then_bad_file ["dst"%string]
        [Worker (Inside 0 Here); Worker (Inside 0 Here);
         Worker (Inside 0 Here)] s1 = Some s2
    ∧ (∃ t callee,
         ctask s2 = Some t ∧ kids_of t = [(GCall, callee)]
         ∧ at_pc (frame_of callee) = Send [])
    ∧ fs (cworld s2) !! ["dst"%string; "a"%string; "x"%string]
      = Some (FileE [x01; x02])
    ∧ Copy_step cd_default ["src"%string] tree_sub_then_bad_file
        ["dst"%string] (Worker (Inside 0 Here)) s2 = Some s3
    ∧ panicked (cworld s3) = true.
Proof.
  eexists _, _, _. split; [vm_compute; reflexivity |].
  do 4 (split; [reflexivity |]).
  split; [vm_compute; reflexivity |].
  split; [eexists _, _; repeat split; reflexivity |].
  split; [reflexivity |].
  split; [vm_compute; reflexivity | reflexivity].
Qed.

(** ** Steps keep what a call has returned *)

Lemma goto_args f p :
  sourceDirectory (goto f p) = sourceDirectory f
  ∧ sourceNode (goto f p) = sourceNode f
  ∧ destinationDirectory (goto f p) = destinationDirectory f.
Proof. done. Qed.

Lemma step_here_args cd w f kids w' t' :
  step_here cd w f kids = Some (w', t') →
  sourceDirectory (frame_of t') = sourceDirectory f
  ∧ sourceNode (frame_of t') = sourceNode f
  ∧ destinationDirectory (frame_of t') = destinationDirectory f.
Proof.
  unfold step_here. intros H.
  repeat (case_match; simplify_eq/=); done.
Qed.

Lemma step_around_frame f g callee f' g' :
  step_around f g callee = Some (f', g') →
  sourceDirectory f' = sourceDirectory f
  ∧ sourceNode f' = sourceNode f
  ∧ destinationDirectory f' = destinationDirectory f
  ∧ at_pc f' = at_pc f.
Proof.
  unfold step_around. intros H.
  repeat (case_match; simplify_eq/=); done.
Qed.

Lemma step_args cd th w t w' t' :
  step cd th w t = Some (w', t') →
  sourceDirectory (frame_of t') = sourceDirectory (frame_of t)
  ∧ sourceNode (frame_of t') = sourceNode (frame_of t)
  ∧ destinationDirectory (frame_of t') = destinationDirectory (frame_of t).
Proof.
  destruct th as [| i | i th]; simpl; intros H.
  - by eapply step_here_args.
  - repeat (case_match; simplify_eq/=).
    match goal with H : step_around _ _ _ = _ |- _ =>
      apply step_around_frame in H as (? & ? & ? & _) end. done.
  - repeat (case_match; simplify_eq/=). done.
Qed.

Lemma step_result cd th w t w' t' r :
  step cd th w t = Some (w', t') → result t = Some r → result t' = Some r.
Proof.
  unfold result. destruct th as [| i | i th]; simpl; intros H Hr.
  - unfold step_here in H. destruct (at_pc (frame_of t)); simplify_eq/=.
  - repeat (case_match; simplify_eq/=).
    all: match goal with H : step_around _ _ _ = _ |- _ =>
      apply step_around_frame in H as (_ & _ & _ & H) end.
    all: simpl in *; congruence.
  - repeat (case_match; simplify_eq/=); done.
Qed.

(** ** Sums over lists *)

Lemma sumZ_app {A} (f : A → Z) l1 l2 :
  sumZ f (l1 ++ l2) = sumZ f l1 + sumZ f l2.
Proof. induction l1 as [| x l1 IH]; simpl; lia. Qed.

Lemma sumZ_insert {A} (f : A → Z) l i x y :
  l !! i = Some x → sumZ f (<[i:=y]> l) = sumZ f l - f x + f y.
Proof.
  revert i. induction l as [| z l IH]; intros [| i] H; simplify_eq/=.
  - lia.
  - rewrite (IH i H). lia.
Qed.

Lemma sumZ_ext_lookup {A} (f g : A → Z) l :
  (∀ i x, l !! i = Some x → f x = g x) → sumZ f l = sumZ g l.
Proof.
  induction l as [| z l IH]; intros H; simpl; [done |].
  rewrite (H 0%nat z eq_refl), IH; [done |].
  intros i x Hi. apply (H (S i) x Hi).
Qed.

Lemma alive_nonneg gt : 0 ≤ alive gt ≤ 1.
Proof. unfold alive. case_decide; lia. Qed.

Lemma sumZ_alive_nonneg l : 0 ≤ sumZ alive l.
Proof.
  induction l as [| x l IH]; simpl; [lia |].
  pose proof (alive_nonneg x). lia.
Qed.

Lemma sumZ_alive_zero l :
  sumZ alive l = 0 → ∀ i gt, l !! i = Some gt → gt.1 = SExit.
Proof.
  induction l as [| x l IH]; intros H [| i] gt Hi; simplify_eq/=.
  - pose proof (sumZ_alive_nonneg l). pose proof (alive_nonneg gt).
    unfold alive in *. case_decide; [done | lia].
  - pose proof (sumZ_alive_nonneg l). pose proof (alive_nonneg x).
    apply (IH ltac:(lia) i gt Hi).
Qed.

Lemma fold_sum_counts l a :
  fold_left (λ total count, wrap (total + count)) l (wrap a)
  = wrap (a + sumZ id l).
Proof.
  revert a. induction l as [| x l IH]; intros a; simpl.
  - by rewrite Z.add_0_r.
  - rewrite wrap_add_l, IH. f_equal. unfold id. lia.
Qed.

Lemma sum_counts_sumZ l : sum_counts l = wrap (sumZ id l).
Proof.
  unfold sum_counts. change 0 with (wrap 0) at 1.
  by rewrite fold_sum_counts.
Qed.

(** ** The invariant of CopyMultipleSources *)

Section multi.
Variable cd : CopyDirectory.
Variable sources : list (path * node).
Variable destination : path.
Variable dflt : option (nat * errno).

Lemma multi_inv_init st :
  multi_inv sources destination (CopyMultipleSources_init st).
Proof. unfold multi_inv. simpl. by repeat split. Qed.

Lemma chans_inv_nil pc w wg :
  chans_inv (MultiState pc w wg [] [] []).
Proof.
  unfold chans_inv. simpl. split; [done |]. split.
  - intros e He. by apply elem_of_nil in He.
  - done.
Qed.

Lemma multi_inv_main s s' :
  multi_inv sources destination s →
  CopyMultipleSources_step cd sources destination dflt MMain s = Some s' →
  multi_inv sources destination s'.
Proof.
  unfold CopyMultipleSources_step. destruct (panicked (mworld s)); [done |].
  intros (Hsrc & Hres & Hwg & Hpc) Hstep.
  destruct (mpc s) as [| total | [| [src n] rest] | | | count err] eqn:Epc.
  - (* counting *)
    destruct Hpc as (Hg & He & Hc).
    destruct (count_sources sources 0) as [total [err |]]; simplify_eq/=.
    + unfold multi_inv; simpl. rewrite Hg in *. repeat split; try done.
      by left.
    + unfold multi_inv; simpl. rewrite Hg in *. by repeat split.
  - (* ensuring the destination *)
    destruct Hpc as (Hg & He & Hc).
    destruct (ensure_destination dflt (fs (mworld s)) destination)
      as [st1 [err1 |]]; simplify_eq/=.
    + unfold multi_inv; simpl. rewrite Hg in *. repeat split; try done.
      by left.
    + unfold multi_inv; simpl. rewrite Hg, He, Hc in *.
      split; [done |]. split; [done |]. split; [done |].
      split; [done |]. apply chans_inv_nil.
  - (* all goroutines started *)
    destruct Hpc as (Hs & Hch). simplify_eq/=.
    unfold multi_inv; simpl. do 3 (split; [done |]). split; [| done].
    rewrite app_nil_r in Hs.
    apply (f_equal length) in Hs. rewrite length_take in Hs.
    destruct (decide (length (mgos s) ≤ length sources)%nat); [lia |].
    destruct (mgos s !! length sources) as [gt |] eqn:E.
    + destruct (Hsrc _ _ E) as (x & Hx & _).
      apply lookup_lt_Some in Hx. lia.
    + apply lookup_ge_None in E. lia.
  - (* starting a goroutine *)
    destruct Hpc as (Hs & Hc1 & Hc2 & Hc3). simplify_eq/=.
    assert (Hlen : (length (mgos s) < length sources)%nat).
    { apply (f_equal length) in Hs.
      rewrite length_app, length_take in Hs. simpl in Hs. lia. }
    assert (Hnew : sources !! length (mgos s) = Some (src, n)).
    { rewrite Hs at 1. rewrite lookup_app_r; rewrite length_take.
      - replace (length (mgos s) - length (mgos s) `min` length sources)%nat
          with 0%nat by lia. done.
      - lia. }
    unfold multi_inv; simpl. split; [| split; [| split; [| split]]].
    + intros i gt Hi. apply lookup_app_Some in Hi as [Hi | [Hge Hi]].
      * eauto.
      * apply list_lookup_singleton_Some in Hi as [Hi <-].
        replace i with (length (mgos s)) by lia.
        eexists. split; [done |]. done.
    + intros i gt Hi Hne. apply lookup_app_Some in Hi as [Hi | [Hge Hi]].
      * eauto.
      * apply list_lookup_singleton_Some in Hi as [Hi <-]. done.
    + rewrite sumZ_app. simpl. unfold alive at 2. simpl. lia.
    + rewrite length_app. simpl.
      replace (length (mgos s) + 1)%nat with (S (length (mgos s))) by lia.
      rewrite (take_S_r _ _ _ Hnew), <- app_assoc. done.
    + unfold chans_inv; simpl. split; [| split].
      * rewrite sumZ_app. simpl. unfold sent_count at 2. simpl. lia.
      * intros e He. destruct (Hc2 e He) as (i & gt & Hi & Hgt).
        exists i, gt. split; [| done]. by apply lookup_app_l_Some.
      * intros He i gt Hi Hst.
        apply lookup_app_Some in Hi as [Hi | [Hge Hi]].
        -- eauto.
        -- apply list_lookup_singleton_Some in Hi as [Hi <-].
           simpl in Hst. by destruct Hst.
  - (* waiting *)
    destruct Hpc as (Hlen & Hch). case_decide; simplify_eq/=.
    unfold multi_inv; simpl. repeat split; try done; apply Hch.
  - (* after the wait *)
    destruct Hpc as (Hlen & (Hc1 & Hc2 & Hc3) & Hz). simplify_eq/=.
    assert (Hexit : ∀ i gt, mgos s !! i = Some gt → gt.1 = SExit).
    { apply sumZ_alive_zero. lia. }
    unfold multi_inv; simpl. repeat split; try done.
    right. repeat split; try done.
    + rewrite sum_counts_sumZ, Hc1. f_equal.
      apply sumZ_ext_lookup. intros i gt Hi. unfold sent_count.
      rewrite (Hexit i gt Hi). done.
    + destruct (errChan s) as [| e es] eqn:Ee; simpl.
      * intros i gt Hi. apply (Hc3 eq_refl i gt Hi).
        right. by apply (Hexit i).
      * apply Hc2. by left.
  - done.
Qed.

Lemma returned_error_stable g callee g' callee' e :
  (∀ r, result callee = Some r → result callee' = Some r) →
  returned_error (g, callee) = Some e →
  returned_error (g', callee') = Some e.
Proof.
  unfold returned_error. simpl. intros Hr He.
  destruct (result callee) as [[c o] |] eqn:E; [| done].
  by rewrite (Hr _ eq_refl).
Qed.

Lemma returned_stable g callee g' callee' :
  (∀ r, result callee = Some r → result callee' = Some r) →
  is_Some (result callee) →
  returned_count (g', callee') = returned_count (g, callee)
  ∧ returned_error (g', callee') = returned_error (g, callee).
Proof.
  unfold returned_count, returned_error. simpl. intros Hr [r E].
  by rewrite E, (Hr _ E).
Qed.

(** The goroutine at index [i] moves, in its body or inside its call. *)
Lemma multi_inv_update s i g callee g' callee' w' wg' ec' cc' :
  multi_inv sources destination s →
  mgos s !! i = Some (g, callee) →
  (∀ src, runs_source destination src (g, callee) →
          runs_source destination src (g', callee')) →
  (∀ r, result callee = Some r → result callee' = Some r) →
  (g' ≠ SCall → is_Some (result callee')) →
  wg' = mwaitGroup s - alive (g, callee) + alive (g', callee') →
  sumZ id cc' = sumZ id (countChan s) - sent_count (g, callee)
                + sent_count (g', callee') →
  (∀ e, e ∈ ec' → e ∈ errChan s ∨ returned_error (g', callee') = Some e) →
  (ec' = [] → errChan s = [] ∧
              (g' = SDone ∨ g' = SExit →
               g = SDone ∨ g = SExit
               ∨ returned_error (g', callee') = None)) →
  (g = SExit → g' = SExit) →
  multi_inv sources destination
    (MultiState (mpc s) w' wg' (<[i:=(g', callee')]> (mgos s)) ec' cc').
Proof.
  intros (Hsrc & Hres & Hwg & Hpc) Hi Hrun Hr Hsome Hwg' Hcc Hec1 Hec2 Hex.
  pose proof (lookup_lt_Some _ _ _ Hi) as Hlt.
  assert (Hold : ∀ j gt e, mgos s !! j = Some gt →
            returned_error gt = Some e →
            ∃ gt', <[i:=(g', callee')]> (mgos s) !! j = Some gt'
                   ∧ returned_error gt' = Some e).
  { intros j gt e Hj He. destruct (decide (i = j)) as [<- | Hne].
    - exists (g', callee'). rewrite list_lookup_insert_eq by done.
      split; [done |]. simplify_eq. by eapply returned_error_stable.
    - exists gt. by rewrite list_lookup_insert_ne. }
  assert (Hchans : chans_inv s → chans_inv
            (MultiState (mpc s) w' wg' (<[i:=(g', callee')]> (mgos s))
                        ec' cc')).
  { intros (Hc1 & Hc2 & Hc3). unfold chans_inv; simpl. split; [| split].
    - rewrite (sumZ_insert sent_count _ _ _ _ Hi). lia.
    - intros e He. destruct (Hec1 e He) as [Hin | Hnew].
      + destruct (Hc2 e Hin) as (j & gt & Hj & Hgt).
        destruct (Hold j gt e Hj Hgt) as (gt' & Hj' & Hgt'). eauto.
      + exists i, (g', callee'). by rewrite list_lookup_insert_eq.
    - intros He j gt' Hj Hst. destruct (Hec2 He) as [He0 Hnone].
      apply list_lookup_insert_Some in Hj as [(<- & <- & _) | (_ & Hj)].
      + destruct (Hnone Hst) as [Hg | [Hg | Hn]]; [| | done].
        * destruct (returned_stable g callee g' callee' Hr) as [_ ->].
          { apply (Hres i _ Hi). simpl. by rewrite Hg. }
          apply (Hc3 He0 i _ Hi). by left.
        * destruct (returned_stable g callee g' callee' Hr) as [_ ->].
          { apply (Hres i _ Hi). simpl. by rewrite Hg. }
          apply (Hc3 He0 i _ Hi). by right.
      + by apply (Hc3 He0 j). }
  assert (Hzero : mwaitGroup s = 0 →
            g = SExit ∧ g' = SExit ∧ wg' = 0 ∧ is_Some (result callee)).
  { intros Hz. rewrite Hz in Hwg.
    pose proof (sumZ_alive_zero _ (eq_sym Hwg) i _ Hi) as Hg. simpl in Hg.
    pose proof (Hex Hg) as Hg'. subst g g'. repeat split; try done.
    - rewrite Hwg'. unfold alive. simpl. lia.
    - by apply (Hres i _ Hi). }
  unfold multi_inv; simpl. split; [| split; [| split]].
  - intros j gt' Hj.
    apply list_lookup_insert_Some in Hj as [(<- & <- & _) | (_ & Hj)].
    + destruct (Hsrc i _ Hi) as (src & Hs1 & Hs2). eauto.
    + eauto.
  - intros j gt' Hj Hne.
    apply list_lookup_insert_Some in Hj as [(<- & <- & _) | (_ & Hj)].
    + by apply Hsome.
    + eauto.
  - rewrite (sumZ_insert alive _ _ _ _ Hi). lia.
  - destruct (mpc s) as [| total | rest | | | count err].
    + destruct Hpc as [Hnil _]. by rewrite Hnil in Hi.
    + destruct Hpc as [Hnil _]. by rewrite Hnil in Hi.
    + rewrite length_insert. destruct Hpc as [Hs Hch]. auto.
    + rewrite length_insert. destruct Hpc as [Hs Hch]. auto.
    + rewrite length_insert. destruct Hpc as (Hs & Hch & Hz).
      destruct (Hzero Hz) as (_ & _ & Hz' & _). auto.
    + destruct Hpc as [Hnil | (Hlen & Hz & Hcount & Herr)].
      { by rewrite Hnil in Hi. }
      right. rewrite length_insert.
      destruct (Hzero Hz) as (-> & -> & Hz' & Hret).
      destruct (returned_stable SExit callee SExit callee' Hr Hret)
        as [Hrc Hre].
      repeat split; try done.
      * rewrite (sumZ_insert returned_count _ _ _ _ Hi), Hrc, Hcount.
        f_equal. lia.
      * destruct err as [e |].
        -- destruct Herr as (j & gt & Hj & Hgt).
           destruct (Hold j gt e Hj Hgt) as (gt' & Hj' & Hgt'). eauto.
        -- intros j gt' Hj.
           apply list_lookup_insert_Some in Hj
             as [(<- & <- & _) | (_ & Hj)].
           ++ rewrite Hre. by apply (Herr i).
           ++ by apply (Herr j).
Qed.
Lemma sumZ_snoc (l : list Z) (c : Z) : sumZ id (l ++ [c]) = sumZ id l + c.
Proof. rewrite sumZ_app. simpl. unfold id. lia. Qed.

Lemma multi_inv_around s i s' :
  multi_inv sources destination s →
  CopyMultipleSources_step cd sources destination dflt (MAround i) s = Some s' →
  multi_inv sources destination s'.
Proof.
  unfold CopyMultipleSources_step. destruct (panicked (mworld s)); [done |].
  intros Hinv Hstep.
  destruct (mgos s !! i) as [[g callee] |] eqn:Hi; [| done].
  pose proof Hinv as (_ & Hres & _).
  destruct g.
  - (* countChan <- count *)
    destruct (result callee) as [[count err] |] eqn:Er; simplify_eq/=.
    apply (multi_inv_update s i SCall callee SErr callee _ _ _ _ Hinv Hi);
      simpl; try done; try (intros ? H; exact H).
    + unfold alive. simpl. lia.
    + rewrite sumZ_snoc. unfold sent_count, returned_count. simpl.
      rewrite Er. lia.
    + by left.
    + intros He. split; [done |]. by intros [? | ?].

  - (* errChan <- err *)
    destruct (Hres i _ Hi ltac:(done)) as [[count err] Er]. simpl in Er.
    rewrite Er in Hstep.
    destruct err as [err |]; simplify_eq/=.
    + apply (multi_inv_update s i SErr callee SDone callee _ _ _ _ Hinv Hi);
        simpl; try done; try (intros ? H; exact H).
      * unfold alive. simpl. lia.
      * unfold sent_count, returned_count. simpl. lia.
      * intros e He. apply elem_of_app in He as [He | He]; [by left |].
        right. apply list_elem_of_singleton in He as ->.
        unfold returned_error. simpl. by rewrite Er.
      * intros He. by destruct (errChan s).
    + apply (multi_inv_update s i SErr callee SDone callee _ _ _ _ Hinv Hi);
        simpl; try done; try (intros ? H; exact H).
      * unfold alive. simpl. lia.
      * unfold sent_count, returned_count. simpl. lia.
      * by left.
      * intros He. split; [done |]. intros _. right. right.
        unfold returned_error. simpl. by rewrite Er.
  - (* waitGroup.Done() *)
    destruct (Hres i _ Hi ltac:(done)) as [[count err] Er]. simpl in Er.
    simplify_eq/=.
    apply (multi_inv_update s i SDone callee SExit callee _ _ _ _ Hinv Hi);
      simpl; try done; try (intros ? H; exact H).
    + unfold alive. simpl. lia.
    + unfold sent_count, returned_count. simpl. lia.
    + by left.
    + intros He. split; [done |]. intros _. by left.
  - done.
Qed.

Lemma multi_inv_inside s i th s' :
  multi_inv sources destination s →
  CopyMultipleSources_step cd sources destination dflt (MInside i th) s
  = Some s' →
  multi_inv sources destination s'.
Proof.
  unfold CopyMultipleSources_step. destruct (panicked (mworld s)); [done |].
  intros Hinv Hstep.
  destruct (mgos s !! i) as [[g callee] |] eqn:Hi; [| done].
  destruct (step cd th (mworld s) callee) as [[w' callee'] |] eqn:Hst;
    simplify_eq/=.
  pose proof Hinv as (_ & Hres & _).
  pose proof (step_args _ _ _ _ _ _ Hst) as (Ha1 & Ha2 & Ha3).
  pose proof (λ r, step_result _ _ _ _ _ _ r Hst) as Hr.
  assert (Hsame : g ≠ SCall →
            is_Some (result callee') ∧
            returned_count (g, callee') = returned_count (g, callee) ∧
            returned_error (g, callee') = returned_error (g, callee)).
  { intros Hg. pose proof (Hres i _ Hi Hg) as Hsome. simpl in Hsome.
    split; [| by apply returned_stable].
    destruct Hsome as [r Hr']. rewrite (Hr _ Hr'). by eexists. }
  apply (multi_inv_update s i g callee g callee' _ _ _ _ Hinv Hi);
    simpl; try done.
  - intros src (H1 & H2 & H3). unfold runs_source. simpl in *.
    by rewrite Ha1, Ha2, Ha3.
  - intros Hg. by apply Hsame.
  - unfold alive. simpl. lia.
  - unfold sent_count. simpl. case_decide; [lia |].
    destruct (Hsame ltac:(done)) as (_ & -> & _). lia.
  - by left.
  - intros He. split; [done |]. intros [-> | ->]; auto.
Qed.

Lemma multi_inv_step who s s' :
  multi_inv sources destination s →
  CopyMultipleSources_step cd sources destination dflt who s = Some s' →
  multi_inv sources destination s'.
Proof.
  destruct who.
  - apply multi_inv_main.
  - apply multi_inv_around.
  - apply multi_inv_inside.
Qed.

Lemma multi_inv_run who : ∀ s s',
  multi_inv sources destination s →
  CopyMultipleSources_run cd sources destination dflt who s = Some s' →
  multi_inv sources destination s'.
Proof.
  induction who as [| x who IH]; intros s s' Hinv Hrun; simpl in Hrun.
  - congruence.
  - destruct (CopyMultipleSources_step cd sources destination dflt x s)
      as [s1 |] eqn:E;
      [| done].
    eapply IH; [| done]. by eapply multi_inv_step.
Qed.
End multi.

(** ** Path resolution on a store that agrees with the expected one *)

Lemma below_app d q : below d (d ++ q) = Some q.
Proof. induction d as [| x d IH]; simpl; [done |]. by rewrite decide_True. Qed.

Lemma below_Some d p q : below d p = Some q → p = d ++ q.
Proof.
  revert p. induction d as [| x d IH]; intros [| y p] H; simplify_eq/=;
    try done.
  case_decide; [| done]. subst. f_equal. by apply IH.
Qed.

Lemma prefix_snoc_cases (p d : path) (x : string) :
  p `prefix_of` d ++ [x] → p `prefix_of` d ∨ p = d ++ [x].
Proof.
  intros [k Hk]. destruct k as [| y k _] using rev_ind.
  - right. by rewrite app_nil_r in Hk.
  - left. rewrite app_assoc in Hk. apply app_inj_tail in Hk as [-> _].
    by exists k.
Qed.

Lemma resolve_dirs (st : gmap (list string) dentry) rest : ∀ cur,
  (∀ k, k `prefix_of` rest → st !! (cur ++ k) = Some DirE) →
  resolve st cur rest = IsDirectory.
Proof.
  induction rest as [| x rest IH]; intros cur H; simpl.
  - specialize (H [] ltac:(done)). rewrite app_nil_r in H. by rewrite H.
  - pose proof (H [] (prefix_nil _)) as H0. rewrite app_nil_r in H0.
    rewrite H0. apply IH. intros k Hk.
    rewrite <- app_assoc. apply H. simpl. by apply prefix_cons.
Qed.

Lemma resolve_cases (st : gmap (list string) dentry) rest : ∀ cur,
  (∀ k, k `prefix_of` rest → not_file (st !! (cur ++ k))) →
  (resolve st cur rest = IsDirectory
   ∧ ∀ k, k `prefix_of` rest → st !! (cur ++ k) = Some DirE)
  ∨ resolve st cur rest = NotExist.
Proof.
  induction rest as [| x rest IH]; intros cur H; simpl.
  - destruct (H [] ltac:(done)) as [H0 | H0]; rewrite app_nil_r in H0;
      rewrite H0; [by right |].
    left. split; [done |]. intros k Hk. apply prefix_nil_inv in Hk as ->.
    by rewrite app_nil_r.
  - destruct (H [] (prefix_nil _)) as [H0 | H0]; rewrite app_nil_r in H0;
      rewrite H0; [by right |].
    destruct (IH (cur ++ [x])) as [[Hr Hd] | Hr].
    + intros k Hk. rewrite <- app_assoc. apply H. by apply prefix_cons.
    + left. split; [done |]. intros [| y k] Hk.
      * by rewrite app_nil_r.
      * pose proof (prefix_cons_inv_1 _ _ _ _ Hk) as ->.
        apply prefix_cons_inv_2 in Hk.
        specialize (Hd k Hk). by rewrite <- app_assoc in Hd.
    + by right.
Qed.

Lemma mkdir_chain_ok rest : ∀ (st : gmap (list string) dentry) cur,
  (∀ k, k `prefix_of` rest → not_file (st !! (cur ++ k))) →
  ∃ st', mkdir_chain None st cur rest = (st', None)
         ∧ (∀ k, k `prefix_of` rest → st' !! (cur ++ k) = Some DirE)
         ∧ (∀ p, st' !! p = st !! p
                 ∨ (∃ k, k `prefix_of` rest ∧ p = cur ++ k
                         ∧ st' !! p = Some DirE)).
Proof.
  induction rest as [| x rest IH]; intros st cur H.
  - exists (<[cur := DirE]> st). split; [| split].
    + simpl. unfold mkdir_one.
      destruct (H [] ltac:(done)) as [H0 | H0];
        rewrite app_nil_r in H0; rewrite H0; [done |].
      by rewrite insert_id.
    + intros k Hk. apply prefix_nil_inv in Hk as ->. rewrite app_nil_r.
      apply lookup_insert_eq.
    + intros p. destruct (decide (cur = p)) as [<- | Hne].
      * right. exists []. rewrite app_nil_r, lookup_insert_eq. done.
      * left. by rewrite lookup_insert_ne.
  - destruct (IH (<[cur := DirE]> st) (cur ++ [x])) as (st' & Hm & Hd & Ho).
    { intros k Hk. rewrite <- app_assoc. simpl.
      destruct (H (x :: k) (prefix_cons _ _ _ Hk)) as [H0 | H0].
      - left. rewrite lookup_insert_ne; [done |].
        intros E. apply (f_equal length) in E. rewrite length_app in E.
        simpl in E. lia.
      - right. rewrite lookup_insert_ne; [done |].
        intros E. apply (f_equal length) in E. rewrite length_app in E.
        simpl in E. lia. }
    exists st'. split; [| split].
    + simpl. unfold mkdir_one.
      destruct (H [] (prefix_nil _)) as [H0 | H0];
        rewrite app_nil_r in H0; rewrite H0; [done |].
      by rewrite insert_id in Hm.
    + intros [| y k] Hk.
      * rewrite app_nil_r. destruct (Ho cur) as [Hc | (k & _ & Hc & _)].
        -- by rewrite Hc, lookup_insert_eq.
        -- apply (f_equal length) in Hc. rewrite !length_app in Hc.
           simpl in Hc. lia.
      * pose proof (prefix_cons_inv_1 _ _ _ _ Hk) as ->.
        apply prefix_cons_inv_2 in Hk.
        specialize (Hd k Hk). by rewrite <- app_assoc in Hd.
    + intros p. destruct (Ho p) as [Hp | (k & Hk & -> & Hp)].
      * destruct (decide (cur = p)) as [<- | Hne].
        -- right. exists []. split; [apply prefix_nil |].
           rewrite app_nil_r. split; [done |].
           by rewrite Hp, lookup_insert_eq.
        -- left. by rewrite Hp, lookup_insert_ne.
      * right. exists (x :: k). split; [by apply prefix_cons |].
        rewrite <- app_assoc in *. done.
Qed.

Section expected.
Variable fin : path → option dentry.

Lemma agree_not_file (st : gmap (list string) dentry) p :
  agrees fin st → fin p = Some DirE → not_file (st !! p).
Proof.
  intros Ha Hp. specialize (Ha p). rewrite Hp in Ha. unfold agree in Ha.
  destruct (st !! p) as [[| data] |]; [by right | done | by left].
Qed.

(** Lines 45-50 on a destination whose way down to [d] has no file. *)
Lemma ensure_destination_ok (st : gmap (list string) dentry) d :
  agrees fin st →
  (∀ p, p `prefix_of` d → fin p = Some DirE) →
  ∃ st', ensure_destination None st d = (st', None)
         ∧ (∀ p, p `prefix_of` d → st' !! p = fin p)
         ∧ (∀ p, st' !! p = st !! p ∨ st' !! p = fin p).
Proof.
  intros Ha Hd. unfold ensure_destination, Stat.
  assert (Hnf : ∀ k, k `prefix_of` d → not_file (st !! ([] ++ k))).
  { intros k Hk. apply agree_not_file; [done | by apply Hd]. }
  destruct (resolve_cases st d [] Hnf) as [[-> Hdirs] | ->].
  - exists st. split; [done |]. split; [| by left].
    intros p Hp. rewrite (Hd p Hp). apply (Hdirs p Hp).
  - unfold MkdirAll. destruct (mkdir_chain_ok d st [] Hnf)
      as (st' & -> & Hdirs & Hother).
    exists st'. split; [done |]. split.
    + intros p Hp. rewrite (Hd p Hp). apply (Hdirs p Hp).
    + intros p. destruct (Hother p) as [? | (k & Hk & -> & Hp)];
        [by left | right]. simpl in *. by rewrite (Hd k Hk).
Qed.

(** Lines 94-119 on a file that the store has no directory for. *)
Lemma copy_file_ok (cd : CopyDirectory) (data : list byte)
  (st : gmap (list string) dentry)
  (s d : path) (name : string) :
  (∀ p, p `prefix_of` d → st !! p = Some DirE) →
  st !! (d ++ [name]) ≠ Some DirE →
  copy_file cd data no_file_fault st s d name
  = (<[d ++ [name] := FileE data]> st, None).
Proof.
  intros Hd Hf. unfold copy_file, copy_file_with, Create, Stat. simpl.
  rewrite resolve_dirs by (intros k Hk; by apply Hd).
  destruct (st !! (d ++ [name])) as [[| old] |] eqn:E; try done.
  - by rewrite insert_insert_eq.
  - by rewrite insert_insert_eq.
Qed.
End expected.

(** [os.Create] truncates: what the destination file held before does not
    show in what it holds after the copy. *)
Lemma copy_file_truncates (cd : CopyDirectory) (data old : list byte)
  (st : gmap (list string) dentry) (s d : path) (name : string) :
  (∀ p, p `prefix_of` d → st !! p = Some DirE) →
  st !! (d ++ [name]) = Some (FileE old) →
  (copy_file cd data no_file_fault st s d name).1 !! (d ++ [name])
  = Some (FileE data).
Proof.
  intros Hd Hold. rewrite (copy_file_ok cd data st s d name Hd).
  - simpl. apply lookup_insert_eq.
  - by rewrite Hold.
Qed.

(** ** Trees without faults and with unique names *)

Lemma fault_free_Dir flt entries :
  fault_free (Dir flt entries)
  ↔ flt = no_dir_fault ∧ Forall (λ e, fault_free e.2) entries.
Proof.
  simpl. apply and_iff_compat_l.
  induction entries as [| [name child] es IH]; simpl.
  - split; [constructor | done].
  - rewrite Forall_cons, IH. done.
Qed.

Lemma names_unique_Dir flt entries :
  names_unique (Dir flt entries)
  ↔ NoDup entries.*1 ∧ Forall (λ e, names_unique e.2) entries.
Proof.
  simpl. apply and_iff_compat_l.
  induction entries as [| [name child] es IH]; simpl.
  - split; [constructor | done].
  - rewrite Forall_cons, IH. done.
Qed.

Lemma find_entry_elem name entries child :
  find_entry name entries = Some child → (name, child) ∈ entries.
Proof.
  induction entries as [| [x c] es IH]; simpl; [done |].
  case_decide; intros Hf; simplify_eq.
  - left.
  - right. by apply IH.
Qed.

Lemma find_entry_unique name entries child :
  NoDup entries.*1 → (name, child) ∈ entries →
  find_entry name entries = Some child.
Proof.
  induction entries as [| [x c] es IH]; simpl; intros Hnd Hin.
  - by apply elem_of_nil in Hin.
  - apply NoDup_cons in Hnd as [Hx Hnd].
    apply elem_of_cons in Hin as [Heq | Hin].
    + simplify_eq. by rewrite decide_True.
    + case_decide as E; [| by apply IH].
      subst. exfalso. apply Hx.
      apply list_elem_of_fmap. by exists (name, child).
Qed.

Lemma placed_child fin d flt entries name child :
  placed fin d (Dir flt entries) → NoDup entries.*1 →
  (name, child) ∈ entries →
  fin (d ++ [name]) = Some (entry_of child)
  ∧ (IsDir child = true → placed fin (d ++ [name]) child).
Proof.
  intros [Hpre Htree] Hnd Hin.
  pose proof (find_entry_unique _ _ _ Hnd Hin) as Hfind.
  assert (Hq : ∀ q e, tree_lookup child q = Some e →
                      fin ((d ++ [name]) ++ q) = Some e).
  { intros q e Hq. rewrite <- app_assoc. apply Htree. simpl.
    by rewrite Hfind. }
  split.
  - specialize (Hq [] _ eq_refl). by rewrite app_nil_r in Hq.
  - intros Hdir. split; [| done].
    intros p Hp. apply prefix_snoc_cases in Hp as [Hp | ->].
    + by apply Hpre.
    + specialize (Hq [] _ eq_refl). rewrite app_nil_r in Hq.
      rewrite Hq. by destruct child.
Qed.

(** ** Entries and their leaves *)

Lemma leaves_list_app es1 es2 :
  leaves_list (es1 ++ es2) = (leaves_list es1 + leaves_list es2)%nat.
Proof.
  induction es1 as [| [name child] es IH]; simpl; [done |]. rewrite IH. lia.
Qed.

Lemma leaves_list_split es :
  leaves_list es
  = (length (file_entries es) + leaves_list (dir_entries es))%nat.
Proof.
  unfold file_entries, dir_entries.
  induction es as [| [name child] es IH]; [done |].
  rewrite !filter_cons. simpl. destruct child as [data flt | flt sub].
  - rewrite decide_True, decide_False by done. simpl. lia.
  - rewrite decide_False, decide_True by done.
    change (leaves_list ((name, Dir flt sub) :: ?l))
      with (leaves (Dir flt sub) + leaves_list l)%nat. lia.
Qed.

Lemma dir_entries_app es1 es2 :
  dir_entries (es1 ++ es2) = dir_entries es1 ++ dir_entries es2.
Proof. apply filter_app. Qed.

Lemma file_entries_app es1 es2 :
  file_entries (es1 ++ es2) = file_entries es1 ++ file_entries es2.
Proof. apply filter_app. Qed.

Lemma galive_nonneg k : 0 ≤ galive k ≤ 1.
Proof. unfold galive. case_decide; lia. Qed.

Lemma sumZ_galive_nonneg ks : 0 ≤ sumZ galive ks.
Proof.
  induction ks as [| k ks IH]; simpl; [lia |].
  pose proof (galive_nonneg k). lia.
Qed.

Lemma sumZ_galive_zero ks :
  sumZ galive ks = 0 → ∀ i k, ks !! i = Some k → k.1 = GExit.
Proof.
  induction ks as [| x ks IH]; intros H [| i] k Hi; simplify_eq/=.
  - pose proof (sumZ_galive_nonneg ks). pose proof (galive_nonneg k).
    unfold galive in *. case_decide; [done | lia].
  - pose proof (sumZ_galive_nonneg ks). pose proof (galive_nonneg x).
    apply (IH ltac:(lia) i k Hi).
Qed.

Lemma merged_sum_exited ds : ∀ kids,
  length ds = length kids →
  (∀ i k, kids !! i = Some k → k.1 ≠ GCall) →
  merged_sum ds kids = Z.of_nat (leaves_list ds).
Proof.
  induction ds as [| [name child] ds IH]; intros [| k kids] Hlen Hex;
    simplify_eq/=; [done |].
  rewrite IH; [| lia | intros i k' Hi; apply (Hex (S i) k' Hi)].
  unfold merged. rewrite decide_False by apply (Hex 0%nat k eq_refl).
  simpl. lia.
Qed.

Lemma merged_sum_insert ds : ∀ kids i e k k',
  ds !! i = Some e → kids !! i = Some k →
  merged_sum ds (<[i:=k']> kids)
  = merged_sum ds kids - merged e k + merged e k'.
Proof.
  induction ds as [| e0 ds IH]; intros [| k0 kids] [| i] e k k' He Hk;
    simplify_eq/=.
  - lia.
  - rewrite (IH kids i e k k' He Hk). lia.
Qed.

Lemma merged_sum_snoc ds : ∀ kids e k,
  length ds = length kids →
  merged_sum (ds ++ [e]) (kids ++ [k]) = merged_sum ds kids + merged e k.
Proof.
  induction ds as [| e0 ds IH]; intros [| k0 kids] e k Hlen; simplify_eq/=.
  - lia.
  - rewrite IH by lia. lia.
Qed.

Lemma Forall2_impl_elem {A B} (P Q : A → B → Prop) l k :
  Forall2 P l k → (∀ x y, x ∈ l → P x y → Q x y) → Forall2 Q l k.
Proof.
  induction 1 as [| x y l k Hxy _ IH]; intros H; constructor.
  - apply H; [left | done].
  - apply IH. intros x' y' Hin. apply H. by right.
Qed.

Lemma file_entries_snoc_file done name data flt :
  file_entries (done ++ [(name, File data flt)])
  = file_entries done ++ [(name, File data flt)].
Proof. unfold file_entries. by rewrite filter_app. Qed.

Lemma file_entries_snoc_dir done name flt sub :
  file_entries (done ++ [(name, Dir flt sub)]) = file_entries done.
Proof. unfold file_entries. rewrite filter_app. apply app_nil_r. Qed.

Lemma dir_entries_snoc_file done name data flt :
  dir_entries (done ++ [(name, File data flt)]) = dir_entries done.
Proof. unfold dir_entries. rewrite filter_app. apply app_nil_r. Qed.

Lemma dir_entries_snoc_dir done name flt sub :
  dir_entries (done ++ [(name, Dir flt sub)])
  = dir_entries done ++ [(name, Dir flt sub)].
Proof. unfold dir_entries. by rewrite filter_app. Qed.

(** ** Activations in a run without failures *)

Section good.
Variable fin : path → option dentry.

Lemma Good_inv st n s d t :
  Good fin st n s d t →
  ∃ flt entries done rest,
    n = Dir flt entries
    ∧ sourceDirectory (frame_of t) = s
    ∧ sourceNode (frame_of t) = Dir flt entries
    ∧ destinationDirectory (frame_of t) = d
    ∧ firstErr (frame_of t) = None
    ∧ entries = done ++ rest
    ∧ match at_pc (frame_of t) with
      | Entry => done = []
      | Listing => done = [] ∧ (∀ p, p `prefix_of` d → st !! p = fin p)
      | Loop r | Send r | Incr r =>
          r = rest ∧ (∀ p, p `prefix_of` d → st !! p = fin p)
      | Wait => rest = [] ∧ (∀ p, p `prefix_of` d → st !! p = fin p)
      | Ret c e =>
          rest = [] ∧ (∀ p, p `prefix_of` d → st !! p = fin p)
          ∧ c = fileCount (frame_of t) ∧ e = None
          ∧ waitGroup (frame_of t) = 0
      end
    ∧ (∀ e, e ∈ file_entries done → st !! (d ++ [e.1]) = fin (d ++ [e.1]))
    ∧ Forall2 (λ e k, Good fin st e.2 (s ++ [e.1]) (d ++ [e.1]) k.2
                      ∧ (k.1 ≠ GCall →
                         result k.2
                         = Some (wrap (Z.of_nat (leaves e.2)), None)))
              (dir_entries done) (kids_of t)
    ∧ fileCount (frame_of t)
      = wrap (Z.of_nat (length (file_entries done))
              - pending (at_pc (frame_of t))
              + merged_sum (dir_entries done) (kids_of t))
    ∧ waitGroup (frame_of t) = sumZ galive (kids_of t).
Proof.
  intros Hg. destruct Hg as [flt entries s d f kids done rest
    H1 H2 H3 H4 H5 H6 H7 H8 H9 H10].
  exists flt, entries, done, rest. simpl.
  split; [done |]. do 5 (split; [assumption |]).
  split; [exact H6 |]. split; [exact H7 |]. split; [exact H8 |].
  split; [exact H9 | exact H10].
Qed.

Lemma Good_mono st st' n : ∀ s d t,
  (∀ p, st !! p = fin p → st' !! p = fin p) →
  Good fin st n s d t → Good fin st' n s d t.
Proof.
  induction n as [data flt | flt entries IH] using node_induction;
    intros s d t Hmono Hg.
  - apply Good_inv in Hg as (? & ? & ? & ? & ? & _). done.
  - destruct t as [f kids].
    apply Good_inv in Hg
      as (flt' & entries' & done & rest & Hn & Hs & Hsn & Hd & He & Hsplit
          & Hpc & Hfiles & Hkids & Hcount & Hwg).
    simplify_eq/=.
    apply (Good_task fin st' _ (done ++ rest) _ _ f kids done rest);
      try done.
    + destruct (at_pc f);
        first [ done
              | destruct Hpc as (? & ? & ? & ? & ?); auto 10
              | destruct Hpc; auto ].
    + intros e He'. apply Hmono. by apply Hfiles.
    + eapply Forall2_impl_elem; [exact Hkids |].
      intros e k Hin [Hgk Hres]. split; [| done].
      rewrite Forall_forall in IH. apply IH; [| done | done].
      apply elem_of_app. left.
      unfold dir_entries in Hin. by apply list_elem_of_filter in Hin as [_ ?].
Qed.

Lemma Good_kids_exited st n s d t r :
  Good fin st n s d t → result t = Some r →
  ∀ i k, kids_of t !! i = Some k → k.1 = GExit.
Proof.
  intros Hg Hr. apply Good_inv in Hg
    as (flt & entries & done & rest & Hn & Hs & Hsn & Hd & He & Hsplit
        & Hpc & Hfiles & Hkids & Hcount & Hwg).
  unfold result in Hr. destruct (at_pc (frame_of t)); try done.
  destruct Hpc as (_ & _ & _ & _ & Hz). rewrite Hz in Hwg.
  by apply sumZ_galive_zero.
Qed.

(** What a call returns when nothing failed. *)
Lemma Good_result st n s d t c e :
  Good fin st n s d t → result t = Some (c, e) →
  c = wrap (Z.of_nat (leaves n)) ∧ e = None.
Proof.
  intros Hg Hr. pose proof (Good_kids_exited _ _ _ _ _ _ Hg Hr) as Hex.
  apply Good_inv in Hg
    as (flt & entries & done & rest & Hn & Hs & Hsn & Hd & He & Hsplit
        & Hpc & Hfiles & Hkids & Hcount & Hwg).
  unfold result in Hr.
  destruct (at_pc (frame_of t)) eqn:Epc; try done.
  destruct Hpc as (Hrest & _ & Hc & Hnone & Hz). simplify_eq.
  split; [| done]. rewrite Hcount, leaves_Dir, app_nil_r. simpl pending.
  rewrite (merged_sum_exited _ (kids_of t)).
  - rewrite (leaves_list_split done). f_equal. lia.
  - by eapply Forall2_length.
  - intros i k Hi. by rewrite (Hex i k Hi).
Qed.
(** When the call has returned, the store has the whole tree. *)
Lemma Good_settled st q : ∀ n s d t e,
  Good fin st n s d t → is_Some (result t) →
  tree_lookup n q = Some e → st !! (d ++ q) = fin (d ++ q).
Proof.
  induction q as [| x q IH]; intros n s d t e Hg [r Hr] Hq.
  - apply Good_inv in Hg
      as (flt & entries & done & rest & Hn & Hs & Hsn & Hd & He & Hsplit
          & Hpc & Hfiles & Hkids & Hcount & Hwg).
    unfold result in Hr. destruct (at_pc (frame_of t)); try done.
    destruct Hpc as (_ & Hchain & _). rewrite app_nil_r. by apply Hchain.
  - pose proof (Good_kids_exited _ _ _ _ _ _ Hg Hr) as Hex.
    apply Good_inv in Hg
      as (flt & entries & done & rest & Hn & Hs & Hsn & Hd & He & Hsplit
          & Hpc & Hfiles & Hkids & Hcount & Hwg).
    unfold result in Hr. destruct (at_pc (frame_of t)); try done.
    destruct Hpc as (Hrest & _). subst n rest. rewrite app_nil_r in Hsplit.
    subst entries. simpl in Hq.
    destruct (find_entry x done) as [child |] eqn:Hfind; [| done].
    apply find_entry_elem in Hfind.
    destruct child as [data cflt | cflt sub].
    + destruct q; [| done].
      apply (Hfiles (x, File data cflt)).
      unfold file_entries. by apply list_elem_of_filter.
    + assert (Hin : (x, Dir cflt sub) ∈ dir_entries done).
      { unfold dir_entries. by apply list_elem_of_filter. }
      apply list_elem_of_lookup in Hin as [i Hi].
      destruct (Forall2_lookup_l _ _ _ _ _ Hkids Hi) as (k & Hk & Hgk & _).
      simpl in Hgk.
      replace (d ++ x :: q) with ((d ++ [x]) ++ q)
        by (by rewrite <- app_assoc).
      eapply (IH _ _ _ k.2); [exact Hgk | | exact Hq].
      apply Good_inv in Hgk as Hk'.
      pose proof (Hex i k Hk) as Hexit.
      destruct (Forall2_lookup_l _ _ _ _ _ Hkids Hi) as (k' & Hk2 & _ & Hres).
      simplify_eq. rewrite Hres; [by eexists |]. by rewrite Hexit.
Qed.

(** A call that has returned has no thread left that can move. *)
Lemma Good_quiescent cd th : ∀ st n s d t w,
  Good fin st n s d t → is_Some (result t) → step cd th w t = None.
Proof.
  induction th as [| i | i th IH]; intros st n s d t w Hg [r Hr].
  - simpl. unfold step_here. unfold result in Hr.
    by destruct (at_pc (frame_of t)).
  - simpl. destruct (kids_of t !! i) as [[g callee] |] eqn:Hi; [| done].
    pose proof (Good_kids_exited _ _ _ _ _ _ Hg Hr i _ Hi) as Hex.
    simpl in Hex. by subst g.
  - simpl. destruct (kids_of t !! i) as [[g callee] |] eqn:Hi; [| done].
    pose proof (Good_kids_exited _ _ _ _ _ _ Hg Hr i _ Hi) as Hex.
    simpl in Hex. subst g.
    apply Good_inv in Hg
      as (flt & entries & done & rest & Hn & Hs & Hsn & Hd & He & Hsplit
          & Hpc & Hfiles & Hkids & Hcount & Hwg).
    destruct (Forall2_lookup_r _ _ _ _ _ Hkids Hi) as (e & He' & Hgk & Hres).
    simpl in *. rewrite (IH _ _ _ _ _ w Hgk); [done |].
    rewrite Hres; [by eexists | done].
Qed.
Lemma agrees_towards (st st' : gmap (list string) dentry) :
  agrees fin st → (∀ p, st' !! p = st !! p ∨ st' !! p = fin p) →
  agrees fin st'.
Proof.
  intros Ha Ht p. destruct (Ht p) as [-> | ->]; [apply Ha |].
  unfold agree. by destruct (fin p) as [[| ?] |].
Qed.

Lemma towards_mono (st st' : gmap (list string) dentry) :
  (∀ p, st' !! p = st !! p ∨ st' !! p = fin p) →
  ∀ p, st !! p = fin p → st' !! p = fin p.
Proof. intros Ht p Hp. destruct (Ht p) as [-> | ->]; done. Qed.

Ltac no_entry :=
  let H := fresh in intros ? H; by apply elem_of_nil in H.

Lemma Good_start st flt entries s d :
  Good fin st (Dir flt entries) s d
       (CopyFilesAndDirectory s (Dir flt entries) d).
Proof.
  apply (Good_task fin st flt entries s d _ [] [] entries); try done.
  intros e He. by apply elem_of_nil in He.
Qed.

Lemma Good_step_here cd n s d w f kids w' t' :
  fault_free n → names_unique n → placed fin d n →
  agrees fin (fs w) → closed w = false →
  Good fin (fs w) n s d (Task f kids) →
  step_here cd w f kids = Some (w', t') →
  Good fin (fs w') n s d t'
  ∧ (∀ p, fs w' !! p = fs w !! p ∨ fs w' !! p = fin p)
  ∧ closed w' = false ∧ panicked w' = panicked w.
Proof.
  intros Hff Hnu Hpl Hag Hopen Hg Hstep.
  apply Good_inv in Hg
    as (flt & entries & done & rest & Hn & Hs & Hsn & Hd & He & Hsplit
        & Hpc & Hfiles & Hkids & Hcount & Hwg).
  simpl in *. subst n entries s d.
  apply fault_free_Dir in Hff as [-> Hff].
  apply names_unique_Dir in Hnu as [Hnd Hnu].
  unfold step_here in Hstep. rewrite Hsn in Hstep.
  destruct (at_pc f) as [| | [| [name child] rest'] | rest' | rest' | |]
    eqn:Epc.
  - (* line 45 *)
    subst done. simpl in Hstep.
    destruct (ensure_destination_ok fin (fs w) _ Hag (proj1 Hpl))
      as (st' & Hens & Hchain & Htow).
    rewrite Hens in Hstep. simplify_eq/=.
    split; [| by repeat split].
    apply Forall2_nil_inv_l in Hkids as ->.
    apply (Good_task fin st' _ rest _ _ _ [] [] rest); simpl;
      try done; try no_entry.
  - (* line 53 *)
    destruct Hpc as [-> Hchain]. simpl in Hstep. simplify_eq/=.
    split; [| by repeat split; try left].
    apply (Good_task fin _ _ rest _ _ _ kids [] rest); simpl;
      try done.
  - (* line 70, no entry left *)
    destruct Hpc as [<- Hchain]. simplify_eq/=.
    split; [| by repeat split; try left].
    rewrite app_nil_r in *.
    apply (Good_task fin _ _ done _ _ _ kids done []); simpl;
      try done.
    + by rewrite app_nil_r.
  - (* line 70, next entry *)
    destruct Hpc as [<- Hchain].
    assert (Hin : (name, child) ∈ done ++ (name, child) :: rest').
    { apply elem_of_app. right. left. }
    destruct (placed_child fin _ _ _ _ _ Hpl Hnd Hin) as [Hfin Hplc].
    rewrite Forall_forall in Hff. pose proof (Hff _ Hin) as Hffc.
    destruct child as [data cflt | cflt sub]; simpl in Hstep.
    + (* a file: lines 94-125 *)
      simpl in Hffc. subst cflt.
      set (dp := destinationDirectory f ++ [name]).
      assert (Htow : ∀ p, <[dp := FileE data]> (fs w) !! p = fs w !! p
                          ∨ <[dp := FileE data]> (fs w) !! p = fin p).
      { intros p. destruct (decide (dp = p)) as [<- | Hne].
        - right. by rewrite lookup_insert_eq.
        - left. by rewrite lookup_insert_ne. }
      pose proof (towards_mono _ _ Htow) as Hmono.
      rewrite (copy_file_ok cd data (fs w)) in Hstep.
      * simplify_eq/=.
        split; [| by repeat split].
        apply (Good_task fin _ _ _ _ _ _ kids
                 (done ++ [(name, File data no_file_fault)]) rest'); simpl;
          try done.
        -- by rewrite <- app_assoc.
        -- split; [done |]. intros p Hp. apply Hmono. by apply Hchain.
        -- intros e He'. rewrite file_entries_snoc_file in He'.
           apply elem_of_app in He' as [He' | He'].
           ++ apply Hmono. by apply Hfiles.
           ++ apply list_elem_of_singleton in He' as ->. simpl.
              by rewrite lookup_insert_eq.
        -- rewrite dir_entries_snoc_file.
           eapply Forall2_impl; [exact Hkids |].
           intros e k [Hgk Hres]. split; [| done].
           by apply (Good_mono (fs w)).
        -- rewrite Hcount, file_entries_snoc_file, dir_entries_snoc_file,
             length_app. simpl. f_equal. lia.
      * intros p Hp. rewrite (Hchain p Hp). by apply Hpl.
      * intros E. specialize (Hag (destinationDirectory f ++ [name])).
        rewrite E, Hfin in Hag. done.
    + (* a directory: lines 76-91 *)
      simplify_eq/=.
      split; [| by repeat split; try left].
      apply (Good_task fin _ _ _ _ _ _ _
               (done ++ [(name, Dir cflt sub)]) rest'); simpl; try done.
      * by rewrite <- app_assoc.
      * intros e He'. rewrite file_entries_snoc_dir in He'.
        by apply Hfiles.
      * rewrite dir_entries_snoc_dir. apply Forall2_app; [done |].
        constructor; [| constructor]. split; [| done]. simpl.
        apply Good_start.
      * rewrite Hcount, file_entries_snoc_dir, dir_entries_snoc_dir.
        rewrite merged_sum_snoc by (by eapply Forall2_length).
        unfold merged. simpl. f_equal. lia.
      * rewrite Hwg, sumZ_app. cbn [sumZ].
        change (galive (GCall, ?t)) with 1. lia.
  - (* line 122 *)
    destruct Hpc as [<- Hchain]. rewrite Hopen in Hstep. simplify_eq/=.
    split; [| by repeat split; try left].
    apply (Good_task fin _ _ _ _ _ _ kids done rest'); simpl;
      try done.
  - (* lines 123-125 *)
    destruct Hpc as [<- Hchain]. simplify_eq/=.
    split; [| by repeat split; try left].
    apply (Good_task fin _ _ _ _ _ _ kids done rest'); simpl;
      try done.
    rewrite Hcount, wrap_add_l. simpl. f_equal. lia.
  - (* line 130 *)
    destruct Hpc as [-> Hchain]. case_decide as Hz; simplify_eq/=.
    split; [| by repeat split; try left].
    apply (Good_task fin _ _ _ _ _ _ kids done []); simpl;
      try done.
  - done.
Qed.
Lemma not_returned_pc st n s d f kids i g callee :
  Good fin st n s d (Task f kids) → kids !! i = Some (g, callee) →
  g ≠ GExit → result (Task f kids) = None.
Proof.
  intros Hg Hi Hne. destruct (result (Task f kids)) as [r |] eqn:Hr;
    [| done].
  by pose proof (Good_kids_exited _ _ _ _ _ _ Hg Hr i _ Hi).
Qed.

(** A step of the goroutine body around the call of kid [i]. *)
Lemma Good_step_around st n s d f kids i g callee f' g' :
  Good fin st n s d (Task f kids) →
  kids !! i = Some (g, callee) →
  step_around f g callee = Some (f', g') →
  Good fin st n s d (Task f' (<[i:=(g', callee)]> kids)).
Proof.
  intros Hg Hi Hstep.
  assert (Hnr : g ≠ GExit → result (Task f kids) = None).
  { by eapply not_returned_pc. }
  apply Good_inv in Hg
    as (flt & entries & done & rest & Hn & Hs & Hsn & Hd & He & Hsplit
        & Hpc & Hfiles & Hkids & Hcount & Hwg).
  simpl in *. subst n entries s d.
  destruct (Forall2_lookup_r _ _ _ _ _ Hkids Hi) as (e & Hei & Hgk & Hres).
  simpl in Hgk, Hres.
  assert (Hkids' : ∀ g'',
    (g'' ≠ GCall →
     result callee = Some (wrap (Z.of_nat (leaves e.2)), None)) →
    Forall2 (λ e k,
        Good fin st e.2 (sourceDirectory f ++ [e.1])
             (destinationDirectory f ++ [e.1]) k.2
        ∧ (k.1 ≠ GCall →
           result k.2 = Some (wrap (Z.of_nat (leaves e.2)), None)))
      (dir_entries done) (<[i:=(g'', callee)]> kids)).
  { intros g'' Hres'.
    rewrite <- (list_insert_id (dir_entries done) i e Hei).
    by apply Forall2_insert. }
  unfold result in Hnr. simpl in Hnr.
  destruct g; simpl in Hstep.
  - (* lines 79-82: the count is added *)
    destruct (result callee) as [[count err] |] eqn:Er; simplify_eq/=.
    destruct (Good_result _ _ _ _ _ _ _ Hgk Er) as [-> ->].
    specialize (Hnr ltac:(done)).
    apply (Good_task fin st _ _ _ _ _ _ done rest); simpl; try done.
    + destruct (at_pc f); done.
    + by apply Hkids'.
    + rewrite Hcount, wrap_add_l, wrap_add_r.
      rewrite (merged_sum_insert _ _ _ _ _ _ Hei Hi).
      unfold merged. simpl. f_equal. lia.
    + rewrite (sumZ_insert galive _ _ _ _ Hi), Hwg.
      unfold galive. simpl. lia.
  - (* lines 84-90: no error to record *)
    rewrite (Hres ltac:(done)) in Hstep. simplify_eq/=.
    specialize (Hnr ltac:(done)).
    apply (Good_task fin st _ _ _ _ _ _ done rest); simpl; try done.
    + apply Hkids'. intros _. by apply Hres.
    + rewrite Hcount. rewrite (merged_sum_insert _ _ _ _ _ _ Hei Hi).
      unfold merged. simpl. f_equal. lia.
    + rewrite (sumZ_insert galive _ _ _ _ Hi), Hwg.
      unfold galive. simpl. lia.
  - (* waitGroup.Done() *)
    simplify_eq/=. specialize (Hnr ltac:(done)).
    apply (Good_task fin st _ _ _ _ _ _ done rest); simpl; try done.
    + destruct (at_pc f); done.
    + apply Hkids'. intros _. by apply Hres.
    + rewrite Hcount. rewrite (merged_sum_insert _ _ _ _ _ _ Hei Hi).
      unfold merged. simpl. f_equal. lia.
    + rewrite (sumZ_insert galive _ _ _ _ Hi), Hwg.
      unfold galive. simpl. lia.
  - done.
Qed.
(** Every step of a run without failures keeps the activations good and
    moves the store towards the expected destination. *)
Lemma Good_step cd th : ∀ n s d w t w' t',
  fault_free n → names_unique n → placed fin d n →
  agrees fin (fs w) → closed w = false →
  Good fin (fs w) n s d t →
  step cd th w t = Some (w', t') →
  Good fin (fs w') n s d t'
  ∧ (∀ p, fs w' !! p = fs w !! p ∨ fs w' !! p = fin p)
  ∧ closed w' = false ∧ panicked w' = panicked w.
Proof.
  induction th as [| i | i th IH];
    intros n s d w [f kids] w' t' Hff Hnu Hpl Hag Hopen Hg Hstep;
    simpl in Hstep.
  - by eapply Good_step_here.
  - destruct (kids !! i) as [[g callee] |] eqn:Hi; [| done].
    destruct (step_around f g callee) as [[f' g'] |] eqn:Hst;
      simplify_eq/=.
    split; [| by repeat split; try left].
    by eapply Good_step_around.
  - destruct (kids !! i) as [[g callee] |] eqn:Hi; [| done].
    destruct (step cd th w callee) as [[w1 callee'] |] eqn:Hst;
      simplify_eq/=.
    apply Good_inv in Hg
      as (flt & entries & done & rest & Hn & Hs & Hsn & Hd & He & Hsplit
          & Hpc & Hfiles & Hkids & Hcount & Hwg).
    simpl in *. subst n entries s d.
    destruct (Forall2_lookup_r _ _ _ _ _ Hkids Hi)
      as ([name child] & Hei & Hgk & Hres).
    simpl in Hgk, Hres.
    assert (Hin : (name, child) ∈ done ++ rest ∧ IsDir child = true).
    { apply list_elem_of_lookup_2 in Hei. unfold dir_entries in Hei.
      apply list_elem_of_filter in Hei as [Hdir Hin]. split; [| done].
      apply elem_of_app. by left. }
    destruct Hin as [Hin Hdir].
    apply fault_free_Dir in Hff as [-> Hff].
    apply names_unique_Dir in Hnu as [Hnd Hnu].
    rewrite Forall_forall in Hff, Hnu.
    destruct (placed_child fin _ _ _ _ _ Hpl Hnd Hin) as [_ Hplc].
    destruct (IH child _ _ w callee w' callee'
                (Hff _ Hin) (Hnu _ Hin) (Hplc Hdir) Hag Hopen Hgk Hst)
      as (Hgk' & Htow & Hopen' & Hpan).
    pose proof (towards_mono _ _ Htow) as Hmono.
    split; [| done].
    apply (Good_task fin _ _ _ _ _ _ _ done rest); simpl; try done.
    + destruct (at_pc f);
        first [ done
              | destruct Hpc as (? & ? & ? & ? & ?); auto 10
              | destruct Hpc; auto ].
    + intros e He'. apply Hmono. by apply Hfiles.
    + rewrite <- (list_insert_id (dir_entries done) i _ Hei).
      apply Forall2_insert.
      * eapply Forall2_impl; [exact Hkids |].
        intros e k [Hge Hre]. split; [| done].
        by apply (Good_mono (fs w)).
      * simpl. split; [done |]. intros Hne.
        apply (step_result _ _ _ _ _ _ _ Hst). by apply Hres.
    + rewrite Hcount. rewrite (merged_sum_insert _ _ _ _ _ _ Hei Hi).
      unfold merged. simpl. f_equal. lia.
    + rewrite (sumZ_insert galive _ _ _ _ Hi), Hwg.
      unfold galive. simpl. lia.
Qed.
End good.

(** ** Runs are bounded *)

Lemma cost_Dir flt entries :
  cost (Dir flt entries) = (4 + cost_list entries)%nat.
Proof.
  induction entries as [| [name child] es IH]; [done |].
  simpl in *. lia.
Qed.

Lemma task_cost_Task f kids :
  task_cost (Task f kids) = (own_cost f + kids_cost kids)%nat.
Proof.
  induction kids as [| [g k] ks IH]; [done |].
  simpl in *. lia.
Qed.

Lemma kids_cost_app ks1 ks2 :
  kids_cost (ks1 ++ ks2) = (kids_cost ks1 + kids_cost ks2)%nat.
Proof.
  induction ks1 as [| [g k] ks IH]; [done |].
  cbn [kids_cost app]. rewrite IH. lia.
Qed.

Lemma kids_cost_insert ks : ∀ i g k g' k',
  ks !! i = Some (g, k) →
  (kids_cost (<[i:=(g', k')]> ks) + stage_cost g + task_cost k
   = kids_cost ks + stage_cost g' + task_cost k')%nat.
Proof.
  induction ks as [| [g0 k0] ks IH]; intros [| i] g k g' k' Hi;
    simpl in Hi; simplify_eq.
  - change (<[0%nat:=(g', k')]> ((g, k) :: ks)) with ((g', k') :: ks).
    cbn [kids_cost]. lia.
  - change (<[S i:=(g', k')]> ((g0, k0) :: ks))
      with ((g0, k0) :: <[i:=(g', k')]> ks).
    cbn [kids_cost]. pose proof (IH i g k g' k' Hi). lia.
Qed.

Lemma task_cost_start s n d :
  task_cost (CopyFilesAndDirectory s n d) = (4 + cost_list (entries_of n))%nat.
Proof.
  unfold CopyFilesAndDirectory. rewrite task_cost_Task. simpl.
  unfold own_cost. simpl. lia.
Qed.

Lemma step_around_cost f g callee f' g' :
  step_around f g callee = Some (f', g') →
  own_cost f' = own_cost f ∧ stage_cost g = S (stage_cost g').
Proof.
  unfold step_around. intros H.
  repeat (case_match; simplify_eq/=); done.
Qed.

(** A step takes the task closer to its end, or it is the send on the
    closed channel. *)
Lemma step_here_cases cd w f kids w' t' :
  step_here cd w f kids = Some (w', t') →
  ((task_cost t' < task_cost (Task f kids))%nat
   ∧ panicked w' = panicked w ∧ closed w' = closed w)
  ∨ (t' = Task f kids ∧ panicked w' = true ∧ closed w = true).
Proof.
  intros Hstep. unfold step_here in Hstep.
  rewrite (task_cost_Task f kids).
  destruct (at_pc f) as [| | [| [name [data flt | flt sub]] rest] | rest
                         | rest | |] eqn:Epc.
  - left. destruct (ensure_destination _ _ _) as [? [? |]]; simplify_eq;
      rewrite task_cost_Task; unfold own_cost; simpl; rewrite Epc;
      repeat split; lia.
  - left.
    destruct (sourceNode f) as [data flt | flt entries] eqn:En; simpl in Hstep.
    + simplify_eq. rewrite task_cost_Task. unfold own_cost. simpl.
      rewrite Epc. repeat split; lia.
    + destruct (list_err flt); simplify_eq; rewrite task_cost_Task;
        unfold own_cost; simpl; rewrite Epc, ?En; simpl; repeat split; lia.
  - left. simplify_eq. rewrite task_cost_Task. unfold own_cost. simpl.
    rewrite Epc. repeat split; lia.
  - left. destruct (copy_file _ _ _ _ _ _ _) as [st [err |]]; simplify_eq;
      rewrite task_cost_Task; unfold own_cost; simpl; rewrite Epc;
      simpl; repeat split; lia.
  - left. simplify_eq. rewrite task_cost_Task, kids_cost_app.
    cbn [kids_cost]. rewrite task_cost_start. unfold own_cost. simpl.
    rewrite Epc. cbn [cost_list IsDir]. rewrite cost_Dir. repeat split; lia.
  - destruct (closed w) eqn:Hc; simplify_eq.
    + by right.
    + left. rewrite task_cost_Task. unfold own_cost. simpl. rewrite Epc.
      repeat split; try done; lia.
  - left. simplify_eq. rewrite task_cost_Task. unfold own_cost. simpl.
    rewrite Epc. repeat split; lia.
  - left. case_decide; simplify_eq. rewrite task_cost_Task. unfold own_cost.
    simpl. rewrite Epc. repeat split; lia.
  - done.
Qed.

Lemma step_cases cd th : ∀ w t w' t',
  step cd th w t = Some (w', t') →
  ((task_cost t' < task_cost t)%nat
   ∧ panicked w' = panicked w ∧ closed w' = closed w)
  ∨ (t' = t ∧ panicked w' = true ∧ closed w = true).
Proof.
  induction th as [| i | i th IH]; intros w [f kids] w' t' Hstep;
    simpl in Hstep.
  - by eapply step_here_cases.
  - left. destruct (kids !! i) as [[g callee] |] eqn:Hi; [| done].
    destruct (step_around f g callee) as [[f' g'] |] eqn:Hst; simplify_eq.
    apply step_around_cost in Hst as [Ho Hs].
    rewrite !task_cost_Task, Ho.
    pose proof (kids_cost_insert kids i g callee g' callee Hi).
    repeat split; try done; lia.
  - destruct (kids !! i) as [[g callee] |] eqn:Hi; [| done].
    destruct (step cd th w callee) as [[w1 callee'] |] eqn:Hst; simplify_eq.
    destruct (IH _ _ _ _ Hst) as [(Hc & Hp & Hcl) | (-> & Hp & Hcl)].
    + left. rewrite !task_cost_Task.
      pose proof (kids_cost_insert kids i g callee g callee' Hi).
      repeat split; try done; lia.
    + right. by rewrite list_insert_id.
Qed.

Lemma step_cost cd th w t w' t' :
  closed w = false →
  step cd th w t = Some (w', t') →
  (task_cost t' < task_cost t)%nat.
Proof.
  intros Hopen Hstep.
  destruct (step_cases _ _ _ _ _ _ Hstep) as [(Hc & _) | (_ & _ & Hcl)];
    [done | congruence].
Qed.

(** ** Runs without failures do not get stuck *)

Lemma sumZ_galive_pos ks :
  sumZ galive ks ≠ 0 → ∃ i k, ks !! i = Some k ∧ k.1 ≠ GExit.
Proof.
  induction ks as [| x ks IH]; simpl; [done |].
  intros H. destruct (decide (x.1 = GExit)) as [Hx | Hx].
  - destruct IH as (i & k & Hi & Hk).
    + unfold galive in H at 1. rewrite decide_True in H by done. lia.
    + by exists (S i), k.
  - by exists 0%nat, x.
Qed.

Lemma step_here_enabled cd w f kids :
  (∀ c e, at_pc f ≠ Ret c e) → (at_pc f = Wait → waitGroup f = 0) →
  ∃ c, step_here cd w f kids = Some c.
Proof.
  intros Hret Hwait. unfold step_here.
  destruct (at_pc f) as [| | [| [name [data flt | flt sub]] rest] | rest
                         | rest | | c e]; try by eexists.
  - destruct (ensure_destination _ _ _) as [? [? |]]; by eexists.
  - destruct (ReadDir_copy _ _); by eexists.
  - destruct (copy_file _ _ _ _ _ _ _) as [st [err |]]; by eexists.
  - destruct (closed w); by eexists.
  - rewrite decide_True by auto. by eexists.
  - by destruct (Hret c e).
Qed.

Lemma Good_progress cd fin n : ∀ st s d t w,
  Good fin st n s d t → result t = None →
  ∃ th c, step cd th w t = Some c.
Proof.
  induction n as [data flt | flt entries IH] using node_induction;
    intros st s d [f kids] w Hg Hr.
  { apply Good_inv in Hg as (? & ? & ? & ? & ? & _). done. }
  pose proof Hg as Hg0.
  apply Good_inv in Hg
    as (flt' & entries' & done & rest & Hn & Hs & Hsn & Hd & He & Hsplit
        & Hpc & Hfiles & Hkids & Hcount & Hwg).
  simpl in *. simplify_eq.
  unfold result in Hr. simpl in Hr.
  assert (Hhere : (at_pc f = Wait → waitGroup f = 0) →
                  ∃ th c, step cd th w (Task f kids) = Some c).
  { intros Hw. exists Here. simpl. apply step_here_enabled; [| done].
    intros c e E. by rewrite E in Hr. }
  destruct (decide (waitGroup f = 0)) as [Hz | Hnz]; [by apply Hhere |].
  destruct (at_pc f) eqn:Epc; try (by apply Hhere).
  (* line 130 with goroutines still running *)
  rewrite Hwg in Hnz.
  destruct (sumZ_galive_pos kids Hnz) as (i & [g callee] & Hi & Hne).
  simpl in Hne.
  destruct (Forall2_lookup_r _ _ _ _ _ Hkids Hi)
    as ([name child] & Hei & Hgk & Hres).
  simpl in Hgk, Hres.
  destruct g; [| | | done].
  - destruct (result callee) as [[c e] |] eqn:Hrc.
    + exists (Around i). simpl. rewrite Hi. simpl. rewrite Hrc.
      by eexists.
    + assert (Hin : (name, child) ∈ done ++ rest).
      { apply list_elem_of_lookup_2 in Hei. unfold dir_entries in Hei.
        apply list_elem_of_filter in Hei as [_ Hin].
        apply elem_of_app. by left. }
      rewrite Forall_forall in IH.
      destruct (IH _ Hin _ _ _ _ w Hgk Hrc) as (th & c & Hc).
      exists (Inside i th). simpl. rewrite Hi, Hc.
      destruct c. by eexists.
  - exists (Around i). simpl. rewrite Hi. simpl.
    rewrite (Hres ltac:(done)). by eexists.
  - exists (Around i). simpl. rewrite Hi. simpl. by eexists.
Qed.

(** ** Activations in any run *)

Lemma task_induction (P : task → Prop) :
  (∀ f kids, Forall (λ k, P k.2) kids → P (Task f kids)) → ∀ t, P t.
Proof.
  intros H. fix IH 1. intros [f kids]. apply H.
  induction kids as [| [g k] ks IHks]; constructor; [apply IH | apply IHks].
Qed.

Lemma WF_inv f kids :
  WF (Task f kids) →
  waitGroup f = sumZ galive kids
  ∧ Forall (λ k, (k.1 ≠ GCall → is_Some (result k.2)) ∧ WF k.2) kids.
Proof. by inversion 1. Qed.

Lemma WF_start s n d : WF (CopyFilesAndDirectory s n d).
Proof. by constructor. Qed.

Lemma step_here_kids cd w f kids w' f' kids' :
  step_here cd w f kids = Some (w', Task f' kids') →
  (kids' = kids ∧ waitGroup f' = waitGroup f)
  ∨ (∃ s n d, kids' = kids ++ [(GCall, CopyFilesAndDirectory s n d)]
              ∧ waitGroup f' = waitGroup f + 1).
Proof.
  unfold step_here. intros H.
  repeat (case_match; simplify_eq/=); try (by left).
  right. by eexists _, _, _.
Qed.

Lemma step_around_stage f g callee f' g' :
  step_around f g callee = Some (f', g') →
  waitGroup f' - galive (g', callee) = waitGroup f - galive (g, callee)
  ∧ (g = GCall → is_Some (result callee)).
Proof.
  unfold step_around, galive. intros H.
  destruct g; simpl in *; repeat (case_match; simplify_eq); simpl;
    split; try lia; try done; by eexists.
Qed.

Lemma WF_step cd th : ∀ w t w' t',
  WF t → step cd th w t = Some (w', t') → WF t'.
Proof.
  induction th as [| i | i th IH]; intros w [f kids] w' t' Hwf Hstep;
    apply WF_inv in Hwf as [Hwg Hkids]; simpl in Hstep.
  - destruct t' as [f' kids'].
    destruct (step_here_kids _ _ _ _ _ _ _ Hstep)
      as [[-> Hw] | (s & n & d & -> & Hw)].
    + constructor; [congruence | done].
    + constructor.
      * rewrite Hw, Hwg, sumZ_app. cbn [sumZ].
        change (galive (GCall, ?t)) with 1. lia.
      * apply Forall_app. split; [done |].
        constructor; [| constructor]. split; [done | apply WF_start].
  - destruct (kids !! i) as [[g callee] |] eqn:Hi; [| done].
    destruct (step_around f g callee) as [[f' g'] |] eqn:Hst; simplify_eq.
    pose proof (Forall_lookup_1 _ _ _ _ Hkids Hi) as [Hres Hwfc].
    simpl in Hres, Hwfc.
    apply step_around_stage in Hst as [Hst Hcall].
    constructor.
    + rewrite (sumZ_insert galive _ _ _ _ Hi). lia.
    + apply Forall_insert; [done |]. split; [| done]. simpl. intros _.
      destruct (decide (g = GCall)) as [-> | Hg]; [by apply Hcall |].
      by apply Hres.
  - destruct (kids !! i) as [[g callee] |] eqn:Hi; [| done].
    destruct (step cd th w callee) as [[w1 callee'] |] eqn:Hst; simplify_eq.
    pose proof (Forall_lookup_1 _ _ _ _ Hkids Hi) as [Hres Hwfc].
    simpl in Hres, Hwfc.
    constructor.
    + rewrite (sumZ_insert galive _ _ _ _ Hi).
      assert (galive (g, callee') = galive (g, callee)) as -> by done. lia.
    + apply Forall_insert; [done |]. split.
      * simpl. intros Hg. destruct (Hres Hg) as [r Hr].
        rewrite (step_result _ _ _ _ _ _ _ Hst Hr). by eexists.
      * simpl. by eapply IH.
Qed.

Lemma WF_progress cd w t :
  WF t → result t = None → ∃ th c, step cd th w t = Some c.
Proof.
  induction t as [f kids IH] using task_induction. intros Hwf Hr.
  apply WF_inv in Hwf as [Hwg Hkids].
  unfold result in Hr. simpl in Hr.
  assert (Hhere : (at_pc f = Wait → waitGroup f = 0) →
                  ∃ th c, step cd th w (Task f kids) = Some c).
  { intros Hw. exists Here. simpl. apply step_here_enabled; [| done].
    intros c e E. by rewrite E in Hr. }
  destruct (decide (waitGroup f = 0)) as [Hz | Hnz]; [by apply Hhere |].
  destruct (at_pc f) eqn:Epc; try (by apply Hhere).
  rewrite Hwg in Hnz.
  destruct (sumZ_galive_pos kids Hnz) as (i & [g callee] & Hi & Hne).
  simpl in Hne.
  pose proof (Forall_lookup_1 _ _ _ _ Hkids Hi) as [Hres Hwfc].
  pose proof (Forall_lookup_1 _ _ _ _ IH Hi) as IHc.
  simpl in Hres, Hwfc, IHc.
  destruct (result callee) as [[c e] |] eqn:Hrc.
  - exists (Around i). simpl. rewrite Hi. unfold step_around. rewrite Hrc.
    destruct g; try done; try (by eexists).
    destruct e; destruct (firstErr f); by eexists.
  - destruct g; try done;
      try (by destruct (Hres ltac:(done)) as [? ?]).
    destruct (IHc Hwfc eq_refl) as (th & [w1 c1] & Hc).
    exists (Inside i th). simpl. rewrite Hi, Hc. by eexists.
Qed.

Lemma run_total cd ths : ∀ w t w' t',
  WF t → run cd ths (w, t) = Some (w', t') →
  WF t'
  ∧ (length ths + task_cost t' + (if panicked w' then 0 else 1)
     ≤ task_cost t + (if panicked w then 0 else 1))%nat.
Proof.
  induction ths as [| th ths IH]; intros w t w' t' Hwf Hrun; simpl in Hrun.
  - simplify_eq. split; [done | simpl; lia].
  - unfold sched in Hrun. simpl in Hrun.
    destruct (panicked w) eqn:Hpan; [done |].
    destruct (step cd th w t) as [[w1 t1] |] eqn:Hst; [| done].
    pose proof (WF_step _ _ _ _ _ _ Hwf Hst) as Hwf1.
    destruct (IH _ _ _ _ Hwf1 Hrun) as [Hwf' Hlen]. split; [done |].
    destruct (step_cases _ _ _ _ _ _ Hst) as [(Hc & Hp & _) | (-> & Hp & _)].
    + rewrite Hp, Hpan in Hlen. simpl. lia.
    + rewrite Hp in Hlen. simpl. lia.
Qed.

(** X7. Every run of [CopyFilesAndDirectory], failures or not, is bounded,
    and unless a goroutine has panicked it can go on until the call has
    returned: the wait of line 130 cannot block for ever. *)
Theorem CopyFilesAndDirectory_total (cd : CopyDirectory) (n : node)
  (s d : path) (w w' : world) (ths : list thread) (t' : task) :
  run cd ths (w, CopyFilesAndDirectory s n d) = Some (w', t') →
  (length ths ≤ 5 + cost_list (entries_of n))%nat
  ∧ (panicked w' = false → result t' = None →
     ∃ th c, sched cd th (w', t') = Some c).
Proof.
  intros Hrun.
  destruct (run_total cd ths w _ w' t' (WF_start s n d) Hrun) as [Hwf Hlen].
  split.
  - rewrite task_cost_start in Hlen.
    destruct (panicked w), (panicked w'); lia.
  - intros Hpan Hr. unfold sched. simpl. rewrite Hpan.
    by apply WF_progress.
Qed.

(** ** The expected destination *)

Lemma final_at_prefix st0 d n p :
  p `prefix_of` d → final_at st0 d n p = Some DirE.
Proof. intros Hp. unfold final_at. by rewrite decide_True. Qed.

Lemma final_at_tree st0 d n q e :
  IsDir n = true → tree_lookup n q = Some e →
  final_at st0 d n (d ++ q) = Some e.
Proof.
  intros Hdir Hq. unfold final_at. case_decide as Hp.
  - assert (q = []) as ->.
    { apply prefix_length in Hp. rewrite length_app in Hp.
      destruct q; [done | simpl in Hp; lia]. }
    simpl in Hq. destruct n; simplify_eq/=. done.
  - by rewrite below_app, Hq.
Qed.

Lemma final_at_cases st0 d n p :
  p `prefix_of` d
  ∨ (∃ q e, p = d ++ q ∧ tree_lookup n q = Some e)
  ∨ final_at st0 d n p = st0 !! p.
Proof.
  unfold final_at. case_decide as Hp; [by left | right].
  destruct (below d p) as [q |] eqn:Hb; [| by right].
  apply below_Some in Hb as ->.
  destruct (tree_lookup n q) as [e |] eqn:Hq; [| by right].
  left. by exists q, e.
Qed.

Lemma placed_final_at st0 d n :
  IsDir n = true → placed (final_at st0 d n) d n.
Proof.
  intros Hdir. split.
  - intros p Hp. by apply final_at_prefix.
  - intros q e Hq. by apply final_at_tree.
Qed.

Lemma final_at_fresh st0 d n q :
  IsDir n = true → (∀ q', st0 !! (d ++ q') = None) →
  final_at st0 d n (d ++ q) = tree_lookup n q.
Proof.
  intros Hdir Hfresh.
  destruct (tree_lookup n q) as [e |] eqn:Hq.
  - by apply final_at_tree.
  - unfold final_at. case_decide as Hp.
    + assert (q = []) as ->.
      { apply prefix_length in Hp. rewrite length_app in Hp.
        destruct q; [done | simpl in Hp; lia]. }
      done.
    + by rewrite below_app, Hq.
Qed.

(** ** Runs of CopyFilesAndDirectory without failures *)

Section runs.
Variable cd : CopyDirectory.
Variable fin : path → option dentry.
Variable n : node.
Variables s d : path.
Hypothesis Hff : fault_free n.
Hypothesis Hnu : names_unique n.
Hypothesis Hpl : placed fin d n.

Lemma Good_run ths : ∀ w t w' t',
  agrees fin (fs w) → closed w = false → panicked w = false →
  Good fin (fs w) n s d t →
  run cd ths (w, t) = Some (w', t') →
  Good fin (fs w') n s d t'
  ∧ agrees fin (fs w') ∧ closed w' = false ∧ panicked w' = false
  ∧ (∀ p, fs w' !! p = fs w !! p ∨ fs w' !! p = fin p)
  ∧ (length ths + task_cost t' ≤ task_cost t)%nat.
Proof.
  induction ths as [| th ths IH]; intros w t w' t' Hag Hopen Hpan Hg Hrun.
  - simpl in Hrun. simplify_eq. repeat split; try done; try (by left).
  - simpl in Hrun. unfold sched in Hrun. simpl in Hrun.
    rewrite Hpan in Hrun.
    destruct (step cd th w t) as [[w1 t1] |] eqn:Hst; [| done].
    destruct (Good_step fin cd th n s d w t w1 t1 Hff Hnu Hpl Hag Hopen
                Hg Hst) as (Hg1 & Htow & Hopen1 & Hpan1).
    pose proof (agrees_towards fin _ _ Hag Htow) as Hag1.
    rewrite Hpan in Hpan1.
    destruct (IH w1 t1 w' t' Hag1 Hopen1 Hpan1 Hg1 Hrun)
      as (Hg' & Hag' & Hopen' & Hpan' & Htow' & Hlen).
    pose proof (step_cost cd th w t w1 t1 Hopen Hst) as Hc.
    repeat split; try done.
    + intros p. destruct (Htow' p) as [Hp | Hp]; [| by right].
      rewrite Hp. apply Htow.
    + simpl. lia.
Qed.
End runs.

(** From a returned good activation: the store is the expected one. *)
Lemma Good_final (st0 : gmap (list string) dentry) (d : path) (n : node)
  (s : path) (st : gmap (list string) dentry) (t : task) :
  IsDir n = true →
  Good (final_at st0 d n) st n s d t → is_Some (result t) →
  (∀ p, st !! p = st0 !! p ∨ st !! p = final_at st0 d n p) →
  ∀ p, st !! p = final_at st0 d n p.
Proof.
  intros Hdir Hg Hr Hbetween p.
  destruct (final_at_cases st0 d n p) as [Hp | [(q & e & -> & Hq) | Hp]].
  - apply Good_inv in Hg
      as (flt & entries & done & rest & Hn & Hs & Hsn & Hd & He & Hsplit
          & Hpc & Hfiles & Hkids & Hcount & Hwg).
    destruct Hr as [r Hr]. unfold result in Hr.
    destruct (at_pc (frame_of t)); try done.
    destruct Hpc as (_ & Hchain & _). by apply Hchain.
  - by eapply Good_settled.
  - destruct (Hbetween p) as [H | H]; [| done]. by rewrite H, Hp.
Qed.

(** The copy of a tree by [CopyFilesAndDirectory] when no call fails: every
    run is bounded, keeps going until the call has returned, and then the
    count is the number of leaves, there is no error, the store is the
    expected one and no thread is left that can move. *)
Theorem CopyFilesAndDirectory_correct (cd : CopyDirectory) (n : node)
  (s d : path) (st0 : store) (k : nat) (ths : list thread)
  (w' : world) (t' : task) :
  IsDir n = true → fault_free n → names_unique n → compatible st0 d n →
  run cd ths (World st0 false k false, CopyFilesAndDirectory s n d)
  = Some (w', t') →
  (length ths ≤ cost n)%nat
  ∧ panicked w' = false
  ∧ (result t' = None → ∃ th c, sched cd th (w', t') = Some c)
  ∧ (∀ r, result t' = Some r →
          r = (wrap (Z.of_nat (leaves n)), None)
          ∧ (∀ p, fs w' !! p = final_at st0 d n p)
          ∧ quiescent cd (w', t')).
Proof.
  intros Hdir Hff Hnu Hcompat Hrun.
  destruct n as [data flt | flt entries]; [done |].
  pose proof (placed_final_at st0 d (Dir flt entries) Hdir) as Hpl.
  destruct (Good_run cd _ _ s d Hff Hnu Hpl ths
              (World st0 false k false) _ _ _ Hcompat eq_refl
              eq_refl (Good_start _ st0 flt entries s d) Hrun)
    as (Hg & Hag & Hopen & Hpan & Htow & Hlen).
  simpl in Htow.
  split; [| split; [done | split]].
  - rewrite task_cost_start in Hlen. rewrite cost_Dir. simpl in Hlen. lia.
  - intros Hr. unfold sched. simpl. rewrite Hpan.
    by eapply Good_progress.
  - intros [c e] Hr. split; [| split].
    + destruct (Good_result _ _ _ _ _ _ _ _ Hg Hr) as [-> ->]. done.
    + eapply Good_final; eauto.
    + intros th. unfold sched. simpl. rewrite Hpan.
      eapply Good_quiescent; eauto.
Qed.

(** ** Copy without failures *)

Lemma fault_free_listable n : fault_free n → listable n.
Proof.
  induction n as [data flt | flt entries IH] using node_induction; [done |].
  rewrite fault_free_Dir, listable_Dir. intros [-> Hff]. split; [done |].
  induction entries as [| [name child] es IHes]; [done |].
  apply Forall_cons in IH as [IH1 IH2]. apply Forall_cons in Hff as [H1 H2].
  simpl. split; [by apply IH1 | by apply IHes].
Qed.

Section copy.
Variable cd : CopyDirectory.
Variable n : node.
Variables source destination : path.
Variable st0 : gmap (list string) dentry.
Hypothesis Hdir : IsDir n = true.
Hypothesis Hff : fault_free n.
Hypothesis Hnu : names_unique n.
Hypothesis Hcompat : compatible st0 destination n.

Lemma copy_inv_init : copy_inv n source destination st0 (Copy_init st0).
Proof. unfold copy_inv. simpl. repeat split; try done. by left. Qed.

Lemma copy_inv_step x s s' :
  copy_inv n source destination st0 s →
  Copy_step cd source n destination x s = Some s' →
  copy_inv n source destination st0 s'
  ∧ (copy_cost n s' < copy_cost n s)%nat.
Proof.
  intros (Hpan & Hbetween & Hpc) Hstep.
  unfold Copy_step in Hstep. rewrite Hpan in Hstep.
  pose proof (placed_final_at st0 destination n Hdir) as Hpl.
  destruct x as [| th].
  - (* the main thread *)
    destruct (cpc s) as [| total | c e | c e] eqn:Epc.
    + destruct Hpc as [Ht Hopen].
      rewrite (CountFiles_listable n source Hdir
                 (fault_free_listable n Hff)) in Hstep.
      simplify_eq. split.
      * unfold copy_inv. simpl. repeat split; try done.
        eexists. split; [done |]. destruct n; [done |]. apply Good_start.
      * unfold copy_cost. rewrite Epc. cbn [cpc ctask from_option].
        rewrite task_cost_start. destruct n; [done |].
        rewrite cost_Dir. simpl. lia.
    + destruct Hpc as (Hopen & t & Ht & Hg). rewrite Ht in Hstep.
      destruct (result t) as [[c e] |] eqn:Hr; simplify_eq.
      split; [| unfold copy_cost; rewrite Epc; simpl; lia].
      unfold copy_inv. simpl. repeat split; try done. by exists t.
    + simplify_eq.
      split; [| unfold copy_cost; rewrite Epc; simpl; lia].
      unfold copy_inv. simpl. by repeat split.
    + done.
  - (* a thread of the copier *)
    destruct (ctask s) as [t |] eqn:Ht; [| done].
    destruct (step cd th (cworld s) t) as [[w' t'] |] eqn:Hst;
      simplify_eq.
    destruct (cpc s) as [| total | c e | c e] eqn:Epc.
    + by destruct Hpc.
    + destruct Hpc as (Hopen & t0 & Ht0 & Hg). simplify_eq.
      pose proof (agrees_towards _ _ _ Hcompat Hbetween) as Hag.
      destruct (Good_step _ cd th n source destination _ _ _ _
                  Hff Hnu Hpl Hag Hopen Hg Hst)
        as (Hg' & Htow & Hopen' & Hpan').
      pose proof (step_cost cd th _ _ _ _ Hopen Hst) as Hc.
      split; [| unfold copy_cost; rewrite Epc, Ht; simpl; lia].
      unfold copy_inv. simpl.
      split; [congruence |]. split.
      * intros p. destruct (Htow p) as [Hp | Hp]; [| by right].
        rewrite Hp. apply Hbetween.
      * split; [done |]. by exists t'.
    + destruct Hpc as (t0 & Ht0 & Hg & Hr). simplify_eq.
      by rewrite (Good_quiescent _ cd th _ _ _ _ _ (cworld s) Hg) in Hst.
    + destruct Hpc as (t0 & Ht0 & Hg & Hr). simplify_eq.
      by rewrite (Good_quiescent _ cd th _ _ _ _ _ (cworld s) Hg) in Hst.
Qed.

Lemma copy_inv_run who : ∀ s s',
  copy_inv n source destination st0 s →
  Copy_run cd source n destination who s = Some s' →
  copy_inv n source destination st0 s'
  ∧ (length who + copy_cost n s' ≤ copy_cost n s)%nat.
Proof.
  induction who as [| x who IH]; intros s s' Hinv Hrun; simpl in Hrun.
  - simplify_eq. split; [done | simpl; lia].
  - destruct (Copy_step cd source n destination x s) as [s1 |] eqn:Hst;
      [| done].
    destruct (copy_inv_step _ _ _ Hinv Hst) as [Hinv1 Hc1].
    destruct (IH _ _ Hinv1 Hrun) as [Hinv' Hc']. split; [done |].
    simpl. lia.
Qed.

Lemma copy_inv_progress s :
  copy_inv n source destination st0 s →
  (∀ c e, cpc s ≠ CopyRet c e) →
  ∃ x s', Copy_step cd source n destination x s = Some s'.
Proof.
  intros (Hpan & Hbetween & Hpc) Hnr. unfold Copy_step. rewrite Hpan.
  destruct (cpc s) as [| total | c e | c e] eqn:Epc.
  - exists Main.
    destruct (CountFiles source n) as [c [e |]]; by eexists.
  - destruct Hpc as (Hopen & t & Ht & Hg).
    destruct (result t) as [[c e] |] eqn:Hr.
    + exists Main. rewrite Ht, Hr. by eexists.
    + destruct (Good_progress cd _ _ _ _ _ _ (cworld s) Hg Hr)
        as (th & [w' t'] & Hst).
      exists (Worker th). rewrite Ht, Hst. by eexists.
  - exists Main. by eexists.
  - by destruct (Hnr c e).
Qed.
End copy.

(** C1, with the conditions it needs.  For a source directory tree on
    which no call fails, with the names of each directory distinct, and a
    destination that does not lie inside the source, nor the source inside
    it, and that has no file where the copy needs a directory (on the way
    to the destination, or where the tree has a directory) and no
    directory where the tree has a file: every run of [Copy] takes at most
    [cost n + 3] steps, never panics, and can go on until [Copy] has
    returned; and when it has returned, the count is the one of
    [CountFiles], there is no error, the destination has at every relative
    path of the tree what the tree has there (a directory, or a file with
    the same bytes), everything else is as before, and on a destination
    that had nothing below [destination] the paths below it are exactly
    those of the tree.  Without the condition on the destination the
    statement fails: [Copy_onto_a_file]. *)
Theorem C1_Copy_copies_tree (cd : CopyDirectory) (source : path) (n : node)
  (destination : path) (st0 : store) (who : list copy_thread)
  (s : copy_state) :
  IsDir n = true → fault_free n → names_unique n →
  apart source destination → compatible st0 destination n →
  Copy_run cd source n destination who (Copy_init st0) = Some s →
  (length who ≤ cost n + 3)%nat
  ∧ panicked (cworld s) = false
  ∧ ((∀ c e, cpc s ≠ CopyRet c e) →
     ∃ x s', Copy_step cd source n destination x s = Some s')
  ∧ (∀ c e, cpc s = CopyRet c e →
       CountFiles source n = (c, None) ∧ e = None
       ∧ (∀ q ent, tree_lookup n q = Some ent →
                   fs (cworld s) !! (destination ++ q) = Some ent)
       ∧ (∀ p, fs (cworld s) !! p = final_at st0 destination n p)
       ∧ ((∀ q, st0 !! (destination ++ q) = None) →
          ∀ q, fs (cworld s) !! (destination ++ q) = tree_lookup n q)).
Proof.
  intros Hdir Hff Hnu _ Hcompat Hrun.
  destruct (copy_inv_run cd n source destination st0 Hdir Hff Hnu Hcompat
              who _ _ (copy_inv_init n source destination st0) Hrun)
    as [Hinv Hlen].
  split; [| split; [| split]].
  - unfold copy_cost in Hlen at 2. simpl in Hlen. lia.
  - apply Hinv.
  - by apply (copy_inv_progress cd n source destination st0).
  - intros c e Hret. destruct Hinv as (Hpan & Hbetween & Hpc).
    rewrite Hret in Hpc. destruct Hpc as (t & Ht & Hg & Hr).
    destruct (Good_result _ _ _ _ _ _ _ _ Hg Hr) as [-> ->].
    assert (Hfinal : ∀ p, fs (cworld s) !! p = final_at st0 destination n p).
    { eapply Good_final; eauto. }
    split; [| split; [done | split; [| split; [done |]]]].
    + apply CountFiles_listable; [done | by apply fault_free_listable].
    + intros q ent Hq. rewrite Hfinal. by apply final_at_tree.
    + intros Hfresh q. rewrite Hfinal. by apply final_at_fresh.
Qed.



Lemma tree_plain_fault_free : fault_free tree_plain.
Proof. simpl. tauto. Qed.

Lemma tree_plain_names_unique : names_unique tree_plain.
Proof. simpl. repeat split; by apply (bool_decide_unpack _). Qed.

(** A destination with nothing at or below [dst], and no file on the way
    down to it, is compatible with every tree. *)
Lemma compatible_fresh (st0 : gmap (list string) dentry) (dst : path)
  (n : node) :
  (∀ p, p `prefix_of` dst → not_file (st0 !! p)) →
  (∀ q, q ≠ [] → st0 !! (dst ++ q) = None) →
  compatible st0 dst n.
Proof.
  intros Hway Hbelow p.
  destruct (final_at_cases st0 dst n p) as [Hp | [(q & e & -> & Hq) | Hp]].
  - rewrite final_at_prefix by done.
    by destruct (Hway p Hp) as [-> | ->].
  - destruct q as [| x q].
    + rewrite app_nil_r, final_at_prefix by done.
      by destruct (Hway dst ltac:(done)) as [-> | ->].
    + by rewrite Hbelow.
  - rewrite Hp. unfold agree. by destruct (st0 !! p) as [[| ?] |].
Qed.

Lemma empty_compatible dst n : compatible ∅ dst n.
Proof. intros p. by rewrite lookup_empty. Qed.

Lemma C1_witness :
  ∃ s,
    Copy_run cd_default ["src"%string] tree_plain ["dst"%string]
      schedule_Copy (Copy_init ∅) = Some s
    ∧ cpc s = CopyRet 3 None
    ∧ (length schedule_Copy ≤ cost tree_plain + 3)%nat
    ∧ panicked (cworld s) = false
    ∧ ((∀ c e, cpc s ≠ CopyRet c e) →
       ∃ x s', Copy_step cd_default ["src"%string] tree_plain
                 ["dst"%string] x s = Some s')
    ∧ (∀ c e, cpc s = CopyRet c e →
         CountFiles ["src"%string] tree_plain = (c, None) ∧ e = None
         ∧ (∀ q ent, tree_lookup tree_plain q = Some ent →
                     fs (cworld s) !! (["dst"%string] ++ q) = Some ent)
         ∧ (∀ p, fs (cworld s) !! p
                 = final_at ∅ ["dst"%string] tree_plain p)
         ∧ ((∀ q, (∅ : gmap (list string) dentry) !! (["dst"%string] ++ q)
                  = None) →
            ∀ q, fs (cworld s) !! (["dst"%string] ++ q)
                 = tree_lookup tree_plain q)).
Proof.
  eexists. split; [vm_compute; reflexivity |]. split; [reflexivity |].
  apply (C1_Copy_copies_tree cd_default ["src"%string] tree_plain
           ["dst"%string] ∅ schedule_Copy).
  - reflexivity.
  - exact tree_plain_fault_free.
  - exact tree_plain_names_unique.
  - split; by intros [k Hk].
  - apply empty_compatible.
  - vm_compute. reflexivity.
Defined.

(** C1 does not hold of every destination.  The copy of an empty directory
    onto an existing regular file makes no call that fails and returns
    count 0 with a nil error, as [CountFiles] does; but nothing is
    created, and where the tree has a directory the destination still has
    the file (line 45 creates the directory only when [os.Stat] finds
    nothing, and an empty source gives the loop nothing to fail on). *)
Example Copy_onto_a_file :
  ∃ n s q ent,
    IsDir n = true ∧ fault_free n ∧ names_unique n
    ∧ apart ["src"%string] ["dst"%string]
    ∧ Copy_run cd_default ["src"%string] n ["dst"%string]
        [Main; Worker Here; Worker Here; Worker Here; Worker Here; Main; Main]
        (Copy_init store_with_file) = Some s
    ∧ cpc s = CopyRet 0 None
    ∧ CountFiles ["src"%string] n = (0, None)
    ∧ panicked (cworld s) = false
    ∧ tree_lookup n q = Some ent
    ∧ fs (cworld s) !! (["dst"%string] ++ q) ≠ Some ent
    ∧ fs (cworld s) = store_with_file
    ∧ ¬ compatible store_with_file ["dst"%string] n.
Proof.
  eexists (Dir no_dir_fault []), _, [], DirE.
  do 3 (split; [by repeat constructor |]).
  split; [split; by intros [k Hk] |].
  split; [vm_compute; reflexivity |].
  do 4 (split; [reflexivity |]). split; [done |]. split; [reflexivity |].
  intros H. specialize (H ["dst"%string]). by vm_compute in H.
Qed.


(** ** CopyMultipleSources: runs are bounded and do not get stuck *)

Lemma gos_cost_app gos1 gos2 :
  gos_cost (gos1 ++ gos2) = (gos_cost gos1 + gos_cost gos2)%nat.
Proof.
  induction gos1 as [| [g t] gos IH]; [done |].
  cbn [gos_cost app]. rewrite IH. lia.
Qed.

Lemma gos_cost_insert gos : ∀ i g t g' t',
  gos !! i = Some (g, t) →
  (gos_cost (<[i:=(g', t')]> gos) + sstage_cost g + task_cost t
   = gos_cost gos + sstage_cost g' + task_cost t')%nat.
Proof.
  induction gos as [| [g0 t0] gos IH]; intros [| i] g t g' t' Hi;
    simpl in Hi; simplify_eq.
  - change (<[0%nat:=(g', t')]> ((g, t) :: gos)) with ((g', t') :: gos).
    cbn [gos_cost]. lia.
  - change (<[S i:=(g', t')]> ((g0, t0) :: gos))
      with ((g0, t0) :: <[i:=(g', t')]> gos).
    cbn [gos_cost]. pose proof (IH i g t g' t' Hi). lia.
Qed.

Lemma sumZ_alive_pos gos :
  sumZ alive gos ≠ 0 → ∃ i gt, gos !! i = Some gt ∧ gt.1 ≠ SExit.
Proof.
  induction gos as [| x gos IH]; simpl; [done |].
  intros H. destruct (decide (x.1 = SExit)) as [Hx | Hx].
  - destruct IH as (i & gt & Hi & Hgt).
    + unfold alive in H at 1. rewrite decide_True in H by done. lia.
    + by exists (S i), gt.
  - by exists 0%nat, x.
Qed.

Section multi_total.
Variable cd : CopyDirectory.
Variable sources : list (path * node).
Variable destination : path.
Variable dflt : option (nat * errno).

Lemma multi_wf_step x s s' :
  multi_wf s →
  CopyMultipleSources_step cd sources destination dflt x s = Some s' →
  multi_wf s'.
Proof.
  unfold multi_wf, CopyMultipleSources_step. intros Hwf Hstep.
  destruct (panicked (mworld s)); [done |].
  destruct x as [| i | i th].
  - repeat case_match; simplify_eq/=; try done.
    apply Forall_app. split; [done |]. constructor; [| constructor].
    apply WF_start.
  - destruct (mgos s !! i) as [[g callee] |] eqn:Hi; [| done].
    pose proof (Forall_lookup_1 _ _ _ _ Hwf Hi) as Hc.
    destruct g; repeat case_match; simplify_eq/=;
      by apply Forall_insert.
  - destruct (mgos s !! i) as [[g callee] |] eqn:Hi; [| done].
    pose proof (Forall_lookup_1 _ _ _ _ Hwf Hi) as Hc.
    destruct (step cd th (mworld s) callee) as [[w' callee'] |] eqn:Hst;
      simplify_eq/=.
    apply Forall_insert; [done |]. simpl. by eapply WF_step.
Qed.

Lemma multi_cost_step x s s' :
  CopyMultipleSources_step cd sources destination dflt x s = Some s' →
  (multi_cost sources s' < multi_cost sources s)%nat.
Proof.
  unfold CopyMultipleSources_step. intros Hstep.
  destruct (panicked (mworld s)) eqn:Hpan; [done |].
  unfold multi_cost. rewrite Hpan.
  destruct x as [| i | i th].
  - destruct (mpc s) as [| total | [| [src n] rest] | | | count err];
      repeat case_match; simplify_eq/=; rewrite ?Hpan; try lia.
    all: rewrite gos_cost_app; cbn [gos_cost]; rewrite task_cost_start;
      simpl; lia.
  - destruct (mgos s !! i) as [[g callee] |] eqn:Hi; [| done].
    destruct g; repeat case_match; simplify_eq/=; rewrite ?Hpan;
      match goal with
      | |- context [<[i:=(?g', callee)]> (mgos s)] =>
          pose proof (gos_cost_insert _ _ _ _ g' callee Hi)
      end; simpl in *; lia.
  - destruct (mgos s !! i) as [[g callee] |] eqn:Hi; [| done].
    destruct (step cd th (mworld s) callee) as [[w' callee'] |] eqn:Hst;
      simplify_eq/=.
    pose proof (gos_cost_insert _ _ _ _ g callee' Hi).
    destruct (step_cases _ _ _ _ _ _ Hst) as [(Hc & Hp & _) | (-> & Hp & _)].
    + rewrite Hp, Hpan. lia.
    + rewrite Hp. rewrite list_insert_id by done. lia.
Qed.

Lemma multi_progress s :
  multi_inv sources destination s → multi_wf s →
  panicked (mworld s) = false →
  (∀ c e, mpc s ≠ MRet c e) →
  ∃ x s', CopyMultipleSources_step cd sources destination dflt x s = Some s'.
Proof.
  intros (Hsrc & Hres & Hwg & Hpc) Hwf Hpan Hnr.
  assert (Hmain : (mpc s = MWait → mwaitGroup s = 0) →
    ∃ x s', CopyMultipleSources_step cd sources destination dflt x s = Some s').
  { intros Hw. exists MMain. unfold CopyMultipleSources_step. rewrite Hpan.
    destruct (mpc s) as [| total | [| [src n] rest] | | | count err] eqn:Epc;
      try by eexists.
    - destruct (count_sources sources 0) as [? [? |]]; by eexists.
    - destruct (ensure_destination _ _ _) as [? [? |]]; by eexists.
    - rewrite decide_True by auto. by eexists.
    - by destruct (Hnr count err). }
  destruct (decide (mwaitGroup s = 0)) as [Hz | Hnz]; [by apply Hmain |].
  destruct (mpc s) eqn:Epc; try (by apply Hmain).
  rewrite Hwg in Hnz.
  destruct (sumZ_alive_pos _ Hnz) as (i & [g callee] & Hi & Hne).
  simpl in Hne.
  pose proof (Forall_lookup_1 _ _ _ _ Hwf Hi) as Hwfc. simpl in Hwfc.
  destruct (result callee) as [[c e] |] eqn:Hrc.
  - exists (MAround i). unfold CopyMultipleSources_step. rewrite Hpan, Hi, ?Hrc.
    destruct g; try done; try (by eexists).
    destruct e; by eexists.
  - destruct g; try done;
      try (by destruct (Hres i _ Hi ltac:(done)) as [? ?]; simplify_eq/=).
    destruct (WF_progress cd (mworld s) callee Hwfc Hrc)
      as (th & [w1 c1] & Hc).
    exists (MInside i th). unfold CopyMultipleSources_step.
    rewrite Hpan, Hi, Hc.
    by eexists.
Qed.

Lemma multi_run_total who : ∀ s s',
  multi_wf s →
  CopyMultipleSources_run cd sources destination dflt who s = Some s' →
  multi_wf s' ∧ (length who + multi_cost sources s' ≤ multi_cost sources s)%nat.
Proof.
  induction who as [| x who IH]; intros s s' Hwf Hrun; simpl in Hrun.
  - simplify_eq. split; [done | simpl; lia].
  - destruct (CopyMultipleSources_step cd sources destination dflt x s)
      as [s1 |] eqn:Hst;
      [| done].
    pose proof (multi_wf_step _ _ _ Hwf Hst) as Hwf1.
    pose proof (multi_cost_step _ _ _ Hst) as Hc.
    destruct (IH _ _ Hwf1 Hrun) as [Hwf' Hc']. split; [done |]. simpl. lia.
Qed.
End multi_total.

(** X14. Every run of [CopyMultipleSources] is bounded and, unless a
    goroutine has panicked, can go on until [CopyMultipleSources] has
    returned.  In every run that has returned and in which the call of at
    least one source returned an error: every source has its goroutine,
    whose call has returned; the count returned is the sum (in [int]
    arithmetic) of the counts returned by all these calls, those that
    failed included; and the error returned is the error returned by one
    of them. *)
Theorem CopyMultipleSources_error_and_total (cd : CopyDirectory)
  (sources : list (path * node)) (destination : path)
  (dflt : option (nat * errno))
  (st : store) (who : list multi_thread) (s : multi_state) :
  CopyMultipleSources_run cd sources destination dflt who
    (CopyMultipleSources_init st) = Some s →
  (length who ≤ 6 + sources_cost sources)%nat
  ∧ (panicked (mworld s) = false → (∀ c e, mpc s ≠ MRet c e) →
     ∃ x s', CopyMultipleSources_step cd sources destination dflt x s = Some s')
  ∧ (∀ count err,
       mpc s = MRet count err →
       (∃ i gt, mgos s !! i = Some gt ∧ is_Some (returned_error gt)) →
       (∀ i src, sources !! i = Some src →
                 ∃ gt, mgos s !! i = Some gt
                       ∧ runs_source destination src gt
                       ∧ is_Some (result gt.2))
       ∧ count = wrap (sumZ returned_count (mgos s))
       ∧ ∃ e i gt, err = Some e ∧ mgos s !! i = Some gt
                   ∧ returned_error gt = Some e).
Proof.
  intros Hrun.
  pose proof (multi_inv_run cd sources destination dflt who _ _
                (multi_inv_init sources destination st) Hrun) as Hinv.
  destruct (multi_run_total cd sources destination dflt who
              (CopyMultipleSources_init st) s ltac:(constructor) Hrun)
    as [Hwf Hlen].
  split; [| split].
  - unfold multi_cost in Hlen at 2. simpl in Hlen. lia.
  - intros Hpan Hnr. by apply multi_progress.
  - intros count err Hpc (i0 & gt0 & Hi0 & [e0 He0]).
    destruct Hinv as (Hsrc & Hres & Hwg & Hinv).
    rewrite Hpc in Hinv.
    destruct Hinv as [Hnil | (Hlen' & Hz & Hcount & Herr)].
    { by rewrite Hnil in Hi0. }
    assert (Hexit : ∀ i gt, mgos s !! i = Some gt → gt.1 = SExit).
    { apply sumZ_alive_zero. lia. }
    split; [| split; [done |]].
    + intros i src Hi.
      destruct (mgos s !! i) as [gt |] eqn:Hg.
      * exists gt. destruct (Hsrc i gt Hg) as (src' & Hs' & Hrs).
        simplify_eq. repeat split; try apply Hrs.
        apply (Hres i gt Hg). by rewrite (Hexit i gt Hg).
      * apply lookup_ge_None in Hg. apply lookup_lt_Some in Hi. lia.
    + destruct err as [e |].
      * destruct Herr as (i & gt & Hi & Hgt). by exists e, i, gt.
      * rewrite (Herr i0 gt0 Hi0) in He0. done.
Qed.

Lemma CopyMultipleSources_error_and_total_witness :
  ∃ s,
    CopyMultipleSources_run cd_default [source_A; source_B] ["D"%string] None
      schedule_B_first (CopyMultipleSources_init ∅) = Some s
    ∧ mpc s = MRet 1 (Some error_B)
    ∧ (length schedule_B_first ≤ 6 + sources_cost [source_A; source_B])%nat
    ∧ (panicked (mworld s) = false → (∀ c e, mpc s ≠ MRet c e) →
       ∃ x s', CopyMultipleSources_step cd_default [source_A; source_B]
                 ["D"%string] None
                 x s = Some s')
    ∧ (∀ count err,
         mpc s = MRet count err →
         (∃ i gt, mgos s !! i = Some gt ∧ is_Some (returned_error gt)) →
         (∀ i src, [source_A; source_B] !! i = Some src →
                   ∃ gt, mgos s !! i = Some gt
                         ∧ runs_source ["D"%string] src gt
                         ∧ is_Some (result gt.2))
         ∧ count = wrap (sumZ returned_count (mgos s))
         ∧ ∃ e i gt, err = Some e ∧ mgos s !! i = Some gt
                     ∧ returned_error gt = Some e).
Proof.
  eexists. split; [vm_compute; reflexivity |]. split; [reflexivity |].
  apply (CopyMultipleSources_error_and_total cd_default [source_A; source_B]
           ["D"%string] None ∅ schedule_B_first).
  vm_compute. reflexivity.
Defined.

(** C8. [CopyMultipleSources] does not return in every run in which the
    call of a source returned an error.  In the scenario of the early
    returns, the call for [src] returns the error of [src/b] while the
    goroutine of [src/a/] has not run; the goroutine of the source sends
    the count and the error and is done, so [waitGroup.Wait()] of line 227
    lets the main thread close the progress channel (line 228); the
    goroutine of [src/a/] then copies [src/a/x] and sends on the closed
    channel (line 122).  The process panics before [CopyMultipleSources]
    has returned anything. *)
Theorem C8_panic_before_return :
  ∃ s s',
    CopyMultipleSources_run cd_default
      [(["src"%string], tree_sub_then_bad_file)] ["dst"%string] None
      schedule_straggler (CopyMultipleSources_init ∅) = Some s
    ∧ mpc s = MClosed
    ∧ closed (mworld s) = true ∧ panicked (mworld s) = false
    ∧ errChan s = [bad_file_error] ∧ countChan s = [0]
    ∧ (∃ gt, mgos s !! 0%nat = Some gt
             ∧ gt.1 = SExit ∧ result gt.2 = Some (0, Some bad_file_error))
    ∧ CopyMultipleSources_run cd_default
        [(["src"%string], tree_sub_then_bad_file)] ["dst"%string] None
        (replicate 4 (MInside 0 (Inside 0 Here))) s = Some s'
    ∧ fs (mworld s') !! ["dst"%string; "a"%string; "x"%string]
      = Some (FileE [x01; x02])
    ∧ mpc s' = MClosed
    ∧ panicked (mworld s') = true
    ∧ ∀ x, CopyMultipleSources_step cd_default
             [(["src"%string], tree_sub_then_bad_file)] ["dst"%string] None
             x s' = None.
Proof.
  eexists _, _. split; [vm_compute; reflexivity |].
  do 5 (split; [reflexivity |]).
  split; [eexists; repeat split; reflexivity |].
  split; [vm_compute; reflexivity |].
  do 3 (split; [reflexivity |]).
  intros x. reflexivity.
Qed.

(** Which error is returned depends on the order in which the goroutines
    send: the same two calls, the other error. *)
Example multi_error_depends_on_schedule :
  (mpc <$> CopyMultipleSources_run cd_default [source_A; source_B]
             ["D"%string] None schedule_B_first (CopyMultipleSources_init ∅))
  = Some (MRet 1 (Some error_B))
  ∧ (mpc <$> CopyMultipleSources_run cd_default [source_A; source_B]
               ["D"%string] None schedule_A_first
               (CopyMultipleSources_init ∅))
    = Some (MRet 1 (Some error_A)).
Proof. split; vm_compute; reflexivity. Qed.

(** ** CopyMultipleSources without failures *)

Lemma count_sources_listable sources : ∀ total,
  Forall (λ sn, IsDir sn.2 = true ∧ listable sn.2) sources →
  ∃ c, count_sources sources total = (c, None).
Proof.
  induction sources as [| [src n] sources IH]; intros total Hall; simpl.
  - by eexists.
  - apply Forall_cons in Hall as [[Hdir Hl] Hall]. simpl in *.
    rewrite (CountFiles_listable n src Hdir Hl). by apply IH.
Qed.

Lemma wrap_sumZ_wrap {A} (f : A → Z) l :
  wrap (sumZ (λ x, wrap (f x)) l) = wrap (sumZ f l).
Proof.
  induction l as [| x l IH]; [done |]. cbn [sumZ].
  rewrite wrap_add_l. rewrite <- wrap_add_r, IH, wrap_add_r. done.
Qed.

Lemma sumZ_Forall2 {A B} (f : A → Z) (g : B → Z) l k :
  Forall2 (λ a b, f a = g b) l k → sumZ f l = sumZ g k.
Proof. induction 1; simpl; congruence. Qed.

Lemma lookup_take_split {A} (l : list A) k x r :
  l = take k l ++ x :: r → l !! k = Some x ∧ take (S k) l = take k l ++ [x].
Proof.
  intros H.
  assert (Hk : length (take k l) = k).
  { apply (f_equal length) in H. rewrite length_app, length_take in H.
    rewrite length_take. simpl in H. lia. }
  assert (Hx : l !! k = Some x).
  { rewrite H. rewrite lookup_app_r by lia. by rewrite Hk, Nat.sub_diag. }
  split; [done |]. by apply take_S_r.
Qed.

Lemma Forall2_insert_same {A B} (P : A → B → Prop) l k i y y' :
  Forall2 P l k → k !! i = Some y → (∀ x, P x y → P x y') →
  Forall2 P l (<[i := y']> k).
Proof.
  intros H. revert i. induction H as [| a b l k Hab H IH]; intros i Hi Himp.
  - done.
  - destruct i as [| i]; simplify_eq/=; constructor; auto.
Qed.

Section merge.
Variable cd : CopyDirectory.
Variable fin : path → option dentry.
Variable sources : list (path * node).
Variable destination : path.
Variable st0 : gmap (list string) dentry.
Hypothesis Hsrc : mergeable fin destination sources.
Hypothesis Hchain : ∀ p, p `prefix_of` destination → fin p = Some DirE.
Hypothesis Hag : agrees fin st0.

Lemma merge_inv_init :
  merge_inv fin sources destination st0 (CopyMultipleSources_init st0).
Proof.
  unfold merge_inv. simpl. repeat split; try done; try (by left).
Qed.

Lemma merge_inv_step x s s' :
  multi_inv sources destination s →
  merge_inv fin sources destination st0 s →
  CopyMultipleSources_step cd sources destination None x s = Some s' →
  merge_inv fin sources destination st0 s'.
Proof.
  intros (Hrun & Hres & Hwg & Hmpc) (Hpan & Hbet & Hgood & Hpc) Hstep.
  unfold CopyMultipleSources_step in Hstep. rewrite Hpan in Hstep.
  pose proof (agrees_towards fin _ _ Hag Hbet) as Hag'.
  destruct x as [| i | i th].
  - destruct (mpc s) as [| total | [| [src n] rest] | | | count err] eqn:Epc.
    + destruct (count_sources_listable sources 0) as [c Hc].
      { eapply Forall_impl; [apply Hsrc |]. intros sn (? & ? & ? & ?).
        split; [done |]. by apply fault_free_listable. }
      rewrite Hc in Hstep. simplify_eq. unfold merge_inv. simpl.
      repeat (split; [done |]); done.
    + destruct (ensure_destination_ok fin _ destination Hag' Hchain)
        as (st' & Hens & Hpre & Htow).
      rewrite Hens in Hstep. simplify_eq. unfold merge_inv. simpl.
      split; [done |]. split; [| split]; [| | done].
      * intros p. destruct (Htow p) as [Hp | Hp]; [| by right].
        rewrite Hp. apply Hbet.
      * eapply Forall2_impl; [apply Hgood |]. intros sn gt Hg.
        eapply Good_mono; [| apply Hg]. by apply towards_mono.
    + simplify_eq. unfold merge_inv. simpl. repeat (split; [done |]); done.
    + simplify_eq. unfold merge_inv. simpl.
      destruct Hmpc as [Hsplit _].
      split; [done |]. split; [done |]. split; [| done].
      destruct (lookup_take_split _ _ _ _ Hsplit) as [Hi Htk].
      rewrite length_app. simpl.
      replace (length (mgos s) + 1)%nat with (S (length (mgos s))) by lia.
      rewrite Htk. apply Forall2_app; [done |].
      constructor; [| constructor]. simpl.
      pose proof (Forall_lookup_1 _ _ _ _ Hsrc Hi) as (Hdir & _). simpl in *.
      destruct n; [done |]. apply Good_start.
    + destruct (decide (mwaitGroup s = 0)) as [Hz |]; [| done].
      simplify_eq. unfold merge_inv. simpl.
      split; [done |]. split; [done |]. split; [done |].
      split; [| by destruct Hpc].
      intros i gt Hi. apply (Hres i gt Hi).
      rewrite Hwg in Hz. pose proof (sumZ_alive_zero _ Hz i gt Hi) as Hex.
      rewrite Hex. done.
    + simplify_eq. unfold merge_inv. simpl.
      destruct Hmpc as (Hlen & (Hcc & Hec & _) & Hz).
      destruct Hpc as [Hret Hpre].
      pose proof Hgood as Hgood0. rewrite Hlen, firstn_all in Hgood.
      assert (Hres2 : Forall2 (λ (sn : path * node) (gt : sstage * task),
                result gt.2 = Some (wrap (Z.of_nat (leaves sn.2)), None)
                ∧ gt.1 = SExit) sources (mgos s)).
      { apply Forall2_same_length_lookup.
        apply Forall2_same_length_lookup in Hgood as [Hl Hgood].
        split; [done |]. intros i sn gt Hsn Hgt.
        destruct (Hret i gt Hgt) as [[c e] Hr].
        destruct (Good_result _ _ _ _ _ _ _ _ (Hgood i sn gt Hsn Hgt) Hr)
          as [-> ->].
        split; [done |]. rewrite Hwg in Hz. by eapply sumZ_alive_zero. }
      do 5 (split; [done |]). split; [| split; [| done]].
      * rewrite sum_counts_sumZ, Hcc. unfold leaves_sources.
        rewrite <- (wrap_sumZ_wrap
                      (λ sn : path * node, Z.of_nat (leaves sn.2))).
        f_equal. symmetry. apply sumZ_Forall2.
        eapply Forall2_impl; [apply Hres2 |]. intros sn gt [Hr Hex].
        unfold sent_count, returned_count. rewrite Hex, Hr.
        by rewrite decide_False.
      * destruct (errChan s) as [| e es]; [done |].
        destruct (Hec e ltac:(left)) as (i & gt & Hi & He).
        apply Forall2_same_length_lookup in Hres2 as [Hl Hres2].
        destruct (lookup_lt_is_Some_2 sources i) as [sn Hsn].
        { rewrite Hl. by eapply lookup_lt_Some. }
        destruct (Hres2 i sn gt Hsn Hi) as [Hr _].
        unfold returned_error in He. by rewrite Hr in He.
    + done.
  - (* the goroutine body of source [i] *)
    destruct (mgos s !! i) as [[g callee] |] eqn:Hi; [| done].
    assert (Hsame : ∀ g', Forall2
              (λ (sn : path * node) (gt : sstage * task),
                 Good fin (fs (mworld s)) sn.2 sn.1 destination gt.2)
              (take (length (<[i:=(g', callee)]> (mgos s))) sources)
              (<[i:=(g', callee)]> (mgos s))).
    { intros g'. rewrite length_insert.
      eapply Forall2_insert_same; [apply Hgood | apply Hi | done]. }
    assert (Hall : ∀ g', all_returned (mgos s) →
              all_returned (<[i:=(g', callee)]> (mgos s))).
    { intros g' Ha j gt Hj.
      destruct (decide (i = j)) as [-> | Hne].
      - rewrite list_lookup_insert_eq in Hj by by eapply lookup_lt_Some.
        simplify_eq. apply (Ha j _ Hi).
      - rewrite list_lookup_insert_ne in Hj by done. by eapply Ha. }
    destruct g; repeat case_match; simplify_eq/=; unfold merge_inv; simpl.
    all: split; [done |]; split; [done |]; split; [apply Hsame |].
    all: rewrite ?length_insert; try done.
    all: try (destruct Hpc as [Hret Hpc]; split; [by apply Hall | done]).
  - (* a thread of the copier of source [i] *)
    destruct (mgos s !! i) as [[g callee] |] eqn:Hi; [| done].
    destruct (step cd th (mworld s) callee) as [[w' callee'] |] eqn:Hst;
      [| done].
    simplify_eq. unfold merge_inv. simpl.
    apply Forall2_same_length_lookup in Hgood as [Hl Hgood].
    destruct (lookup_lt_is_Some_2 (take (length (mgos s)) sources) i)
      as [sn Hsn].
    { rewrite Hl. by eapply lookup_lt_Some. }
    pose proof (Hgood i sn _ Hsn Hi) as Hg. simpl in Hg.
    assert (Hin : sources !! i = Some sn).
    { by apply lookup_take_Some in Hsn as [? _]. }
    pose proof (Forall_lookup_1 _ _ _ _ Hsrc Hin) as (Hdir & Hff & Hnu & Hpl).
    assert (Hq : all_returned (mgos s) → False).
    { intros Hret. destruct (Hret i _ Hi) as [r Hr].
      by rewrite (Good_quiescent _ cd th _ _ _ _ _ (mworld s) Hg) in Hst. }
    assert (Hopen : closed (mworld s) = false).
    { destruct (mpc s); try (by destruct Hpc); try done;
        destruct Hpc as [Hret _]; destruct (Hq Hret). }
    destruct (Good_step fin cd th _ _ _ _ _ _ _ Hff Hnu Hpl Hag' Hopen Hg Hst)
      as (Hg' & Htow & Hopen' & Hpan').
    split; [congruence |]. split; [| split].
    + intros p. destruct (Htow p) as [Hp | Hp]; [| by right].
      rewrite Hp. apply Hbet.
    + rewrite length_insert. apply Forall2_same_length_lookup.
      split; [by rewrite length_insert |]. intros j x y Hx Hy.
      destruct (decide (i = j)) as [-> | Hne].
      * rewrite list_lookup_insert_eq in Hy by by eapply lookup_lt_Some.
        by simplify_eq.
      * rewrite list_lookup_insert_ne in Hy by done.
        eapply Good_mono; [| by eapply Hgood]. by apply towards_mono.
    + destruct (mpc s); try done;
        try (destruct Hpc as [Hret _]; destruct (Hq Hret)).
      all: split; [done |]; intros p Hp; destruct Hpc as [_ Hpc];
        by apply (towards_mono fin _ _ Htow), Hpc.
Qed.

Lemma merge_inv_run who : ∀ s s',
  multi_inv sources destination s →
  merge_inv fin sources destination st0 s →
  CopyMultipleSources_run cd sources destination None who s = Some s' →
  merge_inv fin sources destination st0 s'.
Proof.
  induction who as [| x who IH]; intros s s' Hinv Hm Hrun; simpl in Hrun.
  - by simplify_eq.
  - destruct (CopyMultipleSources_step cd sources destination None x s)
      as [s1 |] eqn:Hst; [| done].
    eapply IH; [| | apply Hrun].
    + by eapply multi_inv_step.
    + by eapply merge_inv_step.
Qed.
End merge.

Lemma lookup_sources_Some sources q e :
  lookup_sources sources q = Some e →
  ∃ i sn, sources !! i = Some sn ∧ tree_lookup sn.2 q = Some e.
Proof.
  induction sources as [| [src n] sources IH]; [done |]. simpl.
  destruct (tree_lookup n q) as [e0 |] eqn:Hq.
  - intros ?. simplify_eq. by exists 0%nat, (src, n).
  - intros H. destruct (IH H) as (i & sn & Hi & Hsn). by exists (S i), sn.
Qed.

Lemma lookup_sources_consistent sources i sn q e :
  consistent sources → sources !! i = Some sn →
  tree_lookup sn.2 q = Some e → lookup_sources sources q = Some e.
Proof.
  intros Hcons Hi Hq.
  destruct (lookup_sources sources q) as [e0 |] eqn:Hl.
  - destruct (lookup_sources_Some _ _ _ Hl) as (j & sn' & Hj & Hq').
    f_equal. by eapply (Hcons j i).
  - exfalso. revert i Hi Hl. clear Hcons.
    induction sources as [| [src n] sources IH]; intros i Hi Hl; [done |].
    simpl in Hl. destruct (tree_lookup n q) eqn:Hn; [done |].
    destruct i as [| i]; simplify_eq/=. by eapply IH.
Qed.

Lemma mergeable_merged_at st0 destination sources :
  Forall (λ sn, IsDir sn.2 = true ∧ fault_free sn.2 ∧ names_unique sn.2)
         sources →
  consistent sources →
  mergeable (merged_at st0 destination sources) destination sources.
Proof.
  intros Hall Hcons. apply Forall_lookup_2. intros i sn Hi.
  destruct (Forall_lookup_1 _ _ _ _ Hall Hi) as (Hdir & Hff & Hnu).
  repeat (split; [done |]). split.
  - intros p Hp. unfold merged_at. by rewrite decide_True.
  - intros q e Hq. unfold merged_at. case_decide as Hp.
    + destruct Hp as [k Hk].
      assert (q = []) as ->.
      { apply (f_equal length) in Hk. rewrite !length_app in Hk.
        destruct q; [done | simpl in Hk; lia]. }
      simpl in Hq. destruct sn.2; by simplify_eq.
    + rewrite below_app.
      by rewrite (lookup_sources_consistent _ _ _ _ _ Hcons Hi Hq).
Qed.


Lemma sources_ST_consistent : consistent [source_S; source_T].
Proof.
  intros i j sn sn' q e e' Hi Hj Hq Hq'.
  destruct i as [| [| i]], j as [| [| j]]; simplify_eq/=; try congruence.
  all: destruct q as [| x1 [| x2 [| x3 q]]]; simpl in *;
    repeat (case_decide; simplify_eq/=); congruence.
Qed.


(** ** A nil error means a complete copy *)

Lemma sent_Task f kids :
  sent (Task f kids) = own_sent f + sumZ (λ k, sent k.2) kids.
Proof.
  simpl. f_equal. induction kids as [| [g k] ks IH]; simpl; [done |].
  by rewrite IH.
Qed.

Lemma clean_Task f kids :
  clean (Task f kids)
  ↔ (∀ c e, at_pc f ≠ Ret c (Some e)) ∧ Forall (λ k, clean k.2) kids.
Proof.
  simpl. apply and_iff_compat_l.
  induction kids as [| [g k] ks IH]; simpl.
  - split; [constructor | done].
  - rewrite Forall_cons, IH. done.
Qed.

Lemma finished_Task f kids :
  finished (Task f kids)
  ↔ (∃ c, at_pc f = Ret c None)
    ∧ Forall (λ k, k.1 = GExit ∧ finished k.2) kids.
Proof.
  simpl. apply and_iff_compat_l.
  induction kids as [| [g k] ks IH]; simpl.
  - split; [constructor | done].
  - rewrite Forall_cons, IH. simpl. tauto.
Qed.

Lemma Acc_start s n d : Acc (CopyFilesAndDirectory s n d).
Proof.
  by apply (Acc_task _ _ [] (entries_of n)).
Qed.

Lemma Acc_inv f kids :
  Acc (Task f kids) →
  (∃ c e, at_pc f = Ret c (Some e))
  ∨ ∃ done rest,
      entries_of (sourceNode f) = done ++ rest
      ∧ match at_pc f with
        | Entry | Listing => done = []
        | Loop r | Send r | Incr r => r = rest ∧ IsDir (sourceNode f) = true
        | Wait => rest = [] ∧ IsDir (sourceNode f) = true
        | Ret c e =>
            rest = [] ∧ IsDir (sourceNode f) = true
            ∧ c = fileCount f ∧ e = None ∧ firstErr f = None
            ∧ waitGroup f = 0
        end
      ∧ Forall2 (λ e k, sourceNode (frame_of k.2) = e.2 ∧ Acc k.2)
                (dir_entries done) kids
      ∧ fileCount f = wrap (Z.of_nat (length (file_entries done))
                            - pending (at_pc f) + sumZ added kids)
      ∧ (firstErr f = None →
         ∀ i k, kids !! i = Some k → k.1 = GDone ∨ k.1 = GExit →
                kid_error k = None).
Proof.
  inversion 1; simplify_eq.
  - left. by eexists _, _.
  - right. by eexists _, _.
Qed.

Lemma sumZ_added_snoc kids s n d :
  sumZ added (kids ++ [(GCall, CopyFilesAndDirectory s n d)])
  = sumZ added kids.
Proof. rewrite sumZ_app. simpl. unfold added. simpl. lia. Qed.

Lemma Acc_step_here cd w f kids w' t' :
  Acc (Task f kids) → step_here cd w f kids = Some (w', t') → Acc t'.
Proof.
  intros Hacc Hst.
  apply Acc_inv in Hacc
    as [(c & e & Hpc) | (done & rest & Hsplit & Hpc & Hkids & Hcount & Herr)].
  { unfold step_here in Hst. by rewrite Hpc in Hst. }
  unfold step_here in Hst.
  destruct (at_pc f) as [| | [| [name [data flt | flt sub]] r] | r | r | | c e]
    eqn:Epc.
  - (* Entry *)
    destruct (ensure_destination _ _ _) as [? [? |]]; simplify_eq.
    + by eapply Acc_failed.
    + by apply (Acc_task _ _ [] rest).
  - (* Listing *)
    destruct (ReadDir_copy _ _) as [entries | err] eqn:Hread; simplify_eq.
    + apply (Acc_task _ _ [] entries); simpl; try done.
      * unfold ReadDir_copy in Hread. destruct (sourceNode f); [done |].
        by destruct (list_err flt); simplify_eq.
      * split; [done |]. unfold ReadDir_copy in Hread.
        by destruct (sourceNode f).
    + by eapply Acc_failed.
  - (* the loop is over *)
    simplify_eq. destruct Hpc as [<- Hdir].
    apply (Acc_task _ _ done []); simpl; try done; by rewrite Hcount.
  - (* a file *)
    destruct Hpc as [<- Hdir].
    destruct (copy_file _ _ _ _ _ _ _) as [st [err |]]; simplify_eq.
    + by eapply Acc_failed.
    + apply (Acc_task _ _ (done ++ [(name, File data flt)]) r); simpl;
        try done.
      all: rewrite <- ?app_assoc, ?dir_entries_snoc_file; try done.
      rewrite Hcount, file_entries_snoc_file, length_app. simpl.
      f_equal. lia.
  - (* a subdirectory *)
    simplify_eq. destruct Hpc as [<- Hdir].
    apply (Acc_task _ _ (done ++ [(name, Dir flt sub)]) r); simpl; try done.
    + by rewrite <- app_assoc.
    + rewrite dir_entries_snoc_dir. apply Forall2_app; [done |].
      constructor; [| constructor]. split; [done | apply Acc_start].
    + rewrite Hcount, file_entries_snoc_dir, sumZ_added_snoc. done.
    + intros Hf i k Hi Hk. apply lookup_app_Some in Hi as [Hi | [_ Hi]].
      * by eapply Herr.
      * apply list_lookup_singleton_Some in Hi as [_ <-].
        simpl in Hk. by destruct Hk.
  - (* the send *)
    destruct (closed w); simplify_eq.
    + apply (Acc_task _ _ done rest); by rewrite ?Epc.
    + apply (Acc_task _ _ done rest); simpl; try done;
        by rewrite Hcount.
  - (* the increment *)
    simplify_eq. apply (Acc_task _ _ done rest); simpl; try done.
    rewrite Hcount, wrap_add_l. simpl. f_equal. lia.
  - (* the wait *)
    destruct (decide (waitGroup f = 0)) as [Hz |]; simplify_eq.
    destruct (firstErr f) as [e |] eqn:Hfe.
    + by eapply Acc_failed.
    + apply (Acc_task _ _ done rest); simpl; try done;
        try (by destruct Hpc); try (by rewrite Hcount);
        by rewrite Hfe.
  - done.
Qed.

Lemma Acc_step_around f kids i g callee f' g' :
  WF (Task f kids) → Acc (Task f kids) →
  kids !! i = Some (g, callee) →
  step_around f g callee = Some (f', g') →
  Acc (Task f' (<[i:=(g', callee)]> kids)).
Proof.
  intros Hwf Hacc Hi Hst.
  pose proof (step_around_frame _ _ _ _ _ Hst) as (_ & Hsn & _ & Hpc').
  apply WF_inv in Hwf as [Hwg Hwfk].
  apply Acc_inv in Hacc
    as [(c & e & Hpc) | (done & rest & Hsplit & Hpc & Hkids & Hcount & Herr)].
  { eapply Acc_failed. by rewrite Hpc'. }
  assert (Hnr : ∀ c e, at_pc f ≠ Ret c e).
  { intros c e Epc. rewrite Epc in Hpc.
    destruct Hpc as (_ & _ & _ & _ & _ & Hz). rewrite Hz in Hwg.
    pose proof (sumZ_galive_zero _ (eq_sym Hwg) i _ Hi) as Hg. simpl in Hg.
    subst g. done. }
  assert (Hf2 : Forall2 (λ e k, sourceNode (frame_of k.2) = e.2 ∧ Acc k.2)
                  (dir_entries done) (<[i:=(g', callee)]> kids)).
  { eapply Forall2_insert_same; [apply Hkids | apply Hi | done]. }
  apply (Acc_task _ _ done rest); rewrite ?Hsn, ?Hpc'; try done.
  - destruct (at_pc f) eqn:Epc; try done. by destruct (Hnr count err).
  - rewrite (sumZ_insert added _ _ _ _ Hi).
    set (S := sumZ added kids) in *. clearbody S.
    unfold step_around in Hst. unfold added. simpl.
    destruct g; repeat (case_match; simplify_eq/=); try done;
      rewrite ?Hcount, ?wrap_add_l; f_equal; lia.
  - intros Hfe j k Hj Hk.
    destruct (decide (i = j)) as [<- | Hne].
    + rewrite list_lookup_insert_eq in Hj by by eapply lookup_lt_Some.
      simplify_eq. simpl in Hk. unfold step_around in Hst.
      destruct g; simpl in Hst.
      * destruct (result callee) as [[? ?] |]; simplify_eq. by destruct Hk.
      * unfold kid_error. simpl.
        destruct (result callee) as [[? [err |]] |] eqn:Hr; simplify_eq/=;
          try done.
        destruct (firstErr f) eqn:E; simplify_eq/=; congruence.
      * simplify_eq. exact (Herr Hfe i _ Hi (or_introl eq_refl)).
      * done.
    + rewrite list_lookup_insert_ne in Hj by done.
      assert (Hfe0 : firstErr f = None).
      { unfold step_around in Hst.
        destruct g; repeat (case_match; simplify_eq/=); done. }
      by apply (Herr Hfe0 j k Hj Hk).
Qed.

Lemma added_step cd th w g callee w' callee' :
  (g ≠ GCall → is_Some (result callee)) →
  step cd th w callee = Some (w', callee') →
  added (g, callee') = added (g, callee)
  ∧ (g ≠ GCall → kid_error (g, callee') = kid_error (g, callee)).
Proof.
  intros Hres Hst. unfold added, kid_error. simpl.
  destruct (decide (g = GCall)) as [-> | Hg]; [done |].
  destruct (Hres Hg) as [r Hr].
  by rewrite (step_result _ _ _ _ _ _ _ Hst Hr), Hr.
Qed.

Lemma Acc_step cd th : ∀ w t w' t',
  WF t → Acc t → step cd th w t = Some (w', t') → Acc t'.
Proof.
  induction th as [| i | i th IH]; intros w [f kids] w' t' Hwf Hacc Hstep;
    simpl in Hstep.
  - by eapply Acc_step_here.
  - destruct (kids !! i) as [[g callee] |] eqn:Hi; [| done].
    destruct (step_around f g callee) as [[f' g'] |] eqn:Hst; simplify_eq.
    by eapply Acc_step_around.
  - destruct (kids !! i) as [[g callee] |] eqn:Hi; [| done].
    destruct (step cd th w callee) as [[w1 callee'] |] eqn:Hst; simplify_eq.
    pose proof (WF_inv _ _ Hwf) as [Hwg Hwfk].
    pose proof (Forall_lookup_1 _ _ _ _ Hwfk Hi) as [Hres Hwfc].
    simpl in Hres, Hwfc.
    destruct (added_step _ _ _ _ _ _ _ Hres Hst) as [Hadd Hke].
    apply Acc_inv in Hacc
      as [(c & e & Hpc) | (done & rest & Hsplit & Hpc & Hkids & Hcount & Herr)].
    { by eapply Acc_failed. }
    apply (Acc_task _ _ done rest); try done.
    + apply Forall2_same_length_lookup.
      apply Forall2_same_length_lookup in Hkids as [Hl Hkids].
      split; [by rewrite length_insert |]. intros j e k He Hk.
      destruct (decide (i = j)) as [<- | Hne].
      * rewrite list_lookup_insert_eq in Hk by by eapply lookup_lt_Some.
        simplify_eq. destruct (Hkids i e _ He Hi) as [Hsn Hac]. simpl in *.
        split.
        -- destruct (step_args _ _ _ _ _ _ Hst) as (_ & -> & _). done.
        -- by eapply IH.
      * rewrite list_lookup_insert_ne in Hk by done. by eapply Hkids.
    + rewrite (sumZ_insert added _ _ _ _ Hi), Hadd, Hcount. f_equal. lia.
    + intros Hfe j k Hj Hk.
      destruct (decide (i = j)) as [<- | Hne].
      * rewrite list_lookup_insert_eq in Hj by by eapply lookup_lt_Some.
        simplify_eq. simpl in Hk. rewrite Hke.
        -- by apply (Herr Hfe i _ Hi).
        -- by destruct Hk as [-> | ->].
      * rewrite list_lookup_insert_ne in Hj by done. by eapply Herr.
Qed.

Lemma leaves_list_sumZ es :
  Z.of_nat (leaves_list es) = sumZ (λ e, Z.of_nat (leaves e.2)) es.
Proof.
  induction es as [| [name child] es IH]; [done |].
  cbn [leaves_list sumZ]. simpl. lia.
Qed.

Lemma leaves_entries n :
  IsDir n = true →
  Z.of_nat (leaves n)
  = Z.of_nat (length (file_entries (entries_of n)))
    + sumZ (λ e, Z.of_nat (leaves e.2)) (dir_entries (entries_of n)).
Proof.
  destruct n as [| flt entries]; [done |]. intros _.
  rewrite leaves_Dir, leaves_list_split, <- leaves_list_sumZ. simpl. lia.
Qed.

(** An activation that has returned without error has waited for all its
    goroutines, whose calls returned without error too. *)
Lemma Acc_complete : ∀ t c,
  WF t → Acc t → result t = Some (c, None) →
  IsDir (sourceNode (frame_of t)) = true
  ∧ c = wrap (Z.of_nat (leaves (sourceNode (frame_of t))))
  ∧ sent t = Z.of_nat (leaves (sourceNode (frame_of t)))
  ∧ finished t.
Proof.
  induction t as [f kids IH] using task_induction.
  intros c Hwf Hacc Hr. cbn [frame_of].
  apply WF_inv in Hwf as [Hwg Hwfk].
  unfold result in Hr. simpl in Hr.
  destruct (at_pc f) as [| | | | | | c' e'] eqn:Epc; try done.
  simplify_eq.
  apply Acc_inv in Hacc
    as [(c0 & e0 & Hpc) | (done & rest & Hsplit & Hpc & Hkids & Hcount & Herr)].
  { congruence. }
  rewrite Epc in Hpc, Hcount.
  destruct Hpc as (-> & Hdir & -> & _ & Hfe & Hz).
  rewrite app_nil_r in Hsplit.
  rewrite Hz in Hwg.
  pose proof (sumZ_galive_zero _ (eq_sym Hwg)) as Hexit.
  assert (Hall : Forall2 (λ (e : string * node) (k : gstage * task),
                    k.1 = GExit
                    ∧ added k = wrap (Z.of_nat (leaves e.2))
                    ∧ sent k.2 = Z.of_nat (leaves e.2)
                    ∧ finished k.2) (dir_entries done) kids).
  { apply Forall2_same_length_lookup.
    apply Forall2_same_length_lookup in Hkids as [Hl Hkids].
    split; [done |]. intros i e k He Hk.
    destruct (Hkids i e k He Hk) as [Hsn Hac].
    pose proof (Hexit i k Hk) as Hex.
    pose proof (Forall_lookup_1 _ _ _ _ Hwfk Hk) as [Hres Hwfc].
    destruct Hres as [[ck ek] Hrk]; [by rewrite Hex |].
    pose proof (Herr Hfe i k Hk (or_intror Hex)) as Hke.
    unfold kid_error in Hke. rewrite Hrk in Hke. subst ek.
    pose proof (Forall_lookup_1 _ _ _ _ IH Hk ck Hwfc Hac Hrk)
      as (_ & Hck & Hsent & Hfin).
    rewrite Hsn in Hck, Hsent.
    split; [done |]. split; [| done].
    unfold added. rewrite Hex, Hrk. simpl. done. }
  split; [done |].
  rewrite (leaves_entries _ Hdir), Hsplit.
  split; [| split].
  - rewrite Hcount. simpl pending.
    rewrite <- (wrap_add_r _ (sumZ (λ e : string * node, _) _)).
    rewrite <- (wrap_sumZ_wrap (λ e : string * node, Z.of_nat (leaves e.2))).
    rewrite wrap_add_r. f_equal.
    assert (sumZ added kids
            = sumZ (λ e : string * node, wrap (Z.of_nat (leaves e.2)))
                   (dir_entries done)) as ->; [| lia].
    symmetry. apply sumZ_Forall2.
    eapply Forall2_impl; [apply Hall |]. by intros e k (_ & -> & _).
  - rewrite sent_Task. unfold own_sent. rewrite Epc, Hsplit. f_equal.
    symmetry. apply sumZ_Forall2.
    eapply Forall2_impl; [apply Hall |]. by intros e k (_ & _ & -> & _).
  - apply finished_Task. split; [by eexists |].
    apply Forall_lookup_2. intros i k Hk.
    apply Forall2_same_length_lookup in Hall as [Hl Hall].
    destruct (lookup_lt_is_Some_2 (dir_entries done) i) as [e He].
    { rewrite Hl. by eapply lookup_lt_Some. }
    by destruct (Hall i e k He Hk) as (? & _ & _ & ?).
Qed.

Lemma finished_clean : ∀ t, finished t → clean t.
Proof.
  induction t as [f kids IH] using task_induction. intros Hf.
  apply finished_Task in Hf as [[c Hc] Hk]. apply clean_Task. split.
  - intros c' e. by rewrite Hc.
  - apply Forall_lookup_2. intros i k Hi.
    apply (Forall_lookup_1 _ _ _ _ IH Hi).
    by destruct (Forall_lookup_1 _ _ _ _ Hk Hi).
Qed.

Lemma finished_quiescent cd th : ∀ w t, finished t → step cd th w t = None.
Proof.
  induction th as [| i | i th IH]; intros w [f kids] Hf;
    apply finished_Task in Hf as [[c Hc] Hk]; simpl.
  - unfold step_here. by rewrite Hc.
  - destruct (kids !! i) as [[g callee] |] eqn:Hi; [| done].
    destruct (Forall_lookup_1 _ _ _ _ Hk Hi) as [Hg _]. simpl in Hg.
    by subst g.
  - destruct (kids !! i) as [[g callee] |] eqn:Hi; [| done].
    destruct (Forall_lookup_1 _ _ _ _ Hk Hi) as [_ Hfc]. simpl in Hfc.
    by rewrite (IH w callee Hfc).
Qed.

Lemma file_entries_cons_file name data flt r :
  file_entries ((name, File data flt) :: r)
  = (name, File data flt) :: file_entries r.
Proof. done. Qed.

Lemma file_entries_cons_dir name flt sub r :
  file_entries ((name, Dir flt sub) :: r) = file_entries r.
Proof. done. Qed.

Lemma sent_start s n d : sent (CopyFilesAndDirectory s n d) = 0.
Proof. done. Qed.

Lemma sent_step_here cd w f kids w' t' :
  step_here cd w f kids = Some (w', t') → clean t' →
  clean (Task f kids)
  ∧ Z.of_nat (signals w') - sent t' = Z.of_nat (signals w) - sent (Task f kids).
Proof.
  intros Hst Hcl. unfold step_here in Hst.
  assert (Hframe : ∀ c e, at_pc f ≠ Ret c (Some e)).
  { intros c e Epc. by rewrite Epc in Hst. }
  destruct (at_pc f) as [| | [| [name [data flt | flt sub]] r] | r | r | | c e]
    eqn:Epc.
  - destruct (ensure_destination _ _ _) as [? [? |]]; simplify_eq;
      apply clean_Task in Hcl as [Hnr Hk];
      [by exfalso; eapply Hnr |].
    split; [apply clean_Task; split; [by rewrite Epc | done] |].
    rewrite !sent_Task. unfold own_sent. simpl. rewrite Epc. done.
  - destruct (ReadDir_copy _ _) as [entries | err] eqn:Hread; simplify_eq;
      apply clean_Task in Hcl as [Hnr Hk];
      [| by exfalso; eapply Hnr].
    split; [apply clean_Task; split; [by rewrite Epc | done] |].
    rewrite !sent_Task. unfold own_sent. simpl. rewrite Epc.
    unfold ReadDir_copy in Hread. destruct (sourceNode f); [done |].
    destruct (list_err flt); simplify_eq. simpl. lia.
  - simplify_eq. apply clean_Task in Hcl as [Hnr Hk].
    split; [apply clean_Task; split; [by rewrite Epc | done] |].
    rewrite !sent_Task. unfold own_sent. simpl. rewrite Epc. simpl. lia.
  - destruct (copy_file _ _ _ _ _ _ _) as [st [err |]]; simplify_eq;
      apply clean_Task in Hcl as [Hnr Hk];
      [by exfalso; eapply Hnr |].
    split; [apply clean_Task; split; [by rewrite Epc | done] |].
    rewrite !sent_Task. unfold own_sent. simpl signals. simpl sourceNode.
    simpl at_pc. rewrite Epc, file_entries_cons_file. simpl length. lia.
  - simplify_eq. apply clean_Task in Hcl as [Hnr Hk].
    apply Forall_app in Hk as [Hk _].
    split; [apply clean_Task; split; [by rewrite Epc | done] |].
    rewrite !sent_Task, sumZ_app. unfold own_sent. simpl sourceNode.
    simpl at_pc. rewrite Epc, file_entries_cons_dir.
    cbn [sumZ snd]. rewrite sent_start. lia.
  - destruct (closed w); simplify_eq.
    + done.
    + apply clean_Task in Hcl as [Hnr Hk].
      split; [apply clean_Task; split; [by rewrite Epc | done] |].
      rewrite !sent_Task. unfold own_sent. simpl. rewrite Epc. lia.
  - simplify_eq. apply clean_Task in Hcl as [Hnr Hk].
    split; [apply clean_Task; split; [by rewrite Epc | done] |].
    rewrite !sent_Task. unfold own_sent. simpl. rewrite Epc. lia.
  - destruct (decide (waitGroup f = 0)); simplify_eq.
    apply clean_Task in Hcl as [Hnr Hk].
    split; [apply clean_Task; split; [by rewrite Epc | done] |].
    rewrite !sent_Task. unfold own_sent. simpl. rewrite Epc.
    destruct (firstErr f) as [e' |]; [by exfalso; eapply Hnr | done].
  - done.
Qed.

Lemma sent_step cd th : ∀ w t w' t',
  step cd th w t = Some (w', t') → clean t' →
  clean t ∧ Z.of_nat (signals w') - sent t' = Z.of_nat (signals w) - sent t.
Proof.
  induction th as [| i | i th IH]; intros w [f kids] w' t' Hstep Hcl;
    simpl in Hstep.
  - by eapply sent_step_here.
  - destruct (kids !! i) as [[g callee] |] eqn:Hi; [| done].
    destruct (step_around f g callee) as [[f' g'] |] eqn:Hst; simplify_eq.
    pose proof (step_around_frame _ _ _ _ _ Hst) as (_ & Hsn & _ & Hpc).
    apply clean_Task in Hcl as [Hnr Hk]. split.
    + apply clean_Task. split; [by rewrite <- Hpc |].
      apply Forall_lookup_2. intros j k Hj.
      destruct (decide (i = j)) as [<- | Hne].
      * simplify_eq.
        apply (Forall_lookup_1 _ _ i (g', callee)) in Hk; [done |].
        apply list_lookup_insert_eq. by eapply lookup_lt_Some.
      * apply (Forall_lookup_1 _ _ j k) in Hk; [done |].
        by rewrite list_lookup_insert_ne.
    + rewrite !sent_Task.
      rewrite (sumZ_insert (λ k : gstage * task, sent k.2) _ _ _ _ Hi).
      unfold own_sent. rewrite Hsn, Hpc. simpl. lia.
  - destruct (kids !! i) as [[g callee] |] eqn:Hi; [| done].
    destruct (step cd th w callee) as [[w1 callee'] |] eqn:Hst; simplify_eq.
    apply clean_Task in Hcl as [Hnr Hk].
    assert (Hcc : clean callee').
    { apply (Forall_lookup_1 _ _ i (g, callee')) in Hk; [done |].
      apply list_lookup_insert_eq. by eapply lookup_lt_Some. }
    destruct (IH _ _ _ _ Hst Hcc) as [Hc Hs]. split.
    + apply clean_Task. split; [done |].
      apply Forall_lookup_2. intros j k Hj.
      destruct (decide (i = j)) as [<- | Hne]; [by simplify_eq |].
      apply (Forall_lookup_1 _ _ j k) in Hk; [done |].
      by rewrite list_lookup_insert_ne.
    + rewrite !sent_Task.
      rewrite (sumZ_insert (λ k : gstage * task, sent k.2) _ _ _ _ Hi).
      simpl. lia.
Qed.

Lemma sent_run cd ths : ∀ w t w' t',
  run cd ths (w, t) = Some (w', t') → finished t' →
  clean t ∧ panicked w' = panicked w
  ∧ Z.of_nat (signals w') - sent t' = Z.of_nat (signals w) - sent t.
Proof.
  induction ths as [| th ths IH]; intros w t w' t' Hrun Hf;
    simpl in Hrun.
  - simplify_eq. split; [by apply finished_clean | done].
  - unfold sched in Hrun. simpl in Hrun.
    destruct (panicked w) eqn:Hpan; [done |].
    destruct (step cd th w t) as [[w1 t1] |] eqn:Hst; [| done].
    destruct (IH _ _ _ _ Hrun Hf) as (Hc & Hp & Hs).
    destruct (sent_step _ _ _ _ _ _ Hst Hc) as [Hc0 Hs0].
    split; [done |]. split; [| lia].
    destruct (step_cases _ _ _ _ _ _ Hst) as [(_ & Hp1 & _) | (-> & Hp1 & _)];
      [congruence |].
    destruct ths as [| th2 ths]; simpl in Hrun.
    + simplify_eq. by rewrite (finished_quiescent cd th w _ Hf) in Hst.
    + unfold sched in Hrun. simpl in Hrun. by rewrite Hp1 in Hrun.
Qed.

(** X1. Whatever fails and however the goroutines are scheduled: when a
    call of [CopyFilesAndDirectory] has returned a nil error, its source is
    a directory, the count returned is the number of files of the source
    tree, that many progress signals were sent during the call, no
    goroutine panicked, and nothing is left running: every goroutine of
    the call has finished and no thread can move any more. *)
Theorem CopyFilesAndDirectory_nil_error_complete (cd : CopyDirectory)
  (n : node) (s d : path) (w w' : world) (ths : list thread) (t' : task)
  (c : Z) :
  run cd ths (w, CopyFilesAndDirectory s n d) = Some (w', t') →
  result t' = Some (c, None) →
  IsDir n = true
  ∧ c = wrap (Z.of_nat (leaves n))
  ∧ signals w' = (signals w + leaves n)%nat
  ∧ panicked w' = panicked w
  ∧ finished t'
  ∧ ∀ th w'', step cd th w'' t' = None.
Proof.
  intros Hrun Hr.
  destruct (run_total cd ths w _ w' t' (WF_start s n d) Hrun) as [Hwf _].
  assert (Hacc : Acc t').
  { clear Hr Hwf. revert Hrun.
    generalize (WF_start s n d) (Acc_start s n d).
    generalize (CopyFilesAndDirectory s n d) as t. revert w.
    induction ths as [| th ths IH]; intros w t Hwf Hacc Hrun;
      simpl in Hrun; [by simplify_eq |].
    unfold sched in Hrun. simpl in Hrun.
    destruct (panicked w); [done |].
    destruct (step cd th w t) as [[w1 t1] |] eqn:Hst; [| done].
    eapply IH; [| | apply Hrun].
    - by eapply WF_step.
    - by eapply Acc_step. }
  assert (Hsn : sourceNode (frame_of t') = n).
  { clear Hr Hwf Hacc. revert Hrun.
    change n with (sourceNode (frame_of (CopyFilesAndDirectory s n d))) at 2.
    generalize (CopyFilesAndDirectory s n d) as t. revert w.
    induction ths as [| th ths IH]; intros w t Hrun;
      simpl in Hrun; [by simplify_eq |].
    unfold sched in Hrun. simpl in Hrun.
    destruct (panicked w); [done |].
    destruct (step cd th w t) as [[w1 t1] |] eqn:Hst; [| done].
    rewrite (IH _ _ Hrun).
    by destruct (step_args _ _ _ _ _ _ Hst) as (_ & -> & _). }
  destruct (Acc_complete t' c Hwf Hacc Hr) as (Hdir & Hc & Hsent & Hfin).
  rewrite Hsn in Hdir, Hc, Hsent.
  destruct (sent_run _ _ _ _ _ _ Hrun Hfin) as (_ & Hpan & Hsig).
  rewrite Hsent, sent_start in Hsig.
  repeat (split; [done || lia |]).
  intros th w''. by apply finished_quiescent.
Qed.

(** ** When CountFiles fails *)

(** The loop of [CountFiles] fails at the first subdirectory whose count
    fails. *)
Lemma CountFiles_loop_cases directory es :
  Forall (λ e, ∀ d, IsDir e.2 = true →
            (listable e.2
             ∧ CountFiles d e.2 = (wrap (Z.of_nat (leaves e.2)), None))
            ∨ (¬ listable e.2
               ∧ ∃ q flt sub errno,
                   node_at e.2 q (Dir flt sub) ∧ count_err flt = Some errno
                   ∧ CountFiles d e.2
                     = (0, Some (PathError "open" (d ++ q) errno)))) es →
  ∀ c,
    (listable_list es
     ∧ CountFiles_loop directory es (wrap c)
       = (wrap (c + Z.of_nat (leaves_list es)), None))
    ∨ (¬ listable_list es
       ∧ ∃ name child q flt sub errno,
           (name, child) ∈ es ∧ node_at child q (Dir flt sub)
           ∧ count_err flt = Some errno
           ∧ CountFiles_loop directory es (wrap c)
             = (0, Some (PathError "open" (directory ++ name :: q) errno))).
Proof.
  induction 1 as [| [name child] es Hc _ IH]; intros c.
  - left. split; [done |]. simpl. by rewrite Z.add_0_r.
  - simpl in Hc. simpl CountFiles_loop. simpl listable_list.
    destruct (IsDir child) eqn:Hd.
    + destruct (Hc (directory ++ [name]) eq_refl)
        as [[Hl Hcount] | (Hnl & q & flt & sub & errno & Hq & Herr & Hcount)];
        rewrite Hcount.
      * rewrite wrap_add_r, wrap_add_l.
        destruct (IH (c + Z.of_nat (leaves child)))
          as [[Hls Hloop] | (Hnls & name' & child' & q & flt & sub & errno
                             & Hin & Hq & Herr & Hloop)].
        -- left. split; [done |]. rewrite Hloop. cbn [leaves_list].
           f_equal. f_equal. lia.
        -- right. split; [tauto |].
           exists name', child', q, flt, sub, errno.
           split; [by right | done].
      * right. split; [tauto |]. exists name, child, q, flt, sub, errno.
        split; [by left |]. rewrite <- app_assoc. done.
    + rewrite wrap_add_l.
      destruct (IH (c + 1))
        as [[Hls Hloop] | (Hnls & name' & child' & q & flt & sub & errno
                           & Hin & Hq & Herr & Hloop)].
      * left. split; [by destruct child |]. rewrite Hloop.
        cbn [leaves_list]. rewrite (leaves_File_entry child Hd).
        f_equal. f_equal. lia.
      * right. split; [tauto |].
        exists name', child', q, flt, sub, errno. split; [by right | done].
Qed.

(** A count without error is the number of files of a tree that can be
    listed. *)
Lemma CountFiles_loop_succeeds directory es :
  Forall (λ e, ∀ d c, CountFiles d e.2 = (c, None) →
                      IsDir e.2 = true ∧ listable e.2
                      ∧ c = wrap (Z.of_nat (leaves e.2))) es →
  ∀ a c, CountFiles_loop directory es (wrap a) = (c, None) →
         listable_list es ∧ c = wrap (a + Z.of_nat (leaves_list es)).
Proof.
  induction 1 as [| [name child] es Hc _ IH]; intros a c Hloop;
    simpl in Hloop.
  - simplify_eq. split; [done |]. simpl. by rewrite Z.add_0_r.
  - simpl in Hc. cbn [listable_list leaves_list].
    destruct (IsDir child) eqn:Hd.
    + destruct (CountFiles (directory ++ [name]) child) as [k [e |]] eqn:Hk;
        [done |].
      destruct (Hc _ _ Hk) as (_ & Hl & ->).
      rewrite wrap_add_r, wrap_add_l in Hloop.
      destruct (IH _ _ Hloop) as [Hls ->].
      split; [done |]. f_equal. lia.
    + rewrite wrap_add_l in Hloop. destruct (IH _ _ Hloop) as [Hls ->].
      split; [by destruct child |].
      rewrite (leaves_File_entry child Hd). f_equal. lia.
Qed.

Lemma CountFiles_succeeds directory n c :
  CountFiles directory n = (c, None) →
  IsDir n = true ∧ listable n ∧ c = wrap (Z.of_nat (leaves n)).
Proof.
  revert directory c.
  induction n as [data flt | flt entries IH] using node_induction;
    intros directory c H; [done |].
  rewrite CountFiles_Dir in H. rewrite listable_Dir, leaves_Dir.
  destruct (count_err flt) as [errno |] eqn:Hc; [done |].
  change 0 with (wrap 0) in H at 1.
  destruct (CountFiles_loop_succeeds directory entries IH 0 c H) as [Hl ->].
  done.
Qed.

(** X9. [CountFiles] on a directory succeeds exactly when every
    directory of the tree can be listed, and then returns the number of
    files; otherwise it returns count 0 and the error of [os.ReadDir] on a
    directory of the tree that cannot be listed, however deep it is and
    however many files were counted before, with the path of that
    directory: [directory] joined with the names that lead to it. *)
Theorem CountFiles_fails_iff_unlistable (n : node) (directory : path) :
  IsDir n = true →
  (listable n
   ∧ CountFiles directory n = (wrap (Z.of_nat (leaves n)), None))
  ∨ (¬ listable n
     ∧ ∃ q flt sub errno,
         node_at n q (Dir flt sub) ∧ count_err flt = Some errno
         ∧ CountFiles directory n
           = (0, Some (PathError "open" (directory ++ q) errno))).
Proof.
  revert directory.
  induction n as [data flt | flt entries IH] using node_induction;
    intros directory Hdir; [done |].
  rewrite CountFiles_Dir, listable_Dir, leaves_Dir.
  destruct (count_err flt) as [errno |] eqn:Hc.
  - right. split; [by intros [? _] |].
    exists [], flt, entries, errno. by rewrite app_nil_r.
  - change 0 with (wrap 0) at 1.
    destruct (CountFiles_loop_cases directory entries IH 0)
      as [[Hls Hloop] | (Hnls & name & child & q & flt' & sub & errno
                         & Hin & Hq & Herr & Hloop)].
    + left. by rewrite Hloop.
    + right. split; [tauto |]. exists (name :: q), flt', sub, errno.
      split; [| done]. simpl. by exists child.
Qed.

Lemma CountFiles_fails_iff_unlistable_witness :
  CountFiles ["src"%string] tree_unlistable_sub
  = (0, Some (PathError "open" ["src"%string; "locked"%string] EACCES))
  ∧ ((listable tree_unlistable_sub
      ∧ CountFiles ["src"%string] tree_unlistable_sub
        = (wrap (Z.of_nat (leaves tree_unlistable_sub)), None))
     ∨ (¬ listable tree_unlistable_sub
        ∧ ∃ q flt sub errno,
            node_at tree_unlistable_sub q (Dir flt sub)
            ∧ count_err flt = Some errno
            ∧ CountFiles ["src"%string] tree_unlistable_sub
              = (0, Some (PathError "open" (["src"%string] ++ q) errno)))).
Proof.
  split; [reflexivity |].
  apply (CountFiles_fails_iff_unlistable tree_unlistable_sub ["src"%string]).
  reflexivity.
Defined.

(** ** Copy, failures or not *)

Lemma step_here_closed cd w f kids w' t' :
  step_here cd w f kids = Some (w', t') → closed w' = closed w.
Proof.
  unfold step_here. intros H.
  repeat (case_match; simplify_eq/=); done.
Qed.

Lemma step_closed cd th : ∀ w t w' t',
  step cd th w t = Some (w', t') → closed w' = closed w.
Proof.
  induction th as [| i | i th IH]; intros w [f kids] w' t' Hstep;
    simpl in Hstep.
  - by eapply step_here_closed.
  - repeat (case_match; simplify_eq/=); done.
  - destruct (kids !! i) as [[g callee] |]; [| done].
    destruct (step cd th w callee) as [[w1 callee'] |] eqn:Hst;
      simplify_eq. by eapply IH.
Qed.

Section copy_all.
Variable cd : CopyDirectory.
Variable n : node.
Variables source destination : path.
Variable st0 : gmap (list string) dentry.

Lemma copy_acc_init : copy_acc source n st0 (Copy_init st0).
Proof. done. Qed.

Lemma copy_acc_step x s s' :
  copy_acc source n st0 s →
  Copy_step cd source n destination x s = Some s' →
  copy_acc source n st0 s'
  ∧ (copy_cost_all n s' < copy_cost_all n s)%nat.
Proof.
  unfold copy_acc, Copy_step, copy_cost_all. intros Hinv Hstep.
  destruct (panicked (cworld s)) eqn:Hpan; [done |].
  destruct x as [| th].
  - destruct (cpc s) as [| total | c e | c e] eqn:Epc.
    + destruct (ctask s) as [t |] eqn:Ht; [done |].
      destruct (CountFiles source n) as [total [err |]] eqn:Hc;
        simplify_eq; cbn [cpc cworld ctask from_option].
      * rewrite Hinv. simpl. split; [| lia].
        split; [by eexists _, _ |]. done.
      * rewrite Hinv. cbn [panicked closed signals].
        rewrite task_cost_start. split; [| lia].
        do 3 (split; [done |]). split; [apply WF_start |].
        split; [apply Acc_start |]. split; [done |]. by rewrite sent_start.
    + destruct (ctask s) as [t |] eqn:Ht; [| done].
      destruct Hinv as (Hc & Hcl & _ & Hwf & Hacc & Hsn & Hsig).
      destruct (result t) as [[c e] |] eqn:Hr; simplify_eq/=.
      rewrite Hpan. split; [| lia].
      split; [by eexists |]. by repeat (split; [done |]).
    + simplify_eq/=. rewrite Hpan. split; [| lia].
      by destruct (ctask s).
    + done.
  - destruct (ctask s) as [t |] eqn:Ht; [| done].
    destruct (step cd th (cworld s) t) as [[w' t'] |] eqn:Hst;
      simplify_eq/=.
    pose proof (step_closed _ _ _ _ _ _ Hst) as Hclosed.
    assert (Hcost : ((if panicked w' then 0 else 1) + task_cost t'
                     < 1 + task_cost t)%nat).
    { destruct (step_cases _ _ _ _ _ _ Hst)
        as [(Hc & Hp & _) | (-> & Hp & _)]; rewrite Hp, ?Hpan; lia. }
    split; [| lia].
    assert (Hsig' : (clean t → Z.of_nat (signals (cworld s)) = sent t) →
                    clean t' → Z.of_nat (signals w') = sent t').
    { intros Hsig Hcl'.
      destruct (sent_step _ _ _ _ _ _ Hst Hcl') as [Hcl Hs].
      specialize (Hsig Hcl). lia. }
    destruct (cpc s) as [| total | c e | c e] eqn:Epc; [done | | |].
    + destruct Hinv as (Hc & Hcl & _ & Hwf & Hacc & Hsn & Hsig).
      split; [done |]. split; [congruence |]. split.
      { destruct (step_cases _ _ _ _ _ _ Hst)
          as [(_ & Hp & _) | (_ & _ & Hp)]; congruence. }
      split; [by eapply WF_step |]. split; [by eapply Acc_step |].
      split; [| by apply Hsig'].
      by destruct (step_args _ _ _ _ _ _ Hst) as (_ & -> & _).
    + destruct Hinv as (Hc & Hcl & Hwf & Hacc & Hsn & Hr & Hsig & Hnil).
      split; [done |]. split; [congruence |].
      split; [by eapply WF_step |]. split; [by eapply Acc_step |].
      split; [by destruct (step_args _ _ _ _ _ _ Hst) as (_ & -> & _) |].
      split; [by eapply step_result |]. split; [by apply Hsig' |].
      intros ->.
      destruct (Acc_complete t c Hwf Hacc Hr) as (_ & _ & _ & Hfin).
      by rewrite (finished_quiescent cd th (cworld s) t Hfin) in Hst.
    + destruct Hinv as (Hc & Hcl & Hwf & Hacc & Hsn & Hr & Hsig & Hnil).
      split; [done |]. split; [congruence |].
      split; [by eapply WF_step |]. split; [by eapply Acc_step |].
      split; [by destruct (step_args _ _ _ _ _ _ Hst) as (_ & -> & _) |].
      split; [by eapply step_result |]. split; [by apply Hsig' |].
      intros ->.
      destruct (Acc_complete t c Hwf Hacc Hr) as (_ & _ & _ & Hfin).
      by rewrite (finished_quiescent cd th (cworld s) t Hfin) in Hst.
Qed.

Lemma copy_acc_run who : ∀ s s',
  copy_acc source n st0 s →
  Copy_run cd source n destination who s = Some s' →
  copy_acc source n st0 s'
  ∧ (length who + copy_cost_all n s' ≤ copy_cost_all n s)%nat.
Proof.
  induction who as [| x who IH]; intros s s' Hinv Hrun; simpl in Hrun.
  - simplify_eq. split; [done | simpl; lia].
  - destruct (Copy_step cd source n destination x s) as [s1 |] eqn:Hst;
      [| done].
    destruct (copy_acc_step _ _ _ Hinv Hst) as [Hinv1 Hc1].
    destruct (IH _ _ Hinv1 Hrun) as [Hinv' Hc']. split; [done |].
    simpl. lia.
Qed.

Lemma copy_acc_progress s :
  copy_acc source n st0 s → panicked (cworld s) = false →
  (∀ c e, cpc s ≠ CopyRet c e) →
  ∃ x s', Copy_step cd source n destination x s = Some s'.
Proof.
  unfold copy_acc, Copy_step. intros Hinv Hpan Hnr. rewrite Hpan.
  destruct (cpc s) as [| total | c e | c e] eqn:Epc.
  - exists Main. destruct (CountFiles source n) as [c [e |]]; by eexists.
  - destruct (ctask s) as [t |] eqn:Ht; [| done].
    destruct Hinv as (Hc & Hcl & _ & Hwf & Hacc & Hsn & Hsig).
    destruct (result t) as [[c e] |] eqn:Hr.
    + exists Main. by eexists.
    + destruct (WF_progress cd (cworld s) t Hwf Hr) as (th & [w' t'] & Hst).
      exists (Worker th). rewrite Hst. by eexists.
  - exists Main. by eexists.
  - by destruct (Hnr c e).
Qed.
End copy_all.

(** X8. Every run of [Copy], failures or not, is bounded, and
    unless a goroutine has panicked it can go on until [Copy] has returned.
    What [Copy] returns: when [CountFiles] fails, count 0 and that error,
    with nothing created, no signal sent and the copier not called; when
    it succeeds, the count and the error that its call of
    [CopyFilesAndDirectory] returned, after the progress channel was
    closed. *)
Theorem Copy_returns (cd : CopyDirectory) (source : path) (n : node)
  (destination : path) (st0 : store) (who : list copy_thread)
  (s : copy_state) :
  Copy_run cd source n destination who (Copy_init st0) = Some s →
  (length who ≤ 8 + cost_list (entries_of n))%nat
  ∧ (panicked (cworld s) = false → (∀ c e, cpc s ≠ CopyRet c e) →
     ∃ x s', Copy_step cd source n destination x s = Some s')
  ∧ (∀ c e,
       cpc s = CopyRet c e →
       match CountFiles source n with
       | (_, Some err) =>
           c = 0 ∧ e = Some err ∧ ctask s = None
           ∧ cworld s = World st0 false 0 false
       | (_, None) =>
           closed (cworld s) = true
           ∧ ∃ t, ctask s = Some t ∧ result t = Some (c, e)
       end).
Proof.
  intros Hrun.
  destruct (copy_acc_run cd n source destination st0 who _ _
              (copy_acc_init _ _ _) Hrun) as [Hinv Hlen].
  split; [| split].
  - unfold copy_cost_all in Hlen at 2. simpl in Hlen. lia.
  - intros Hpan Hnr. by eapply copy_acc_progress.
  - intros c e Epc. unfold copy_acc in Hinv. rewrite Epc in Hinv.
    destruct (ctask s) as [t |] eqn:Ht.
    + destruct Hinv as ([total Hc] & Hcl & _ & _ & _ & Hr & _).
      rewrite Hc. split; [done |]. by exists t.
    + destruct Hinv as ((c0 & err & Hc & ->) & -> & Hw). by rewrite Hc.
Qed.

Lemma Copy_returns_witness :
  ∃ s,
    Copy_run cd_default ["src"%string] tree_sub_then_bad_file ["dst"%string]
      [Main; Worker Here; Worker Here; Worker Here; Worker Here; Main; Main]
      (Copy_init ∅) = Some s
    ∧ cpc s = CopyRet 0 (Some bad_file_error)
    ∧ (7 ≤ 8 + cost_list (entries_of tree_sub_then_bad_file))%nat
    ∧ (panicked (cworld s) = false → (∀ c e, cpc s ≠ CopyRet c e) →
       ∃ x s', Copy_step cd_default ["src"%string] tree_sub_then_bad_file
                 ["dst"%string] x s = Some s')
    ∧ (∀ c e,
         cpc s = CopyRet c e →
         match CountFiles ["src"%string] tree_sub_then_bad_file with
         | (_, Some err) =>
             c = 0 ∧ e = Some err ∧ ctask s = None
             ∧ cworld s = World ∅ false 0 false
         | (_, None) =>
             closed (cworld s) = true
             ∧ ∃ t, ctask s = Some t ∧ result t = Some (c, e)
         end).
Proof.
  eexists. split; [vm_compute; reflexivity |]. split; [reflexivity |].
  apply (Copy_returns cd_default ["src"%string] tree_sub_then_bad_file
           ["dst"%string] ∅
           [Main; Worker Here; Worker Here; Worker Here; Worker Here;
            Main; Main]).
  vm_compute. reflexivity.
Defined.

(** ** CopyMultipleSources: a nil error means a complete copy *)

Lemma returned_nil_finished gt :
  WF gt.2 → Acc gt.2 → returned_nil gt → finished gt.2.
Proof.
  intros Hwf Hacc [_ [c Hr]].
  by destruct (Acc_complete _ c Hwf Hacc Hr) as (_ & _ & _ & ?).
Qed.

Section multi_all.
Variable cd : CopyDirectory.
Variable sources : list (path * node).
Variable destination : path.
Variable dflt : option (nat * errno).

Lemma multi_acc_init st : multi_acc sources (CopyMultipleSources_init st).
Proof. unfold multi_acc. simpl. split; [constructor | done]. Qed.

(** With no error in [errChan] after the wait, every call has returned a
    nil error. *)
Lemma closed_nil_returned s :
  multi_inv sources destination s → mpc s = MClosed → errChan s = [] →
  ∀ i gt, mgos s !! i = Some gt → returned_nil gt.
Proof.
  intros (Hsrc & Hres & Hwg & Hpc) Epc Hec i gt Hi. rewrite Epc in Hpc.
  destruct Hpc as (Hlen & (_ & _ & Hnone) & Hz).
  rewrite Hz in Hwg.
  pose proof (sumZ_alive_zero _ (eq_sym Hwg) i gt Hi) as Hex.
  split; [done |].
  destruct (Hres i gt Hi) as [[c e] Hr]; [by rewrite Hex |].
  pose proof (Hnone Hec i gt Hi (or_intror Hex)) as He.
  unfold returned_error in He. rewrite Hr in He. subst e. by exists c.
Qed.

Lemma around_shape i s s' :
  CopyMultipleSources_step cd sources destination dflt (MAround i) s
  = Some s' →
  ∃ g callee g',
    mgos s !! i = Some (g, callee) ∧ g ≠ SExit
    ∧ mgos s' = <[i:=(g', callee)]> (mgos s)
    ∧ mworld s' = mworld s ∧ mpc s' = mpc s
    ∧ (errChan s' = [] → errChan s = []).
Proof.
  unfold CopyMultipleSources_step. intros Hstep.
  destruct (panicked (mworld s)); [done |].
  destruct (mgos s !! i) as [[g callee] |] eqn:Hi; [| done].
  destruct g; simplify_eq/=; repeat (case_match; simplify_eq/=);
    eexists _, callee, _; repeat split; try done.
  by intros [? _]%app_eq_nil.
Qed.

Lemma Forall_insert_same_task (P : task → Prop) (gos : list (sstage * task))
  i g callee g' :
  gos !! i = Some (g, callee) →
  Forall (λ gt, P gt.2) (<[i:=(g', callee)]> gos)
  ↔ Forall (λ gt, P gt.2) gos.
Proof.
  intros Hi. rewrite !Forall_lookup. split; intros H j gt Hj.
  - destruct (decide (i = j)) as [<- | Hne].
    + simplify_eq. apply (H i (g', callee)).
      apply list_lookup_insert_eq. by eapply lookup_lt_Some.
    + apply (H j gt). by rewrite list_lookup_insert_ne.
  - destruct (decide (i = j)) as [<- | Hne].
    + rewrite list_lookup_insert_eq in Hj by by eapply lookup_lt_Some.
      simplify_eq. apply (H i _ Hi).
    + rewrite list_lookup_insert_ne in Hj by done. by apply (H j gt).
Qed.

Lemma multi_acc_step x s s' :
  multi_inv sources destination s → multi_wf s → multi_acc sources s →
  CopyMultipleSources_step cd sources destination dflt x s = Some s' →
  multi_acc sources s'.
Proof.
  intros Hinv Hwf (Hacc & Hsig & Hpc) Hstep.
  pose proof Hstep as Hstep0.
  unfold CopyMultipleSources_step in Hstep.
  destruct (panicked (mworld s)) eqn:Hpan; [done |].
  destruct x as [| i | i th].
  - destruct (mpc s) as [| total | [| [src n] rest] | | | count err] eqn:Epc.
    + destruct Hpc as [Hcl _].
      destruct (count_sources sources 0) as [c [e |]]; simplify_eq;
        unfold multi_acc; simpl; by repeat (split; [done |]).
    + destruct Hpc as [Hcl _].
      destruct (ensure_destination _ _ _) as [? [? |]]; simplify_eq;
        unfold multi_acc; simpl; by repeat (split; [done |]).
    + destruct Hpc as [Hcl _].
      simplify_eq. unfold multi_acc. simpl. by repeat (split; [done |]).
    + destruct Hpc as [Hcl _].
      simplify_eq. unfold multi_acc. simpl. split; [| split; [| done]].
      * apply Forall_app. split; [done |]. constructor; [| constructor].
        apply Acc_start.
      * intros Hc. apply Forall_app in Hc as [Hc _].
        rewrite sumZ_app, (Hsig Hc). cbn [sumZ snd]. rewrite sent_start.
        lia.
    + destruct (decide (mwaitGroup s = 0)); simplify_eq.
      unfold multi_acc. simpl. do 3 (split; [done |]).
      intros _. by destruct Hpc.
    + simplify_eq. unfold multi_acc. simpl.
      do 2 (split; [done |]). intros Hhead.
      destruct Hpc as [Hcl Hnp].
      assert (Hec : errChan s = []) by by destruct (errChan s).
      pose proof (closed_nil_returned s Hinv Epc Hec) as Hnil.
      destruct Hinv as (_ & _ & _ & Hm). rewrite Epc in Hm.
      destruct Hm as (Hlen & (Hcc & _) & _).
      do 3 (split; [auto |]). split; [| done].
      rewrite sum_counts_sumZ, Hcc. f_equal.
      apply sumZ_ext_lookup. intros i gt Hi.
      destruct (Hnil i gt Hi) as [Hex _]. unfold sent_count.
      by rewrite Hex, decide_False.
    + done.
  - destruct (around_shape _ _ _ Hstep0)
      as (g & callee & g' & Hi & Hg & Hgos & Hw & Hmpc & Hec).
    unfold multi_acc. rewrite Hgos, Hw, Hmpc.
    split; [| split].
    + by apply (Forall_insert_same_task Acc _ _ _ _ _ Hi).
    + intros Hcl. apply (Forall_insert_same_task clean _ _ _ _ _ Hi) in Hcl.
      rewrite (sumZ_insert (λ gt : sstage * task, sent gt.2) _ _ _ _ Hi).
      rewrite (Hsig Hcl). simpl. lia.
    + destruct (mpc s) as [| | | | | count err] eqn:Epc; rewrite ?Hpan;
        try done.
      * destruct Hpc as [Hcl Hnp]. split; [done |]. auto.
      * intros He. destruct (Hpc He) as (_ & _ & _ & _ & Hnil).
        destruct (Hnil i _ Hi) as [Hex _]. done.
  - destruct (mgos s !! i) as [[g callee] |] eqn:Hi; [| done].
    destruct (step cd th (mworld s) callee) as [[w' callee'] |] eqn:Hst;
      simplify_eq.
    pose proof (Forall_lookup_1 _ _ _ _ Hwf Hi) as Hwfc.
    pose proof (Forall_lookup_1 _ _ _ _ Hacc Hi) as Haccc.
    simpl in Hwfc, Haccc.
    assert (Hmoves : ¬ returned_nil (g, callee)).
    { intros Hnil.
      pose proof (returned_nil_finished (g, callee) Hwfc Haccc Hnil) as Hf.
      by rewrite (finished_quiescent cd th (mworld s) callee Hf) in Hst. }
    unfold multi_acc. simpl. split; [| split].
    + apply Forall_insert; [done |]. simpl. by eapply Acc_step.
    + intros Hcl.
      assert (Hcc : clean callee').
      { apply (Forall_lookup_1 _ _ i (g, callee')) in Hcl; [done |].
        apply list_lookup_insert_eq. by eapply lookup_lt_Some. }
      destruct (sent_step _ _ _ _ _ _ Hst Hcc) as [Hc0 Hs].
      rewrite (sumZ_insert (λ gt : sstage * task, sent gt.2) _ _ _ _ Hi).
      simpl. rewrite <- Hsig; [lia |].
      apply Forall_lookup_2. intros j gt Hj.
      destruct (decide (i = j)) as [<- | Hne]; [by simplify_eq |].
      apply (Forall_lookup_1 _ _ j gt) in Hcl; [done |].
      by rewrite list_lookup_insert_ne.
    + pose proof (step_closed _ _ _ _ _ _ Hst) as Hclosed.
      destruct (mpc s) as [| | | | | count err] eqn:Epc.
      1-4: destruct Hpc as [Hcl _]; split; [congruence |];
        destruct (step_cases _ _ _ _ _ _ Hst)
          as [(_ & Hp & _) | (_ & _ & Hp)]; congruence.
      * destruct Hpc as [Hcl Hnp]. split; [congruence |]. intros Hec.
        destruct Hmoves. by eapply closed_nil_returned.
      * intros He. destruct (Hpc He) as (_ & _ & _ & _ & Hnil).
        destruct Hmoves. by eapply Hnil.
Qed.

Lemma multi_acc_run who : ∀ s s',
  multi_inv sources destination s → multi_wf s → multi_acc sources s →
  CopyMultipleSources_run cd sources destination dflt who s = Some s' →
  multi_inv sources destination s' ∧ multi_wf s' ∧ multi_acc sources s'.
Proof.
  induction who as [| x who IH]; intros s s' Hinv Hwf Hacc Hrun;
    simpl in Hrun.
  - by simplify_eq.
  - destruct (CopyMultipleSources_step cd sources destination dflt x s)
      as [s1 |] eqn:Hst; [| done].
    eapply IH; [| | | apply Hrun].
    + by eapply multi_inv_step.
    + by eapply multi_wf_step.
    + by eapply multi_acc_step.
Qed.
End multi_all.

Lemma counted_step cd sources destination dflt x s s' :
  counted sources s →
  CopyMultipleSources_step cd sources destination dflt x s = Some s' →
  counted sources s'.
Proof.
  unfold counted, CopyMultipleSources_step. intros Hc Hstep.
  destruct (panicked (mworld s)); [done |].
  destruct x as [| i | i th].
  - destruct (mpc s) as [| total | [| [src n] rest] | | | count err] eqn:Epc;
      repeat (case_match; simplify_eq/=); eauto.
  - destruct (mgos s !! i) as [[g callee] |]; [| done].
    destruct g; simplify_eq/=; repeat (case_match; simplify_eq/=); done.
  - destruct (mgos s !! i) as [[g callee] |]; [| done].
    destruct (step cd th (mworld s) callee) as [[w' callee'] |];
      simplify_eq/=. done.
Qed.

Lemma counted_run cd sources destination dflt who : ∀ s s',
  counted sources s →
  CopyMultipleSources_run cd sources destination dflt who s = Some s' →
  counted sources s'.
Proof.
  induction who as [| x who IH]; intros s s' Hc Hrun; simpl in Hrun;
    [by simplify_eq |].
  destruct (CopyMultipleSources_step cd sources destination dflt x s)
    as [s1 |] eqn:Hst; [| done].
  eapply IH; [| apply Hrun]. by eapply counted_step.
Qed.

(** The counting loop adds up the numbers of files of the sources. *)
Lemma count_sources_succeeds sources : ∀ a c,
  count_sources sources (wrap a) = (c, None) →
  c = wrap (a + leaves_sources sources).
Proof.
  unfold leaves_sources.
  induction sources as [| [src n] sources IH]; intros a c H; simpl in H.
  - simplify_eq. simpl. by rewrite Z.add_0_r.
  - destruct (CountFiles src n) as [k [e |]] eqn:Hk; [done |].
    destruct (CountFiles_succeeds _ _ _ Hk) as (_ & _ & ->).
    rewrite wrap_add_l, wrap_add_r in H. apply IH in H. rewrite H.
    cbn [sumZ snd]. f_equal. lia.
Qed.

(** X5. Whatever fails and however the goroutines are scheduled:
    when [CopyMultipleSources] has returned a nil error, every source is
    a directory, the count returned is the total that the counting loop
    gave for the progress bar, which is the number of files of all the
    source trees, the consumer of the progress channel received exactly
    that many signals, the channel is closed, no goroutine has panicked,
    and no thread is left that can move. *)
Theorem CopyMultipleSources_nil_error_complete (cd : CopyDirectory)
  (sources : list (path * node)) (destination : path)
  (dflt : option (nat * errno))
  (st : store) (who : list multi_thread) (s : multi_state) (count : Z) :
  CopyMultipleSources_run cd sources destination dflt who
    (CopyMultipleSources_init st) = Some s →
  mpc s = MRet count None →
  Forall (λ sn, IsDir sn.2 = true) sources
  ∧ count_sources sources 0 = (count, None)
  ∧ count = wrap (leaves_sources sources)
  ∧ Z.of_nat (signals (mworld s)) = leaves_sources sources
  ∧ closed (mworld s) = true
  ∧ panicked (mworld s) = false
  ∧ ∀ x, CopyMultipleSources_step cd sources destination dflt x s = None.
Proof.
  intros Hrun Epc.
  destruct (multi_acc_run cd sources destination dflt who _ _
              (multi_inv_init sources destination st)
              ltac:(constructor) (multi_acc_init sources st) Hrun)
    as ((Hsrc & _) & Hwf & Hacc & Hsig & Hpc).
  rewrite Epc in Hpc.
  destruct (Hpc eq_refl) as (Hcl & Hpan & Hlen & -> & Hnil).
  assert (Hall : Forall2 (λ (sn : path * node) (gt : sstage * task),
                    IsDir sn.2 = true
                    ∧ returned_count gt = wrap (Z.of_nat (leaves sn.2))
                    ∧ sent gt.2 = Z.of_nat (leaves sn.2)
                    ∧ gt.1 = SExit ∧ finished gt.2) sources (mgos s)).
  { apply Forall2_same_length_lookup. split; [done |].
    intros i sn gt Hsn Hgt.
    destruct (Hsrc i gt Hgt) as (src & Hsrc' & _ & Hnode & _).
    simplify_eq.
    destruct (Hnil i gt Hgt) as [Hex [c Hr]].
    pose proof (Forall_lookup_1 _ _ _ _ Hwf Hgt) as Hwfc.
    pose proof (Forall_lookup_1 _ _ _ _ Hacc Hgt) as Haccc.
    destruct (Acc_complete _ c Hwfc Haccc Hr) as (Hdir & Hc & Hsent & Hfin).
    rewrite Hnode in Hdir, Hc, Hsent.
    unfold returned_count. rewrite Hr. done. }
  assert (Hfin : ∀ i gt, mgos s !! i = Some gt → gt.1 = SExit ∧ finished gt.2).
  { intros i gt Hgt.
    apply Forall2_same_length_lookup in Hall as [_ Hall].
    destruct (lookup_lt_is_Some_2 sources i) as [sn Hsn].
    { rewrite <- Hlen. by eapply lookup_lt_Some. }
    by destruct (Hall i sn gt Hsn Hgt) as (_ & _ & _ & ? & ?). }
  assert (Hcount : wrap (sumZ returned_count (mgos s))
                   = wrap (leaves_sources sources)).
  { unfold leaves_sources.
    rewrite <- (wrap_sumZ_wrap (λ sn : path * node, Z.of_nat (leaves sn.2))).
    f_equal. symmetry. apply sumZ_Forall2.
    eapply Forall2_impl; [apply Hall |]. by intros sn gt (_ & -> & _). }
  split; [| split; [| split; [done | split; [| split; [done | split;
    [done |]]]]]].
  - apply Forall_lookup_2. intros i sn Hsn.
    apply Forall2_same_length_lookup in Hall as [_ Hall].
    destruct (lookup_lt_is_Some_2 (mgos s) i) as [gt Hgt].
    { rewrite Hlen. by eapply lookup_lt_Some. }
    by destruct (Hall i sn gt Hsn Hgt) as (? & _).
  - assert (Hc0 : counted sources (CopyMultipleSources_init st)) by done.
    pose proof (counted_run cd sources destination dflt who _ _ Hc0 Hrun)
      as Hc.
    unfold counted in Hc. rewrite Epc in Hc. destruct Hc as [total Hc].
    change 0 with (wrap 0) in Hc at 1.
    rewrite (count_sources_succeeds _ _ _ Hc) in Hc.
    change (wrap 0) with 0 in Hc. rewrite Hc, Hcount. by rewrite Z.add_0_l.
  - rewrite Hsig.
    + unfold leaves_sources. symmetry. apply sumZ_Forall2.
      eapply Forall2_impl; [apply Hall |]. by intros sn gt (_ & _ & -> & _).
    + apply Forall_lookup_2. intros i gt Hgt.
      apply finished_clean. by destruct (Hfin i gt Hgt).
  - intros x. unfold CopyMultipleSources_step. rewrite Hpan.
    destruct x as [| i | i th].
    + by rewrite Epc.
    + destruct (mgos s !! i) as [[g callee] |] eqn:Hi; [| done].
      destruct (Hfin i _ Hi) as [Hex _]. simpl in Hex. by subst g.
    + destruct (mgos s !! i) as [[g callee] |] eqn:Hi; [| done].
      destruct (Hfin i _ Hi) as [_ Hf]. simpl in Hf.
      by rewrite (finished_quiescent cd th (mworld s) callee Hf).
Qed.

Lemma CopyMultipleSources_nil_error_complete_witness :
  ∃ s,
    CopyMultipleSources_run cd_default [source_S; source_T] ["D"%string] None
      schedule_merge (CopyMultipleSources_init ∅) = Some s
    ∧ mpc s = MRet 3 None
    ∧ Forall (λ sn, IsDir sn.2 = true) [source_S; source_T]
    ∧ count_sources [source_S; source_T] 0 = (3, None)
    ∧ 3 = wrap (leaves_sources [source_S; source_T])
    ∧ Z.of_nat (signals (mworld s)) = leaves_sources [source_S; source_T]
    ∧ closed (mworld s) = true
    ∧ panicked (mworld s) = false
    ∧ ∀ x, CopyMultipleSources_step cd_default [source_S; source_T]
             ["D"%string] None x s = None.
Proof.
  eexists. split; [vm_compute; reflexivity |]. split; [reflexivity |].
  apply (CopyMultipleSources_nil_error_complete cd_default
           [source_S; source_T] ["D"%string] None ∅ schedule_merge).
  - vm_compute. reflexivity.
  - reflexivity.
Defined.

(** ** Concrete runs *)

Lemma CopyFilesAndDirectory_total_witness :
  ∃ w' t',
    run cd_default [Here; Here; Here; Inside 0 Here]
        (fresh, CopyFilesAndDirectory ["src"%string] tree_sub_then_bad_file
                  ["dst"%string])
    = Some (w', t')
    ∧ (4 ≤ 5 + cost_list (entries_of tree_sub_then_bad_file))%nat
    ∧ (panicked w' = false → result t' = None →
       ∃ th c, sched cd_default th (w', t') = Some c).
Proof.
  eexists _, _. split; [vm_compute; reflexivity |].
  apply (CopyFilesAndDirectory_total cd_default tree_sub_then_bad_file
           ["src"%string] ["dst"%string] fresh _
           [Here; Here; Here; Inside 0 Here]).
  vm_compute. reflexivity.
Defined.

Lemma CopyFilesAndDirectory_nil_error_complete_witness :
  ∃ w' t',
    run cd_default schedule_unlistable
        (fresh, CopyFilesAndDirectory ["src"%string] tree_unlistable_sub
                  ["dst"%string])
    = Some (w', t')
    ∧ result t' = Some (1, None)
    ∧ IsDir tree_unlistable_sub = true
    ∧ 1 = wrap (Z.of_nat (leaves tree_unlistable_sub))
    ∧ signals w' = (signals fresh + leaves tree_unlistable_sub)%nat
    ∧ panicked w' = panicked fresh
    ∧ finished t'
    ∧ ∀ th w'', step cd_default th w'' t' = None.
Proof.
  eexists _, _. split; [vm_compute; reflexivity |].
  split; [reflexivity |].
  apply (CopyFilesAndDirectory_nil_error_complete cd_default
           tree_unlistable_sub ["src"%string] ["dst"%string] fresh _
           schedule_unlistable).
  - vm_compute. reflexivity.
  - reflexivity.
Defined.

(** ** What a copy changes in the file system *)

Lemma all_frames_Task P f kids :
  all_frames P (Task f kids)
  ↔ P f ∧ Forall (λ k, all_frames P k.2) kids.
Proof.
  simpl. apply and_iff_compat_l.
  induction kids as [| [g k] ks IH]; simpl.
  - split; [constructor | done].
  - rewrite Forall_cons, IH. done.
Qed.

Lemma node_at_snoc n : ∀ q flt entries x child,
  node_at n q (Dir flt entries) → (x, child) ∈ entries →
  node_at n (q ++ [x]) child.
Proof.
  intros q. revert n.
  induction q as [| y q IH]; intros n flt entries x child Hq Hin; simpl in *.
  - subst n. by exists child.
  - destruct n as [| flt' es]; [done |].
    destruct Hq as (c & Hc & Hq). exists c. split; [done |]. by eapply IH.
Qed.

Lemma node_at_prefix n : ∀ q m k,
  node_at n q m → k `prefix_of` q →
  ∃ m', node_at n k m' ∧ (k ≠ q → IsDir m' = true).
Proof.
  intros q. revert n.
  induction q as [| y q IH]; intros n m k Hq Hk.
  - apply prefix_nil_inv in Hk as ->. exists n. by split.
  - destruct k as [| x k].
    + exists n. split; [done |]. intros _. simpl in Hq. by destruct n.
    + apply prefix_cons_inv_1 in Hk as Hxy. subst y.
      apply prefix_cons_inv_2 in Hk. simpl in Hq.
      destruct n as [| flt es]; [done |].
      destruct Hq as (c & Hc & Hq).
      destruct (IH c m k Hq Hk) as (m' & Hm' & Hd).
      exists m'. split; [simpl; by exists c |]. intros Hne. apply Hd.
      congruence.
Qed.

Lemma prefix_app_cases (p d q : path) :
  p `prefix_of` d ++ q →
  p `prefix_of` d ∨ ∃ k, p = d ++ k ∧ k `prefix_of` q ∧ k ≠ [].
Proof.
  revert p. induction d as [| x d IH]; intros p Hp.
  - destruct p as [| y p]; [left; apply prefix_nil |].
    right. by exists (y :: p).
  - destruct p as [| y p]; [left; apply prefix_nil |].
    simpl in Hp. apply prefix_cons_inv_1 in Hp as Hxy. subst y.
    apply prefix_cons_inv_2 in Hp.
    destruct (IH p Hp) as [Hpd | (k & -> & Hk & Hne)].
    + left. by apply prefix_cons.
    + right. by exists k.
Qed.

(** One directory on the way: it was there, or it was not and is now. *)
Lemma mkdir_one_made (flt : option (nat * errno))
  (st : gmap (list string) dentry) (cur : path)
  (st1 : gmap (list string) dentry) (flt1 : option (nat * errno)) :
  mkdir_one flt st cur = inl (st1, flt1) →
  (st !! cur = Some DirE ∧ st1 = st)
  ∨ (st !! cur = None ∧ st1 = <[cur := DirE]> st).
Proof.
  unfold mkdir_one. intros H.
  destruct (st !! cur) as [[| data] |]; simplify_eq; [by left |].
  right. by destruct flt as [[[| k] e] |]; simplify_eq.
Qed.

(** The error names the directory that could not be made. *)
Lemma mkdir_one_failed (flt : option (nat * errno))
  (st : gmap (list string) dentry) (cur : path) (err : error) :
  mkdir_one flt st cur = inr err →
  Op err = "mkdir"%string ∧ Path err = cur ∧ st !! cur ≠ Some DirE.
Proof.
  unfold mkdir_one. intros H.
  destruct (st !! cur) as [[| data] |]; simplify_eq; [done |].
  by destruct flt as [[[| k] e] |]; simplify_eq.
Qed.

(** What [os.MkdirAll] changes, whether it fails or not: directories that
    did not exist, on the way to the path. *)
Lemma mkdir_chain_changes rest :
  ∀ (flt : option (nat * errno)) (st : gmap (list string) dentry) cur
    (st' : gmap (list string) dentry) (err : option error),
  mkdir_chain flt st cur rest = (st', err) →
  ∀ p, st' !! p = st !! p
       ∨ (st !! p = None ∧ st' !! p = Some DirE
          ∧ ∃ k, k `prefix_of` rest ∧ p = cur ++ k).
Proof.
  induction rest as [| x r IH]; intros flt st cur st' err Hmk p;
    simpl in Hmk;
    destruct (mkdir_one flt st cur) as [[st1 flt1] | e] eqn:Hone;
    simplify_eq; try (by left).
  - destruct (mkdir_one_made _ _ _ _ _ Hone) as [[Hc ->] | [Hc ->]];
      [by left |].
    destruct (decide (p = cur)) as [-> | Hne].
    + right. rewrite lookup_insert_eq. do 2 (split; [done |]).
      exists []. by rewrite app_nil_r.
    + left. by rewrite lookup_insert_ne.
  - destruct (IH _ _ _ _ _ Hmk p) as [Hp | (Hp & Hp' & k & Hk & ->)].
    + destruct (mkdir_one_made _ _ _ _ _ Hone) as [[Hc ->] | [Hc ->]];
        [by left |].
      destruct (decide (p = cur)) as [-> | Hne].
      * right. rewrite Hp, lookup_insert_eq. do 2 (split; [done |]).
        exists []. split; [apply prefix_nil | by rewrite app_nil_r].
      * left. by rewrite Hp, lookup_insert_ne.
    + right. split; [| split; [done |]].
      * destruct (mkdir_one_made _ _ _ _ _ Hone) as [[Hc ->] | [Hc ->]];
          [done |].
        rewrite lookup_insert_ne in Hp; [done |].
        intros Heq. apply (f_equal length) in Heq.
        rewrite !length_app in Heq. simpl in Heq. lia.
      * exists (x :: k).
        split; [by apply prefix_cons | by rewrite <- app_assoc].
Qed.

(** When [os.MkdirAll] fails, its error names a directory on the way to
    the path that is not there afterwards. *)
Lemma mkdir_chain_failed rest :
  ∀ (flt : option (nat * errno)) (st : gmap (list string) dentry) cur
    (st' : gmap (list string) dentry) (err : error),
  mkdir_chain flt st cur rest = (st', Some err) →
  Op err = "mkdir"%string
  ∧ ∃ k, k `prefix_of` rest ∧ Path err = cur ++ k
         ∧ st' !! (cur ++ k) ≠ Some DirE.
Proof.
  induction rest as [| x r IH]; intros flt st cur st' err Hmk;
    simpl in Hmk;
    destruct (mkdir_one flt st cur) as [[st1 flt1] | e] eqn:Hone;
    simplify_eq.
  - destruct (mkdir_one_failed _ _ _ _ Hone) as (Hop & Hpath & Hc).
    split; [done |]. exists []. by rewrite app_nil_r.
  - destruct (IH _ _ _ _ _ Hmk) as (Hop & k & Hk & Hpath & Hc).
    split; [done |]. exists (x :: k).
    rewrite <- app_assoc in Hpath, Hc. split; [by apply prefix_cons | done].
  - destruct (mkdir_one_failed _ _ _ _ Hone) as (Hop & Hpath & Hc).
    split; [done |]. exists []. rewrite app_nil_r.
    split; [apply prefix_nil | done].
Qed.

Lemma ensure_destination_changes (flt : option (nat * errno))
  (st : gmap (list string) dentry) (d : path)
  (st' : gmap (list string) dentry) (err : option error) :
  ensure_destination flt st d = (st', err) →
  ∀ p, st' !! p = st !! p
       ∨ (st !! p = None ∧ st' !! p = Some DirE ∧ p `prefix_of` d).
Proof.
  unfold ensure_destination, MkdirAll. intros H p.
  destruct (Stat st d); simplify_eq; try (by left).
  destruct (mkdir_chain_changes _ _ _ _ _ _ H p)
    as [Hp | (Hp & Hp' & k & Hk & ->)]; [by left | by right].
Qed.

(** What the copy of one file changes: nothing, or the destination file,
    which was not a directory and now holds a prefix of the bytes of the
    source. *)
Lemma copy_file_changes (cd : CopyDirectory) (data : list byte)
  (flt : file_fault) (st : gmap (list string) dentry) (s d : path)
  (name : string) (st' : gmap (list string) dentry) (err : option error) :
  copy_file cd data flt st s d name = (st', err) →
  st' = st
  ∨ ∃ bytes, bytes `prefix_of` data
             ∧ st !! (d ++ [name]) ≠ Some DirE
             ∧ st' = <[d ++ [name] := FileE bytes]> st.
Proof.
  unfold copy_file, copy_file_with, Create. intros H.
  destruct (open_err flt); simplify_eq; [by left |].
  destruct (create_err flt); simplify_eq; [by left |].
  destruct (Stat st d); simplify_eq; try (by left).
  destruct (st !! (d ++ [name])) as [[| old] |] eqn:Hp; simplify_eq;
    [by left | |].
  all: right;
    destruct (io_CopyBuffer _ _ _) as [written e] eqn:Hio; simplify_eq;
    rewrite insert_insert_eq; eexists; (split; [| done]);
    (transitivity written;
     [unfold Close; destruct (close_err flt) as [[k c] |]; simpl;
      [apply prefix_take | done]
     | unfold io_CopyBuffer in Hio;
       destruct (copy_err flt) as [[[k sd] c] |]; simplify_eq;
       [apply prefix_take | done]]).
Qed.

Lemma kinds_kept_refl (st : gmap (list string) dentry) : kinds_kept st st.
Proof. intros p. destruct (st !! p) as [[| data] |]; eauto. Qed.

Lemma kinds_kept_trans (st1 st2 st3 : gmap (list string) dentry) :
  kinds_kept st1 st2 → kinds_kept st2 st3 → kinds_kept st1 st3.
Proof.
  intros H12 H23 p. specialize (H12 p). specialize (H23 p).
  destruct (st1 !! p) as [[| data] |]; [| | done].
  - by rewrite H12 in H23.
  - destruct H12 as [data' H12]. by rewrite H12 in H23.
Qed.

Section frame.
Variable n : node.
Variable d : path.

Lemma touched_refl (st : gmap (list string) dentry) : touched n d st st.
Proof. intros p. by left. Qed.

Lemma touched_trans (st1 st2 st3 : gmap (list string) dentry) :
  touched n d st1 st2 → touched n d st2 st3 → touched n d st1 st3.
Proof.
  intros H12 H23 p.
  destruct (H23 p) as [Hp | [(Hnone & Hdir & Hloc) | Hfile]].
  - rewrite Hp. apply H12.
  - destruct (H12 p)
      as [Hp | [(_ & Hdir' & _) | (? & ? & ? & ? & _ & _ & _ & ?)]];
      [| congruence | congruence].
    right. left. rewrite <- Hp. done.
  - by right; right.
Qed.

Lemma in_tree_entry f x child :
  in_tree n d f → (x, child) ∈ entries_of (sourceNode f) →
  ∃ q, destinationDirectory f = d ++ q ∧ node_at n (q ++ [x]) child.
Proof.
  intros (q & Hd & Hq & _) Hin. exists q. split; [done |].
  destruct (sourceNode f) as [| flt entries]; [by apply elem_of_nil in Hin |].
  by eapply node_at_snoc.
Qed.

Lemma in_tree_start f x flt sub :
  in_tree n d f → (x, Dir flt sub) ∈ entries_of (sourceNode f) →
  all_frames (in_tree n d)
    (CopyFilesAndDirectory (sourceDirectory f ++ [x]) (Dir flt sub)
       (destinationDirectory f ++ [x])).
Proof.
  intros Hf Hin. destruct (in_tree_entry f x _ Hf Hin) as (q & Hd & Hq).
  simpl. split; [| done]. exists (q ++ [x]). simpl.
  rewrite Hd, <- app_assoc. done.
Qed.

Lemma in_tree_goto f p :
  in_tree n d f →
  match p with
  | Loop r | Send r | Incr r => ∀ e, e ∈ r → e ∈ entries_of (sourceNode f)
  | _ => True
  end →
  in_tree n d (goto f p).
Proof. intros (q & Hd & Hq & Hdir & _) Hp. by exists q. Qed.

Lemma touched_step_here cd w f kids w' t' :
  in_tree n d f → Forall (λ k, all_frames (in_tree n d) k.2) kids →
  step_here cd w f kids = Some (w', t') →
  all_frames (in_tree n d) t'
  ∧ kinds_kept (fs w) (fs w') ∧ touched n d (fs w) (fs w').
Proof.
  intros Hf Hkids Hst. unfold step_here in Hst.
  pose proof Hf as (q & Hd & Hq & Hdir & Hrest).
  destruct (at_pc f) as [| | [| [name [data flt | flt sub]] r] | r | r | | c e]
    eqn:Epc.
  - (* Entry *)
    destruct (ensure_destination _ _ _) as [st' err] eqn:Hens.
    pose proof (ensure_destination_changes _ _ _ _ _ Hens) as Hch.
    assert (Hst' : all_frames (in_tree n d) t' ∧ fs w' = st').
    { destruct err; simplify_eq; (split; [| done]);
        apply all_frames_Task; (split; [by apply in_tree_goto | done]). }
    destruct Hst' as [Hall ->]. split; [done |]. split.
    + intros p. destruct (Hch p) as [-> | (-> & _)]; [| done].
      destruct (fs w !! p) as [[| old] |]; eauto.
    + intros p. destruct (Hch p) as [Hp | (Hp & Hp' & Hpre)]; [by left |].
      right. left. do 2 (split; [done |]). rewrite Hd in Hpre.
      destruct (prefix_app_cases _ _ _ Hpre) as [? | (k & -> & Hk & Hne)];
        [by left | right].
      destruct (decide (k = q)) as [-> | Hkq].
      * exists q, (sourceNode f). auto.
      * destruct (node_at_prefix _ _ _ _ Hq Hk) as (m' & Hm' & Hd').
        exists k, m'. auto.
  - (* Listing *)
    assert (w' = w ∧ ∃ p, t' = Task (goto f p) kids
                          ∧ match p with
                            | Loop r | Send r | Incr r =>
                                ∀ e, e ∈ r → e ∈ entries_of (sourceNode f)
                            | _ => True
                            end) as (-> & p & -> & Hp).
    { unfold ReadDir_copy in Hst.
      destruct (sourceNode f) as [| flt entries]; simplify_eq.
      - split; [done |]. eexists. split; [reflexivity | done].
      - destruct (list_err flt); simplify_eq; (split; [done |]);
          eexists; (split; [reflexivity | by simpl]). }
    split; [| split; [apply kinds_kept_refl | apply touched_refl]].
    apply all_frames_Task. split; [by apply in_tree_goto | done].
  - (* the loop is over *)
    simplify_eq.
    split; [| split; [apply kinds_kept_refl | apply touched_refl]].
    apply all_frames_Task. split; [by apply in_tree_goto | done].
  - (* a file *)
    destruct (copy_file _ _ _ _ _ _ _) as [st' err] eqn:Hcp.
    assert (Hin : (name, File data flt) ∈ entries_of (sourceNode f)).
    { apply Hrest. left. }
    destruct (in_tree_entry f name _ Hf Hin) as (q' & Hd' & Hq').
    assert (Hst' : all_frames (in_tree n d) t' ∧ fs w' = st').
    { destruct err; simplify_eq; (split; [| done]);
        apply all_frames_Task; (split; [| done]); apply in_tree_goto;
        try done.
      intros e He. apply Hrest. by right. }
    destruct Hst' as [Hall ->]. split; [done |].
    destruct (copy_file_changes _ _ _ _ _ _ _ _ _ Hcp)
      as [-> | (bytes & Hpre & Hnd & ->)];
      [split; [apply kinds_kept_refl | apply touched_refl] |].
    split.
    + intros p.
      destruct (decide (p = destinationDirectory f ++ [name])) as [-> | Hne].
      * rewrite lookup_insert_eq.
        destruct (fs w !! (destinationDirectory f ++ [name])) as [[| old] |];
          eauto. done.
      * rewrite lookup_insert_ne by done.
        destruct (fs w !! p) as [[| old] |]; eauto.
    + intros p.
      destruct (decide (p = destinationDirectory f ++ [name])) as [-> | Hne].
      * right. right. exists (q' ++ [name]), data, flt, bytes.
        rewrite lookup_insert_eq, Hd', <- app_assoc. done.
      * left. by rewrite lookup_insert_ne.
  - (* a subdirectory *)
    simplify_eq.
    split; [| split; [apply kinds_kept_refl | apply touched_refl]].
    apply all_frames_Task. split.
    + destruct Hf as (q0 & ? & ? & ? & ?). exists q0. simpl.
      do 3 (split; [done |]). rewrite Epc in *. intros e He.
      apply Hrest. by right.
    + apply Forall_app. split; [done |]. constructor; [| constructor].
      apply in_tree_start; [done |]. apply Hrest. left.
  - (* the send *)
    destruct (closed w); simplify_eq;
      (split; [| split; [apply kinds_kept_refl | apply touched_refl]]);
      apply all_frames_Task; (split; [| done]); [done |].
    apply in_tree_goto; [done |]. done.
  - (* the increment *)
    simplify_eq.
    split; [| split; [apply kinds_kept_refl | apply touched_refl]].
    apply all_frames_Task. split; [| done].
    destruct Hf as (q0 & ? & ? & ? & ?). exists q0. simpl.
    do 3 (split; [done |]). by rewrite Epc in *.
  - (* the wait *)
    destruct (decide (waitGroup f = 0)); simplify_eq.
    split; [| split; [apply kinds_kept_refl | apply touched_refl]].
    apply all_frames_Task. split; [by apply in_tree_goto | done].
  - done.
Qed.
Lemma touched_step cd th : ∀ w t w' t',
  all_frames (in_tree n d) t → step cd th w t = Some (w', t') →
  all_frames (in_tree n d) t'
  ∧ kinds_kept (fs w) (fs w') ∧ touched n d (fs w) (fs w').
Proof.
  induction th as [| i | i th IH]; intros w [f kids] w' t' Hall Hstep;
    apply all_frames_Task in Hall as [Hf Hkids]; simpl in Hstep.
  - by eapply touched_step_here.
  - destruct (kids !! i) as [[g callee] |] eqn:Hi; [| done].
    destruct (step_around f g callee) as [[f' g'] |] eqn:Hst; simplify_eq.
    split; [| split; [apply kinds_kept_refl | apply touched_refl]].
    pose proof (step_around_frame _ _ _ _ _ Hst) as (_ & Hsn & Hdd & Hpc).
    apply all_frames_Task. split.
    + destruct Hf as (q & ? & ? & ? & ?). exists q.
      rewrite Hsn, Hdd, Hpc. done.
    + apply Forall_insert; [done |].
      apply (Forall_lookup_1 _ _ _ _ Hkids Hi).
  - destruct (kids !! i) as [[g callee] |] eqn:Hi; [| done].
    destruct (step cd th w callee) as [[w1 callee'] |] eqn:Hst; simplify_eq.
    destruct (IH _ _ _ _ (Forall_lookup_1 _ _ _ _ Hkids Hi) Hst)
      as (Hall' & Hk & Ht).
    split; [| done]. apply all_frames_Task. split; [done |].
    by apply Forall_insert.
Qed.

End frame.

Lemma in_tree_call s n d :
  all_frames (in_tree n d) (CopyFilesAndDirectory s n d).
Proof.
  simpl. split; [| done]. exists []. simpl. by rewrite app_nil_r.
Qed.

(** X6. What a call of [CopyFilesAndDirectory] does to the file
    system, whatever fails and however the goroutines are scheduled.  It
    removes nothing and changes the kind of nothing: what was a directory
    stays one, what was a file stays a file.  And it changes only: paths
    on the way to the destination and paths below it where the source tree
    has a directory, which did not exist and are now directories; and
    paths below the destination where the source tree has a file, which
    now hold a file whose bytes are a prefix of the bytes of the
    source. *)
Theorem CopyFilesAndDirectory_touches_only (cd : CopyDirectory) (n : node)
  (s d : path) (w w' : world) (ths : list thread) (t' : task) :
  run cd ths (w, CopyFilesAndDirectory s n d) = Some (w', t') →
  kinds_kept (fs w) (fs w') ∧ touched n d (fs w) (fs w').
Proof.
  generalize (in_tree_call s n d).
  generalize (CopyFilesAndDirectory s n d) as t. revert w.
  induction ths as [| th ths IH]; intros w t Hall Hrun; simpl in Hrun.
  - simplify_eq. split; [apply kinds_kept_refl | apply touched_refl].
  - unfold sched in Hrun. simpl in Hrun.
    destruct (panicked w); [done |].
    destruct (step cd th w t) as [[w1 t1] |] eqn:Hst; [| done].
    destruct (touched_step _ _ _ _ _ _ _ _ Hall Hst) as (Hall1 & Hk1 & Ht1).
    destruct (IH _ _ Hall1 Hrun) as [Hk Ht].
    split; [by eapply kinds_kept_trans | by eapply touched_trans].
Qed.

Lemma CopyFilesAndDirectory_touches_only_witness :
  ∃ w' t',
    run cd_two [Here; Here; Here]
        (World store_keep false 0 false,
         CopyFilesAndDirectory ["src"%string] tree_partial ["dst"%string])
    = Some (w', t')
    ∧ result t'
      = Some (0, Some (PathError "write" ["dst"%string; "big"%string] EIO))
    ∧ fs w' !! ["dst"%string; "big"%string] = Some (FileE [x01])
    ∧ fs w' !! ["keep"%string] = Some (FileE [x09])
    ∧ kinds_kept store_keep (fs w')
    ∧ touched tree_partial ["dst"%string] store_keep (fs w').
Proof.
  eexists _, _. split; [vm_compute; reflexivity |].
  split; [reflexivity |]. split; [reflexivity |]. split; [reflexivity |].
  eapply (CopyFilesAndDirectory_touches_only cd_two tree_partial
            ["src"%string] ["dst"%string] (World store_keep false 0 false) _
            [Here; Here; Here]).
  vm_compute. reflexivity.
Defined.

(** ** The source is left alone *)

(** Changes on the way to [d] and below [d] are not at or below a path
    that lies apart from [d]. *)
Lemma touched_apart (n : node) (s d : path)
  (st st' : gmap (list string) dentry) :
  apart s d → touched n d st st' →
  ∀ q, st' !! (s ++ q) = st !! (s ++ q).
Proof.
  intros [Hsd Hds] Ht q.
  assert (Hbelow : ∀ k, s ++ q ≠ d ++ k).
  { intros k Heq.
    assert (Hpre : d `prefix_of` s ++ q) by (exists k; done).
    destruct (prefix_app_cases _ _ _ Hpre) as [? | (k' & -> & _ & _)];
      [done |].
    apply Hsd. by apply prefix_app_r. }
  destruct (Ht (s ++ q))
    as [Hp | [(_ & _ & [Hpre | (k & m & Heq & _)])
             | (k & data & flt & bytes & Heq & _)]].
  - done.
  - exfalso. apply Hsd. etrans; [| apply Hpre]. by apply prefix_app_r.
  - by destruct (Hbelow k).
  - by destruct (Hbelow k).
Qed.

(** X15. When the source directory and the destination directory do not
    lie inside each other, no run of [CopyFilesAndDirectory] changes
    anything at or below the source directory, whatever fails and however
    the goroutines are scheduled: what the calls of the copier read from
    the source is what was there when the copy began. *)
Theorem CopyFilesAndDirectory_keeps_source (cd : CopyDirectory) (n : node)
  (s d : path) (w w' : world) (ths : list thread) (t' : task) :
  apart s d →
  run cd ths (w, CopyFilesAndDirectory s n d) = Some (w', t') →
  ∀ q, fs w' !! (s ++ q) = fs w !! (s ++ q).
Proof.
  intros Hap.
  generalize (in_tree_call s n d).
  generalize (CopyFilesAndDirectory s n d) as t. revert w.
  induction ths as [| th ths IH]; intros w t Hall Hrun q; simpl in Hrun.
  - by simplify_eq.
  - unfold sched in Hrun. simpl in Hrun.
    destruct (panicked w); [done |].
    destruct (step cd th w t) as [[w1 t1] |] eqn:Hst; [| done].
    destruct (touched_step _ _ _ _ _ _ _ _ Hall Hst) as (Hall1 & _ & Ht1).
    rewrite (IH _ _ Hall1 Hrun q).
    by apply (touched_apart n s d).
Qed.

Lemma CopyFilesAndDirectory_keeps_source_witness :
  ∃ w' t',
    run cd_default schedule_interleaved
        (World store_with_source false 0 false,
         CopyFilesAndDirectory ["src"%string] tree_plain ["dst"%string])
    = Some (w', t')
    ∧ result t' = Some (3, None)
    ∧ fs w' !! ["dst"%string; "b"%string] = Some (FileE [x03])
    ∧ ∀ q, fs w' !! (["src"%string] ++ q)
           = store_with_source !! (["src"%string] ++ q).
Proof.
  eexists _, _. split; [vm_compute; reflexivity |].
  split; [reflexivity |]. split; [reflexivity |].
  eapply (CopyFilesAndDirectory_keeps_source cd_default tree_plain
            ["src"%string] ["dst"%string]
            (World store_with_source false 0 false) _
            schedule_interleaved).
  - split; by intros [k Hk].
  - vm_compute. reflexivity.
Defined.

(** ** A nil error means that every file is in place *)

Lemma Wr_inv st f kids :
  Wr st (Task f kids) →
  (∃ c e, at_pc f = Ret c (Some e))
  ∨ ∃ done rest,
      entries_of (sourceNode f) = done ++ rest
      ∧ match at_pc f with
        | Entry | Listing => done = []
        | Loop r | Send r | Incr r => r = rest
        | Wait | Ret _ _ => rest = []
        end
      ∧ names_unique (sourceNode f)
      ∧ (∀ name data flt,
           (name, File data flt) ∈ done → close_err flt = None →
           st !! (destinationDirectory f ++ [name]) = Some (FileE data))
      ∧ Forall2 (λ e k,
                   sourceNode (frame_of k.2) = e.2
                   ∧ destinationDirectory (frame_of k.2)
                     = destinationDirectory f ++ [e.1]
                   ∧ all_frames
                       (in_tree e.2 (destinationDirectory f ++ [e.1])) k.2
                   ∧ Wr st k.2)
                (dir_entries done) kids.
Proof.
  inversion 1; simplify_eq.
  - left. by eexists _, _.
  - right. by eexists _, _.
Qed.

Lemma Wr_start st s n d :
  names_unique n → Wr st (CopyFilesAndDirectory s n d).
Proof.
  intros Hnu. apply (Wr_task st _ _ [] (entries_of n)); try done.
  intros name data flt Hin _. by apply elem_of_nil in Hin.
Qed.

(** The files that an activation tree has written are strictly below its
    destination: changes elsewhere do not matter. *)
Lemma Wr_mono (st st' : gmap (list string) dentry) : ∀ t,
  (∀ p data, st !! p = Some (FileE data) →
             destinationDirectory (frame_of t) `prefix_of` p →
             p ≠ destinationDirectory (frame_of t) →
             st' !! p = Some (FileE data)) →
  Wr st t → Wr st' t.
Proof.
  induction t as [f kids IH] using task_induction. intros Hkeep Hwr.
  simpl in Hkeep.
  apply Wr_inv in Hwr
    as [(c & e & Hpc) | (done & rest & Hsplit & Hpc & Hnu & Hfiles & Hkids)].
  { by eapply Wr_failed. }
  apply (Wr_task st' _ _ done rest); try done.
  - intros name data flt Hin Hcl. apply Hkeep; [by eapply Hfiles | |].
    + by apply prefix_app_r.
    + intros Heq. apply (f_equal length) in Heq. rewrite length_app in Heq.
      simpl in Heq. lia.
  - apply Forall2_same_length_lookup.
    apply Forall2_same_length_lookup in Hkids as [Hl Hkids].
    split; [done |]. intros i e k He Hk.
    destruct (Hkids i e k He Hk) as (Hsn & Hdd & Hin & Hwr).
    do 3 (split; [done |]).
    apply (Forall_lookup_1 _ _ _ _ IH Hk); [| done].
    intros p data Hp Hpre Hne. rewrite Hdd in Hpre, Hne.
    apply Hkeep; [done | |].
    + etrans; [| apply Hpre]. by apply prefix_app_r.
    + intros ->. destruct Hpre as [k' Hk'].
      apply (f_equal length) in Hk'. rewrite !length_app in Hk'.
      simpl in Hk'. lia.
Qed.

Lemma names_unique_entries m :
  names_unique m →
  NoDup (entries_of m).*1 ∧ Forall (λ e, names_unique e.2) (entries_of m).
Proof.
  destruct m as [| flt entries]; [by split; constructor |].
  intros H. by apply names_unique_Dir in H.
Qed.

(** Lines 94-119 when the copy of the file gives no error: nothing but the
    destination file has changed, and unless its [Close] failed it holds
    the bytes of the source. *)
Lemma copy_file_success (cd : CopyDirectory) (data : list byte)
  (flt : file_fault) (st : gmap (list string) dentry) (s d : path)
  (name : string) (st' : gmap (list string) dentry) :
  copy_file cd data flt st s d name = (st', None) →
  ∃ bytes, st' = <[d ++ [name] := FileE bytes]> st
           ∧ (close_err flt = None → bytes = data).
Proof.
  unfold copy_file, copy_file_with, Create, io_CopyBuffer. intros H.
  destruct (open_err flt); simplify_eq.
  destruct (create_err flt); simplify_eq.
  destruct (Stat st d); simplify_eq.
  destruct (st !! (d ++ [name])) as [[| old] |]; simplify_eq;
    destruct (copy_err flt) as [[[k sd] e] |]; simplify_eq;
    rewrite insert_insert_eq; eexists; (split; [done |]);
    by intros ->.
Qed.

Lemma Wr_kids_mono (st st' : gmap (list string) dentry) (dd : path)
  (ds : list (string * node)) (kids : list (gstage * task)) :
  (∀ p data e, st !! p = Some (FileE data) → e ∈ ds →
               dd ++ [e.1] `prefix_of` p → p ≠ dd ++ [e.1] →
               st' !! p = Some (FileE data)) →
  Forall2 (λ e k,
             sourceNode (frame_of k.2) = e.2
             ∧ destinationDirectory (frame_of k.2) = dd ++ [e.1]
             ∧ all_frames (in_tree e.2 (dd ++ [e.1])) k.2
             ∧ Wr st k.2) ds kids →
  Forall2 (λ e k,
             sourceNode (frame_of k.2) = e.2
             ∧ destinationDirectory (frame_of k.2) = dd ++ [e.1]
             ∧ all_frames (in_tree e.2 (dd ++ [e.1])) k.2
             ∧ Wr st' k.2) ds kids.
Proof.
  intros Hkeep Hkids. eapply Forall2_impl_elem; [apply Hkids |].
  intros e k He (Hsn & Hdd & Hin & Hwr). do 3 (split; [done |]).
  eapply Wr_mono; [| apply Hwr]. rewrite Hdd.
  intros p data Hp Hpre Hne. by eapply Hkeep.
Qed.

Lemma below_kid_longer (dd : path) (x : string) (p : path) :
  dd ++ [x] `prefix_of` p → p ≠ dd ++ [x] →
  (length dd + 2 ≤ length p)%nat.
Proof.
  intros [k ->] Hne. rewrite !length_app. simpl.
  destruct k; [by rewrite app_nil_r in Hne | simpl; lia].
Qed.

Lemma Wr_step_here cd w f kids w' t' :
  Wr (fs w) (Task f kids) →
  step_here cd w f kids = Some (w', t') → Wr (fs w') t'.
Proof.
  intros Hwr Hst.
  apply Wr_inv in Hwr
    as [(c & e & Hpc) | (done & rest & Hsplit & Hpc & Hnu & Hfiles & Hkids)].
  { unfold step_here in Hst. by rewrite Hpc in Hst. }
  unfold step_here in Hst.
  destruct (at_pc f) as [| | [| [name [data flt | flt sub]] r] | r | r | | c e]
    eqn:Epc.
  - (* Entry *)
    destruct (ensure_destination _ _ _) as [st' [err |]] eqn:Hens;
      simplify_eq.
    + by eapply Wr_failed.
    + apply (Wr_task _ _ _ [] rest); try done.
      all: try (intros name data flt Hin; by apply elem_of_nil in Hin).
      all: simpl in *; apply Forall2_nil_inv_l in Hkids as ->; constructor.
  - (* Listing *)
    destruct (ReadDir_copy _ _) as [entries | err] eqn:Hread; simplify_eq.
    + apply (Wr_task _ _ _ [] entries); simpl; try done.
      unfold ReadDir_copy in Hread. destruct (sourceNode f); [done |].
      by destruct (list_err flt); simplify_eq.
    + by eapply Wr_failed.
  - (* the loop is over *)
    simplify_eq. by apply (Wr_task _ _ _ done []).
  - (* a file *)
    subst rest.
    destruct (copy_file _ _ _ _ _ _ _) as [st' [err |]] eqn:Hcp; simplify_eq.
    + by eapply Wr_failed.
    + apply copy_file_success in Hcp as (bytes & -> & Hbytes).
      destruct (names_unique_entries _ Hnu) as [Hnd _].
      rewrite Hsplit, fmap_app, fmap_cons in Hnd. simpl in Hnd.
      apply NoDup_app in Hnd as (_ & Hdisj & _).
      apply (Wr_task _ _ _ (done ++ [(name, File data flt)]) r); simpl;
        try done.
      * by rewrite <- app_assoc.
      * intros name' data' flt' Hin Hcl.
        apply elem_of_app in Hin as [Hin | Hin].
        -- rewrite lookup_insert_ne; [by eapply Hfiles |].
           intros Heq. apply app_inv_head in Heq. simplify_eq.
           apply (Hdisj name').
           ++ apply list_elem_of_fmap. by exists (name', File data' flt').
           ++ left.
        -- apply list_elem_of_singleton in Hin. simplify_eq.
           rewrite (Hbytes Hcl). apply lookup_insert_eq.
      * rewrite dir_entries_snoc_file.
        eapply Wr_kids_mono; [| apply Hkids].
        intros p data' e Hp He Hpre Hne.
        rewrite lookup_insert_ne; [done |]. intros <-.
        pose proof (below_kid_longer _ _ _ Hpre Hne) as Hlen.
        rewrite length_app in Hlen. simpl in Hlen. lia.
  - (* a subdirectory *)
    simplify_eq.
    destruct (names_unique_entries _ Hnu) as [_ Hsub].
    apply (Wr_task _ _ _ (done ++ [(name, Dir flt sub)]) r); simpl; try done.
    + by rewrite <- app_assoc.
    + intros name' data' flt' Hin Hcl.
      apply elem_of_app in Hin as [Hin | Hin]; [by eapply Hfiles |].
      by apply list_elem_of_singleton in Hin.
    + rewrite dir_entries_snoc_dir. apply Forall2_app; [done |].
      constructor; [| constructor]. simpl.
      do 2 (split; [done |]). split; [apply in_tree_call |].
      apply Wr_start. rewrite Hsplit in Hsub.
      apply Forall_app in Hsub as [_ Hsub].
      by apply Forall_cons in Hsub as [? _].
  - (* the send *)
    destruct (closed w); simplify_eq.
    + apply (Wr_task _ _ _ done rest); by rewrite ?Epc.
    + by apply (Wr_task _ _ _ done rest).
  - (* the increment *)
    simplify_eq. by apply (Wr_task _ _ _ done rest).
  - (* the wait *)
    destruct (decide (waitGroup f = 0)) as [Hz |]; simplify_eq.
    by apply (Wr_task _ _ _ done []).
  - done.
Qed.

Lemma NoDup_fst_filter {A B} (P : A * B → Prop) `{∀ x, Decision (P x)}
  (l : list (A * B)) :
  NoDup l.*1 → NoDup (filter P l).*1.
Proof.
  induction l as [| x l IH]; [done |]. rewrite fmap_cons.
  intros [Hx Hnd]%NoDup_cons. rewrite filter_cons.
  destruct (decide (P x)); [| by apply IH].
  rewrite fmap_cons. apply NoDup_cons. split; [| by apply IH].
  intros Hin. apply Hx. apply list_elem_of_fmap in Hin as (y & -> & Hy).
  apply list_elem_of_filter in Hy as [_ Hy].
  apply list_elem_of_fmap. by exists y.
Qed.

Lemma dir_entries_names_differ es i j (ei ej : string * node) :
  NoDup es.*1 → dir_entries es !! i = Some ei → dir_entries es !! j = Some ej →
  i ≠ j → ei.1 ≠ ej.1.
Proof.
  intros Hnd Hi Hj Hne Heq.
  pose proof (NoDup_fst_filter (λ e : string * node, IsDir e.2 = true) es Hnd)
    as Hnd'.
  apply Hne. eapply (NoDup_lookup _ i j ei.1 Hnd').
  - unfold dir_entries in Hi. by rewrite list_lookup_fmap, Hi.
  - unfold dir_entries in Hj. by rewrite list_lookup_fmap, Hj, Heq.
Qed.

Lemma node_at_file_nonempty m q data flt :
  IsDir m = true → node_at m q (File data flt) → q ≠ [].
Proof. intros Hd Hq ->. simpl in Hq. by subst m. Qed.

Lemma Wr_step cd th : ∀ w t w' t',
  Wr (fs w) t → step cd th w t = Some (w', t') → Wr (fs w') t'.
Proof.
  induction th as [| i | i th IH]; intros w [f kids] w' t' Hwr Hstep;
    simpl in Hstep.
  - by eapply Wr_step_here.
  - destruct (kids !! i) as [[g callee] |] eqn:Hi; [| done].
    destruct (step_around f g callee) as [[f' g'] |] eqn:Hst; simplify_eq.
    pose proof (step_around_frame _ _ _ _ _ Hst) as (_ & Hsn & Hdd & Hpc').
    apply Wr_inv in Hwr
      as [(c & e & Hpc) | (done & rest & Hsplit & Hpc & Hnu & Hfiles & Hkids)].
    { eapply Wr_failed. by rewrite Hpc'. }
    apply (Wr_task _ _ _ done rest); rewrite ?Hsn, ?Hpc', ?Hdd; try done.
    eapply Forall2_insert_same; [apply Hkids | apply Hi | done].
  - destruct (kids !! i) as [[g callee] |] eqn:Hi; [| done].
    destruct (step cd th w callee) as [[w1 callee'] |] eqn:Hst; simplify_eq.
    apply Wr_inv in Hwr
      as [(c & e & Hpc) | (done & rest & Hsplit & Hpc & Hnu & Hfiles & Hkids)].
    { by eapply Wr_failed. }
    pose proof Hkids as Hkids0.
    apply Forall2_same_length_lookup in Hkids as [Hl Hkids].
    destruct (lookup_lt_is_Some_2 (dir_entries done) i) as [ei Hei].
    { rewrite Hl. by eapply lookup_lt_Some. }
    destruct (Hkids i ei _ Hei Hi) as (Hsni & Hddi & Hini & Hwri).
    simpl in Hsni, Hddi, Hini, Hwri.
    destruct (touched_step _ _ cd th _ _ _ _ Hini Hst)
      as (Hini' & Hkept & Htouch).
    assert (Hdiri : IsDir ei.2 = true).
    { apply list_elem_of_lookup_2 in Hei. unfold dir_entries in Hei.
      by apply list_elem_of_filter in Hei as [? _]. }
    (* a file that the step has changed is strictly below the place of
       the kid *)
    assert (Hchanged : ∀ p data,
              fs w !! p = Some (FileE data) →
              fs w' !! p ≠ Some (FileE data) →
              (destinationDirectory f ++ [ei.1]) `prefix_of` p
              ∧ p ≠ destinationDirectory f ++ [ei.1]).
    { intros p data Hp Hp'.
      destruct (Htouch p) as [Hsame | [(Hnone & _) | Hfile]];
        [congruence | congruence |].
      destruct Hfile as (q & data' & flt' & bytes & -> & Hq & _ & _).
      pose proof (node_at_file_nonempty _ _ _ _ Hdiri Hq) as Hne.
      split; [by apply prefix_app_r |].
      intros Heq. rewrite <- (app_nil_r (_ ++ [ei.1])) in Heq at 2.
      by apply app_inv_head in Heq. }
    destruct (names_unique_entries _ Hnu) as [Hnd _].
    rewrite Hsplit, fmap_app in Hnd. apply NoDup_app in Hnd as (Hnd & _ & _).
    apply (Wr_task _ _ _ done rest); try done.
    + intros name data flt Hin Hcl.
      destruct (decide (fs w' !! (destinationDirectory f ++ [name])
                        = Some (FileE data))) as [? | Hch]; [done |].
      destruct (Hchanged _ data (Hfiles _ _ _ Hin Hcl) Hch) as [Hpre Hne].
      pose proof (below_kid_longer _ _ _ Hpre Hne) as Hlen.
      rewrite length_app in Hlen. simpl in Hlen. lia.
    + apply Forall2_same_length_lookup.
      split; [by rewrite length_insert |]. intros j e k He Hk.
      destruct (decide (i = j)) as [<- | Hij].
      * rewrite list_lookup_insert_eq in Hk by by eapply lookup_lt_Some.
        simplify_eq. simpl.
        destruct (step_args _ _ _ _ _ _ Hst) as (_ & -> & ->).
        do 3 (split; [done |]). by eapply IH.
      * rewrite list_lookup_insert_ne in Hk by done.
        destruct (Hkids j e k He Hk) as (Hsn & Hdd & Hin & Hwr).
        do 3 (split; [done |]).
        eapply Wr_mono; [| apply Hwr]. rewrite Hdd.
        intros p data Hp Hpre Hne.
        destruct (decide (fs w' !! p = Some (FileE data))) as [? | Hch];
          [done |].
        destruct (Hchanged _ data Hp Hch) as [Hpre' Hne'].
        exfalso. apply (dir_entries_names_differ _ _ _ _ _ Hnd Hei He Hij).
        destruct Hpre as [k1 ->]. destruct Hpre' as [k2 Hk2].
        rewrite <- !app_assoc in Hk2. apply app_inv_head in Hk2.
        simpl in Hk2. by simplify_eq.
Qed.

Lemma run_invariants cd ths : ∀ w t w' t',
  WF t → Acc t → run cd ths (w, t) = Some (w', t') →
  WF t' ∧ Acc t'
  ∧ sourceNode (frame_of t') = sourceNode (frame_of t)
  ∧ destinationDirectory (frame_of t') = destinationDirectory (frame_of t).
Proof.
  induction ths as [| th ths IH]; intros w t w' t' Hwf Hacc Hrun;
    simpl in Hrun; [by simplify_eq |].
  unfold sched in Hrun. simpl in Hrun.
  destruct (panicked w); [done |].
  destruct (step cd th w t) as [[w1 t1] |] eqn:Hst; [| done].
  destruct (IH _ _ _ _ (WF_step _ _ _ _ _ _ Hwf Hst)
              (Acc_step _ _ _ _ _ _ Hwf Hacc Hst) Hrun)
    as (Hwf' & Hacc' & Hsn & Hdd).
  destruct (step_args _ _ _ _ _ _ Hst) as (_ & Hsn1 & Hdd1).
  repeat split; try done; congruence.
Qed.

Lemma Wr_run cd ths : ∀ w t w' t',
  Wr (fs w) t → run cd ths (w, t) = Some (w', t') → Wr (fs w') t'.
Proof.
  induction ths as [| th ths IH]; intros w t w' t' Hwr Hrun;
    simpl in Hrun; [by simplify_eq |].
  unfold sched in Hrun. simpl in Hrun.
  destruct (panicked w); [done |].
  destruct (step cd th w t) as [[w1 t1] |] eqn:Hst; [| done].
  eapply IH; [| apply Hrun]. by eapply Wr_step.
Qed.

(** In a finished configuration, every file of the tree whose destination
    was closed without error is at the destination with its bytes. *)
Lemma Wr_finished (st : gmap (list string) dentry) : ∀ t q data flt,
  Wr st t → finished t → IsDir (sourceNode (frame_of t)) = true →
  node_at (sourceNode (frame_of t)) q (File data flt) →
  close_err flt = None →
  st !! (destinationDirectory (frame_of t) ++ q) = Some (FileE data).
Proof.
  induction t as [f kids IH] using task_induction.
  intros q data flt Hwr Hfin Hdir Hq Hcl. simpl in *.
  apply finished_Task in Hfin as [[c Hc] Hkfin].
  apply Wr_inv in Hwr
    as [(c' & e & Hpc) | (done & rest & Hsplit & Hpc & Hnu & Hfiles & Hkids)].
  { congruence. }
  rewrite Hc in Hpc. subst rest. rewrite app_nil_r in Hsplit.
  destruct (sourceNode f) as [| flt0 entries] eqn:Hsn; [done |].
  simpl in Hsplit. subst entries.
  destruct q as [| x q]; [done |]. simpl in Hq.
  destruct Hq as (child & Hin & Hq).
  destruct child as [data' flt' | flt' sub].
  - destruct q as [| y q]; [| done]. simpl in Hq. simplify_eq.
    by eapply Hfiles.
  - assert (Hin' : (x, Dir flt' sub) ∈ dir_entries done).
    { unfold dir_entries. by apply list_elem_of_filter. }
    apply list_elem_of_lookup_1 in Hin' as [i Hi].
    apply Forall2_same_length_lookup in Hkids as [Hl Hkids].
    destruct (lookup_lt_is_Some_2 kids i) as [k Hk].
    { rewrite <- Hl. by eapply lookup_lt_Some. }
    destruct (Hkids i _ k Hi Hk) as (Hsnk & Hddk & _ & Hwrk).
    simpl in Hsnk, Hddk.
    destruct (Forall_lookup_1 _ _ _ _ Hkfin Hk) as [_ Hfk].
    pose proof (Forall_lookup_1 _ _ _ _ IH Hk q data flt Hwrk Hfk) as Hres.
    rewrite Hsnk, Hddk in Hres. rewrite <- app_assoc in Hres.
    by apply Hres.
Qed.

(** X2. For a source tree that lists each name once in a directory, and a
    source and a destination that do not lie inside each other: whatever
    fails and however the goroutines are scheduled, when a call of
    [CopyFilesAndDirectory] has returned a nil error, every file of the
    source tree whose destination file was closed without error is at its
    place below the destination, with exactly the bytes of the source,
    whatever was there before.  (The error of [destinationFile.Close()] is
    discarded at line 115; a file whose [Close] failed may have lost
    bytes, see [close_failure_is_not_reported].) *)
Theorem CopyFilesAndDirectory_nil_error_files (cd : CopyDirectory)
  (n : node) (s d : path) (w w' : world) (ths : list thread) (t' : task)
  (c : Z) :
  names_unique n → apart s d →
  run cd ths (w, CopyFilesAndDirectory s n d) = Some (w', t') →
  result t' = Some (c, None) →
  ∀ q data flt, node_at n q (File data flt) → close_err flt = None →
                fs w' !! (d ++ q) = Some (FileE data).
Proof.
  intros Hnu _ Hrun Hr q data flt Hq Hcl.
  destruct (run_invariants _ _ _ _ _ _ (WF_start s n d) (Acc_start s n d)
              Hrun) as (Hwf & Hacc & Hsn & Hdd).
  simpl in Hsn, Hdd.
  destruct (Acc_complete t' c Hwf Hacc Hr) as (Hdir & _ & _ & Hfin).
  pose proof (Wr_run _ _ _ _ _ _ (Wr_start (fs w) s n d Hnu) Hrun) as Hwr.
  rewrite <- Hdd. eapply Wr_finished; try done. by rewrite Hsn.
Qed.

Lemma CopyFilesAndDirectory_nil_error_files_witness :
  ∃ w' t',
    run cd_default schedule_interleaved
        (World store_stale false 0 false,
         CopyFilesAndDirectory ["src"%string] tree_plain ["dst"%string])
    = Some (w', t')
    ∧ result t' = Some (3, None)
    ∧ fs w' !! ["dst"%string; "a"%string; "x"%string]
      = Some (FileE [x01; x02])
    ∧ ∀ q data flt, node_at tree_plain q (File data flt) →
                    close_err flt = None →
                    fs w' !! (["dst"%string] ++ q) = Some (FileE data).
Proof.
  eexists _, _. split; [vm_compute; reflexivity |].
  split; [reflexivity |]. split; [reflexivity |].
  eapply (CopyFilesAndDirectory_nil_error_files cd_default tree_plain
            ["src"%string] ["dst"%string] (World store_stale false 0 false)
            _ schedule_interleaved).
  - exact tree_plain_names_unique.
  - split; by intros [k Hk].
  - vm_compute. reflexivity.
  - reflexivity.
Defined.

(** The hypothesis on [Close] is needed: when the [Close] of [dst/f] fails
    after one of the three bytes has reached the file, the call still
    returns the count 1 and a nil error. *)
Example close_failure_is_not_reported :
  ∃ w' t',
    run cd_default [Here; Here; Here; Here; Here; Here; Here]
        (fresh, CopyFilesAndDirectory ["src"%string] tree_close_fails
                  ["dst"%string])
    = Some (w', t')
    ∧ result t' = Some (1, None)
    ∧ signals w' = 1%nat
    ∧ fs w' !! ["dst"%string; "f"%string] = Some (FileE [x01]).
Proof. eexists _, _. split; [vm_compute; reflexivity |]. by repeat split. Qed.

(** ** Copy: a nil error means a complete copy *)

(** In every state of [Copy] on a tree that lists each name once in a
    directory, the store has the files that the copier has written. *)
Lemma copy_written cd source n destination who : ∀ s s',
  names_unique n →
  (∀ t, ctask s = Some t →
        Wr (fs (cworld s)) t
        ∧ destinationDirectory (frame_of t) = destination) →
  Copy_run cd source n destination who s = Some s' →
  ∀ t, ctask s' = Some t →
       Wr (fs (cworld s')) t
       ∧ destinationDirectory (frame_of t) = destination.
Proof.
  induction who as [| x who IH]; intros s s' Hnu Hinv Hrun; simpl in Hrun;
    [by simplify_eq |].
  destruct (Copy_step cd source n destination x s) as [s1 |] eqn:Hst;
    [| done].
  eapply IH; [done | | apply Hrun].
  unfold Copy_step in Hst. destruct (panicked (cworld s)); [done |].
  destruct x as [| th].
  - destruct (cpc s); repeat (case_match; simplify_eq/=); try done;
      intros t' Ht'; simplify_eq/=; try (by apply Hinv).
    split; [by apply Wr_start | done].
  - destruct (ctask s) as [t |] eqn:Ht; [| done].
    destruct (step cd th (cworld s) t) as [[w' t'] |] eqn:Hstep;
      simplify_eq/=.
    intros t0 Ht0. simplify_eq. destruct (Hinv t eq_refl) as [Hwr Hdd].
    split; [by eapply Wr_step |].
    by destruct (step_args _ _ _ _ _ _ Hstep) as (_ & _ & ->).
Qed.

(** X3. Whatever fails and however the goroutines are scheduled: when
    [Copy] has returned a nil error, the count it returns is the total
    that [CountFiles] gave for the progress bar, which is the number of
    files of the source tree; the consumer of the progress channel
    received exactly that many signals; the channel is closed, no
    goroutine has panicked, and no thread is left that can move; and, when
    the tree lists each name once in a directory and the source and the
    destination do not lie inside each other, every file of the source
    tree whose destination file was closed without error is at its place
    below the destination with exactly the bytes of the source. *)
Theorem Copy_nil_error_complete (cd : CopyDirectory) (source : path)
  (n : node) (destination : path) (st0 : store) (who : list copy_thread)
  (s : copy_state) (c : Z) :
  Copy_run cd source n destination who (Copy_init st0) = Some s →
  cpc s = CopyRet c None →
  CountFiles source n = (c, None)
  ∧ c = wrap (Z.of_nat (leaves n))
  ∧ signals (cworld s) = leaves n
  ∧ closed (cworld s) = true
  ∧ panicked (cworld s) = false
  ∧ (∀ x, Copy_step cd source n destination x s = None)
  ∧ (names_unique n → apart source destination →
     ∀ q data flt, node_at n q (File data flt) → close_err flt = None →
                   fs (cworld s) !! (destination ++ q) = Some (FileE data)).
Proof.
  intros Hrun Epc.
  destruct (copy_acc_run cd n source destination st0 who _ _
              (copy_acc_init _ _ _) Hrun) as [Hinv _].
  unfold copy_acc in Hinv. rewrite Epc in Hinv.
  destruct (ctask s) as [t |] eqn:Ht.
  - destruct Hinv as ([total Hc] & Hcl & Hwf & Hacc & Hsn & Hr & Hsig & Hnil).
    destruct (Acc_complete t c Hwf Hacc Hr) as (Hdir & Hcount & Hsent & Hfin).
    rewrite Hsn in Hcount, Hsent.
    destruct (CountFiles_succeeds _ _ _ Hc) as (_ & _ & Htot).
    specialize (Hsig (finished_clean t Hfin)).
    split; [congruence |]. split; [done |]. split; [lia |].
    split; [done |]. split; [by apply Hnil |]. split.
    + intros x. unfold Copy_step. rewrite (Hnil eq_refl), Epc, Ht.
      destruct x as [| th]; [done |].
      by rewrite (finished_quiescent cd th (cworld s) t Hfin).
    + intros Hnu _ q data flt Hq Hclose.
      assert (Hinit : ∀ t0, ctask (Copy_init st0) = Some t0 →
                Wr (fs (cworld (Copy_init st0))) t0
                ∧ destinationDirectory (frame_of t0) = destination)
        by (intros t0 Ht0; simpl in Ht0; done).
      destruct (copy_written cd source n destination who _ _ Hnu
                  Hinit Hrun t Ht) as [Hwr Hdd].
      rewrite <- Hdd. eapply Wr_finished; try done. by rewrite Hsn.
  - by destruct Hinv as ((c0 & err & _ & ?) & _).
Qed.

Lemma Copy_nil_error_complete_witness :
  ∃ s,
    Copy_run cd_default ["src"%string] tree_plain ["dst"%string]
      schedule_Copy (Copy_init store_stale) = Some s
    ∧ cpc s = CopyRet 3 None
    ∧ CountFiles ["src"%string] tree_plain = (3, None)
    ∧ 3 = wrap (Z.of_nat (leaves tree_plain))
    ∧ signals (cworld s) = leaves tree_plain
    ∧ closed (cworld s) = true
    ∧ panicked (cworld s) = false
    ∧ (∀ x, Copy_step cd_default ["src"%string] tree_plain ["dst"%string]
              x s = None)
    ∧ (∀ q data flt, node_at tree_plain q (File data flt) →
                     close_err flt = None →
                     fs (cworld s) !! (["dst"%string] ++ q)
                     = Some (FileE data)).
Proof.
  eexists. split; [vm_compute; reflexivity |]. split; [reflexivity |].
  destruct (Copy_nil_error_complete cd_default ["src"%string] tree_plain
              ["dst"%string] store_stale schedule_Copy _ 3
              ltac:(vm_compute; reflexivity) eq_refl)
    as (H1 & H2 & H3 & H4 & H5 & H6 & H7).
  do 6 (split; [assumption |]). apply (H7 tree_plain_names_unique).
  split; by intros [k Hk].
Defined.

(** ** CopyMultipleSources when the destination cannot be created *)

(** X11. When the counts of the sources succeed and [os.MkdirAll] of the
    destination fails (lines 200-206): [CopyMultipleSources] closes the
    progress channel and returns count 0 with the error of [os.MkdirAll]
    in its second step; in no run is a goroutine started or a signal sent.
    The file system is changed at most by directories that did not exist,
    on the way to the destination, which [os.MkdirAll] made before it
    failed; and the error names a directory on the way to the destination
    that is not there. *)
Theorem CopyMultipleSources_destination_failure (cd : CopyDirectory)
  (sources : list (path * node)) (destination : path)
  (dflt : option (nat * errno)) (st st' : store) (totalFiles : Z)
  (err : error) :
  count_sources sources 0 = (totalFiles, None) →
  ensure_destination dflt st destination = (st', Some err) →
  let counted := MultiState (MEnsure totalFiles) (World st false 0 false)
                            0 [] [] [] in
  let returned := MultiState (MRet 0 (Some err)) (World st' true 0 false)
                             0 [] [] [] in
  CopyMultipleSources_run cd sources destination dflt [MMain; MMain]
    (CopyMultipleSources_init st) = Some returned
  ∧ (∀ who s, CopyMultipleSources_run cd sources destination dflt who
                (CopyMultipleSources_init st) = Some s →
              s = CopyMultipleSources_init st ∨ s = counted ∨ s = returned)
  ∧ (∀ p, st' !! p = st !! p
          ∨ (st !! p = None ∧ st' !! p = Some DirE
             ∧ p `prefix_of` destination))
  ∧ Op err = "mkdir"%string
  ∧ Path err `prefix_of` destination
  ∧ st' !! Path err ≠ Some DirE.
Proof.
  intros Hcount Hens counted returned.
  assert (Hstep1 : ∀ x s,
            CopyMultipleSources_step cd sources destination dflt x
              (CopyMultipleSources_init st) = Some s → s = counted).
  { intros x s. unfold CopyMultipleSources_step. simpl.
    destruct x as [| i | i th]; [| done | done].
    rewrite Hcount. by intros [= <-]. }
  assert (Hstep2 : ∀ x s,
            CopyMultipleSources_step cd sources destination dflt x counted
            = Some s → s = returned).
  { intros x s. unfold CopyMultipleSources_step. simpl.
    destruct x as [| i | i th]; [| done | done].
    rewrite Hens. by intros [= <-]. }
  assert (Hstep3 : ∀ x,
            CopyMultipleSources_step cd sources destination dflt x returned
            = None).
  { intros x. unfold CopyMultipleSources_step. simpl.
    by destruct x as [| i | i th]. }
  split; [| split; [| split]].
  - cbn [CopyMultipleSources_run].
    destruct (CopyMultipleSources_step cd sources destination dflt MMain
                (CopyMultipleSources_init st)) as [s1 |] eqn:H1.
    + apply Hstep1 in H1. subst s1.
      destruct (CopyMultipleSources_step cd sources destination dflt MMain
                  counted) as [s2 |] eqn:H2.
      * apply Hstep2 in H2. by subst s2.
      * unfold CopyMultipleSources_step in H2. simpl in H2.
        by rewrite Hens in H2.
    + unfold CopyMultipleSources_step in H1. simpl in H1.
      by rewrite Hcount in H1.
  - intros [| x [| y [| z who]]] s Hrun; simpl in Hrun.
    + left. congruence.
    + right. left.
      destruct (CopyMultipleSources_step _ _ _ _ x _) as [s1 |] eqn:H1;
        [| done].
      apply Hstep1 in H1. congruence.
    + right. right.
      destruct (CopyMultipleSources_step _ _ _ _ x _) as [s1 |] eqn:H1;
        [| done].
      apply Hstep1 in H1. subst s1.
      destruct (CopyMultipleSources_step _ _ _ _ y _) as [s2 |] eqn:H2;
        [| done].
      apply Hstep2 in H2. congruence.
    + destruct (CopyMultipleSources_step _ _ _ _ x _) as [s1 |] eqn:H1;
        [| done].
      apply Hstep1 in H1. subst s1.
      destruct (CopyMultipleSources_step _ _ _ _ y _) as [s2 |] eqn:H2;
        [| done].
      apply Hstep2 in H2. subst s2. by rewrite Hstep3 in Hrun.
  - by apply (ensure_destination_changes dflt st destination st' (Some err)).
  - unfold ensure_destination, MkdirAll in Hens.
    destruct (Stat st destination); simplify_eq.
    destruct (mkdir_chain_failed _ _ _ _ _ _ Hens)
      as (Hop & k & Hk & Hpath & Hnot).
    simpl in Hpath, Hnot. by rewrite Hpath.
Qed.

Lemma CopyMultipleSources_destination_failure_witness :
  let err := PathError "mkdir" ["a"%string; "b"%string] ENOSPC in
  let st' := <[["a"%string] := DirE]> store_root in
  CopyMultipleSources_run cd_default [(["one"%string], tree_plain)]
    ["a"%string; "b"%string; "c"%string] (Some (1%nat, ENOSPC))
    [MMain; MMain] (CopyMultipleSources_init store_root)
  = Some (MultiState (MRet 0 (Some err)) (World st' true 0 false) 0 [] [] [])
  ∧ Path err `prefix_of` ["a"%string; "b"%string; "c"%string]
  ∧ st' !! Path err ≠ Some DirE.
Proof.
  intros err st'.
  destruct (CopyMultipleSources_destination_failure cd_default
              [(["one"%string], tree_plain)]
              ["a"%string; "b"%string; "c"%string] (Some (1%nat, ENOSPC))
              store_root st' 3 err)
    as (Hrun & _ & _ & _ & Hpre & Hnot).
  - reflexivity.
  - vm_compute. reflexivity.
  - by repeat split.
Defined.

(** ** Channels and wait groups *)

Lemma sumZ_le_length {A} (f : A → Z) l :
  (∀ x, 0 ≤ f x ≤ 1) → 0 ≤ sumZ f l ≤ Z.of_nat (length l).
Proof.
  intros Hf. induction l as [| x l IH]; simpl; [lia |].
  specialize (Hf x). lia.
Qed.

Lemma past_count_range gt : 0 ≤ past_count gt ≤ 1.
Proof. unfold past_count. case_decide; lia. Qed.

Lemma past_error_range gt : 0 ≤ past_error gt ≤ 1.
Proof. unfold past_error. case_decide; lia. Qed.

Lemma chans_bounded_step cd sources destination dflt x s s' :
  chans_bounded s →
  CopyMultipleSources_step cd sources destination dflt x s = Some s' →
  chans_bounded s'.
Proof.
  unfold chans_bounded, CopyMultipleSources_step. intros [Hc He] Hstep.
  destruct (panicked (mworld s)); [done |].
  destruct x as [| i | i th].
  - destruct (mpc s) as [| total | [| [src n] rest] | | | count err] eqn:Epc;
      simplify_eq/=; repeat (case_match; simplify_eq/=);
      rewrite ?sumZ_app; simpl; try (split; lia).
    + change (past_count (SCall, ?t)) with 0.
      change (past_error (SCall, ?t)) with 0. split; lia.
    + pose proof (sumZ_le_length past_count (mgos s) past_count_range).
      split; [lia |]. destruct (errChan s); simpl in *; lia.
  - destruct (mgos s !! i) as [[g callee] |] eqn:Hi; [| done].
    destruct g; simplify_eq/=; repeat (case_match; simplify_eq/=);
      rewrite ?length_app, !(sumZ_insert _ _ _ _ _ Hi);
      set (A := sumZ past_count (mgos s)) in *;
      set (B := sumZ past_error (mgos s)) in *; clearbody A B;
      unfold past_count, past_error; simpl;
      repeat (case_decide; try naive_solver); simpl; lia.
  - destruct (mgos s !! i) as [[g callee] |] eqn:Hi; [| done].
    destruct (step cd th (mworld s) callee) as [[w' callee'] |];
      simplify_eq/=.
    rewrite !(sumZ_insert _ _ _ _ _ Hi).
    set (A := sumZ past_count (mgos s)) in *.
    set (B := sumZ past_error (mgos s)) in *. clearbody A B.
    unfold past_count, past_error. simpl. lia.
Qed.

Lemma chans_bounded_run cd sources destination dflt who : ∀ s s',
  chans_bounded s →
  CopyMultipleSources_run cd sources destination dflt who s = Some s' →
  chans_bounded s'.
Proof.
  induction who as [| x who IH]; intros s s' Hc Hrun; simpl in Hrun;
    [by simplify_eq |].
  destruct (CopyMultipleSources_step cd sources destination dflt x s)
    as [s1 |] eqn:Hst; [| done].
  eapply IH; [| apply Hrun]. by eapply chans_bounded_step.
Qed.

(** X12. In every state of every run of [CopyMultipleSources], failures
    or not: [countChan] and [errChan] never hold more values than there
    are sources, so that with their capacity [len(sources)] no send on
    them blocks; and the wait-group counter is the number of goroutines
    that have not finished, never negative and never above the number of
    sources. *)
Theorem CopyMultipleSources_channels_never_full (cd : CopyDirectory)
  (sources : list (path * node)) (destination : path)
  (dflt : option (nat * errno))
  (st : store) (who : list multi_thread) (s : multi_state) :
  CopyMultipleSources_run cd sources destination dflt who
    (CopyMultipleSources_init st) = Some s →
  (length (countChan s) ≤ length sources)%nat
  ∧ (length (errChan s) ≤ length sources)%nat
  ∧ mwaitGroup s = sumZ alive (mgos s)
  ∧ 0 ≤ mwaitGroup s ≤ Z.of_nat (length sources).
Proof.
  intros Hrun.
  pose proof (multi_inv_run cd sources destination dflt who _ _
                (multi_inv_init sources destination st) Hrun)
    as (Hsrc & _ & Hwg & _).
  assert (Hb0 : chans_bounded (CopyMultipleSources_init st)).
  { unfold chans_bounded. simpl. lia. }
  destruct (chans_bounded_run cd sources destination dflt who _ _ Hb0 Hrun)
    as [Hc He].
  assert (Hlen : (length (mgos s) ≤ length sources)%nat).
  { destruct (mgos s) as [| gt0 gos] eqn:Hg using rev_ind; [simpl; lia |].
    destruct (Hsrc (length gos) gt0) as (src & Hs & _).
    { by rewrite lookup_app_r, Nat.sub_diag. }
    apply lookup_lt_Some in Hs. rewrite length_app. simpl. lia. }
  pose proof (sumZ_le_length past_count (mgos s) past_count_range).
  pose proof (sumZ_le_length past_error (mgos s) past_error_range).
  pose proof (sumZ_le_length alive (mgos s) alive_nonneg).
  repeat split; try done; lia.
Qed.

Lemma CopyMultipleSources_channels_never_full_witness :
  ∃ s,
    CopyMultipleSources_run cd_default [source_A; source_B] ["D"%string] None
      (both_calls ++ [MAround 1; MAround 1; MAround 0; MAround 0])
      (CopyMultipleSources_init ∅) = Some s
    ∧ length (countChan s) = 2%nat ∧ length (errChan s) = 2%nat
    ∧ (length (countChan s) ≤ length [source_A; source_B])%nat
    ∧ (length (errChan s) ≤ length [source_A; source_B])%nat
    ∧ mwaitGroup s = sumZ alive (mgos s)
    ∧ 0 ≤ mwaitGroup s ≤ Z.of_nat (length [source_A; source_B]).
Proof.
  eexists. split; [vm_compute; reflexivity |].
  split; [reflexivity |]. split; [reflexivity |].
  apply (CopyMultipleSources_channels_never_full cd_default
           [source_A; source_B] ["D"%string] None ∅
           (both_calls ++ [MAround 1; MAround 1; MAround 0; MAround 0])).
  vm_compute. reflexivity.
Defined.

(** X13. In every configuration of every run of [CopyFilesAndDirectory],
    failures or not, and at every activation: the wait-group counter is
    the number of the goroutines of the activation that have not finished
    (it is never negative), and a goroutine that is past its call runs a
    call that has returned.  So when the wait of line 130 lets the
    activation through, all its goroutines have finished. *)
Theorem CopyFilesAndDirectory_wait_group (cd : CopyDirectory) (n : node)
  (s d : path) (w w' : world) (ths : list thread) (t' : task) :
  run cd ths (w, CopyFilesAndDirectory s n d) = Some (w', t') →
  WF t'
  ∧ 0 ≤ waitGroup (frame_of t')
  ∧ (at_pc (frame_of t') = Wait → is_Some (step cd Here w' t') →
     ∀ i k, kids_of t' !! i = Some k → k.1 = GExit).
Proof.
  intros Hrun.
  destruct (run_total cd ths w _ w' t' (WF_start s n d) Hrun) as [Hwf _].
  split; [done |]. destruct t' as [f kids].
  apply WF_inv in Hwf as [Hwg _]. simpl. split.
  - rewrite Hwg. apply sumZ_galive_nonneg.
  - intros Hpc Hstep. unfold step_here in Hstep. rewrite Hpc in Hstep.
    destruct (decide (waitGroup f = 0)) as [Hz |]; [| by destruct Hstep].
    apply sumZ_galive_zero. lia.
Qed.

Lemma CopyFilesAndDirectory_wait_group_witness :
  ∃ w' t',
    run cd_default (replicate 7 Here ++ replicate 4 (Inside 0 Here)
                    ++ [Around 0; Around 0])
        (fresh, CopyFilesAndDirectory ["src"%string] tree_unlistable_sub
                  ["dst"%string])
    = Some (w', t')
    ∧ at_pc (frame_of t') = Wait ∧ waitGroup (frame_of t') = 1
    ∧ WF t'
    ∧ 0 ≤ waitGroup (frame_of t')
    ∧ (at_pc (frame_of t') = Wait → is_Some (step cd_default Here w' t') →
       ∀ i k, kids_of t' !! i = Some k → k.1 = GExit).
Proof.
  eexists _, _. split; [vm_compute; reflexivity |].
  split; [reflexivity |]. split; [reflexivity |].
  eapply (CopyFilesAndDirectory_wait_group cd_default tree_unlistable_sub
            ["src"%string] ["dst"%string] fresh _
            (replicate 7 Here ++ replicate 4 (Inside 0 Here)
             ++ [Around 0; Around 0])).
  vm_compute. reflexivity.
Defined.
